(** * Incremental text analysis of the Markdown editor

    A shallow embedding of the editor's incremental analysis helpers:
    the range merger and the block expander of the linters, the incremental
    word counter, the table-of-contents numbering and heading ids, the
    place translation of the style linter, the reconciliation of previous
    diagnostics, and the match filter of the grammar linter.

    Numbers are JavaScript numbers holding integers: they are modelled as [Z].
    Strings are modelled as [string], one [ascii] per code unit (the Latin-1
    range of UTF-16). *)

From Stdlib Require Import ZArith String Ascii Bool Lia.
From Stdlib Require Import List.
From Stdlib Require Import DecimalString.
From Stdlib Require Import Sorting.Sorted.
From Stdlib Require Import Sorting.Permutation.
Import ListNotations.

Open Scope Z_scope.

(* ================================================================== *)
(** * Part I: definitions                                              *)
(* ================================================================== *)

(** ** Characters and strings *)

(** JavaScript white space and line terminators in the 8-bit range: TAB, LF,
    VT, FF, CR, SP and NBSP.  This is [\s] of regular expressions and what
    [String.prototype.trim] strips. *)
Definition isWhiteSpace (c : ascii) : bool :=
  let n := nat_of_ascii c in
  ((9 <=? n) && (n <=? 13))%nat || (n =? 32)%nat || (n =? 160)%nat.

Fixpoint trimStart (s : string) : string :=
  match s with
  | EmptyString => EmptyString
  | String c s' => if isWhiteSpace c then trimStart s' else s
  end.

Fixpoint trimEnd (s : string) : string :=
  match s with
  | EmptyString => EmptyString
  | String c s' =>
    let t := trimEnd s' in
    if isWhiteSpace c && (t =? "")%string then EmptyString else String c t
  end.

(** [s.trim()] *)
Definition trim (s : string) : string := trimEnd (trimStart s).

(** ** The document: CodeMirror's [Text] *)

(** A document is held as its lines (without the line breaks); a line break
    counts as one position.  A document always has at least one line: the
    empty document is [[""]]. *)
Module Text.

Definition Doc : Type := list string.

Definition len (s : string) : Z := Z.of_nat (String.length s).

(** [doc.lines] *)
Definition lines (d : Doc) : Z := Z.of_nat (List.length d).

(** [doc.length] *)
Fixpoint length (d : Doc) : Z :=
  match d with
  | [] => 0
  | [l] => len l
  | l :: rest => len l + 1 + length rest
  end.

(** A [Line]: its 1-based number, the offsets of its start and end, and its
    text. *)
Record Line : Type := mkLine { number : Z; from : Z; to : Z; text : string }.

Fixpoint lineGo (d : Doc) (k : nat) (start num : Z) : option Line :=
  match d with
  | [] => None
  | l :: rest =>
    match k with
    | O => Some (mkLine num start (start + len l) l)
    | S k' => lineGo rest k' (start + len l + 1) (num + 1)
    end
  end.

(** [doc.line(n)]: RangeError ([None]) unless [1 <= n <= doc.lines]. *)
Definition line (d : Doc) (n : Z) : option Line :=
  if (n <? 1) || (lines d <? n) then None
  else lineGo d (Z.to_nat (n - 1)) 0 1.

Fixpoint lineAtGo (d : Doc) (pos start num : Z) : option Line :=
  match d with
  | [] => None
  | l :: rest =>
    if pos <=? start + len l then Some (mkLine num start (start + len l) l)
    else lineAtGo rest pos (start + len l + 1) (num + 1)
  end.

(** [doc.lineAt(pos)]: RangeError ([None]) unless [0 <= pos <= doc.length]. *)
Definition lineAt (d : Doc) (pos : Z) : option Line :=
  if (pos <? 0) || (length d <? pos) then None
  else lineAtGo d pos 0 1.

(** [doc.toString()] with LF as line break. *)
Fixpoint toString (d : Doc) : string :=
  match d with
  | [] => EmptyString
  | [l] => l
  | l :: rest => (l ++ String "010"%char (toString rest))%string
  end.

(** [doc.sliceString(from, to)] for [0 <= from <= to]. *)
Definition sliceString (d : Doc) (from to : Z) : string :=
  substring (Z.to_nat from) (Z.to_nat (to - from)) (toString d).

End Text.

(** ** Ranges: [{ from: number, to: number }] *)

Record Range : Type := mkRange { from : Z; to : Z }.

(** ** [mergeRangesInPlace] (md-lint.ts and the selection helpers) *)

(** [ranges.sort((a, b) => a.from - b.from)]: a stable sort on [from]. *)
Fixpoint insertByFrom (x : Range) (l : list Range) : list Range :=
  match l with
  | [] => [x]
  | y :: l' => if from x <=? from y then x :: l else y :: insertByFrom x l'
  end.

Definition sortByFrom (l : list Range) : list Range :=
  fold_right insertByFrom [] l.

(** [ranges[i] = x] for an index inside the array. *)
Fixpoint setAt (i : nat) (x : Range) (l : list Range) : list Range :=
  match l, i with
  | [], _ => []
  | _ :: l', O => x :: l'
  | y :: l', S i' => y :: setAt i' x l'
  end.

(** The [for] loop of [mergeRangesInPlace]: [n] is the number of iterations
    left, that is [ranges.length - readIndex].  The array is threaded
    through; the result is the array and the final [writeIndex]. *)
Fixpoint mergeLoop (n : nat) (ranges : list Range) (writeIndex readIndex : nat)
  : list Range * nat :=
  match n with
  | O => (ranges, writeIndex)
  | S n' =>
    match nth_error ranges writeIndex, nth_error ranges readIndex with
    | Some current, Some next =>
      if from next <=? to current + 1 then
        (* merge into current: current.to = Math.max(current.to, next.to) *)
        mergeLoop n'
          (setAt writeIndex (mkRange (from current) (Z.max (to current) (to next))) ranges)
          writeIndex (S readIndex)
      else
        (* move next up to the next slot *)
        mergeLoop n' (setAt (S writeIndex) next ranges) (S writeIndex) (S readIndex)
    | _, _ => (ranges, writeIndex)
    end
  end.

(** [ranges.length = writeIndex + 1] on the outcome of the loop. *)
Definition cutOff (res : list Range * nat) : list Range :=
  firstn (S (snd res)) (fst res).

(** The whole function; the array after the call is the result. *)
Definition mergeRangesInPlace (ranges : list Range) : list Range :=
  if (length ranges <=? 1)%nat then ranges
  else
    let sorted := sortByFrom ranges in
    cutOff (mergeLoop (length sorted - 1) sorted 0 1).

(** The same sweep over the sorted list, with the accumulator range held
    aside instead of in the array. *)
Fixpoint sweep (current : Range) (rest : list Range) : list Range :=
  match rest with
  | [] => [current]
  | next :: rest' =>
    if from next <=? to current + 1
    then sweep (mkRange (from current) (Z.max (to current) (to next))) rest'
    else current :: sweep next rest'
  end.

(** ** [getSurroundingLinePosition] (md-lint.ts and the selection helpers) *)

(** [view.state.doc.line(n).text.trim() === ''] *)
Definition blankLine (d : Text.Doc) (n : Z) : option bool :=
  match Text.line d n with
  | Some l => Some (trim (Text.text l) =? "")%string
  | None => None
  end.

(** The first [while] loop.  [fuel] bounds the number of iterations; each
    iteration decrements [fromLine], so [fromLine] of them suffice.  The
    result is the final [fromLine], or [None] when [doc.line] throws. *)
Fixpoint walkUp (fuel : nat) (d : Text.Doc) (fromLine : Z)
  (currentBlock prevBlock : bool) : option Z :=
  if 1 <? fromLine then
    match fuel with
    | O => None
    | S fuel' =>
      match blankLine d (fromLine - 1) with
      | None => None
      | Some true =>
        (* we hit a newline, so we are no longer in the starting block *)
        if prevBlock then Some fromLine (* break *)
        else walkUp fuel' d (fromLine - 1) false prevBlock
      | Some false =>
        if negb currentBlock then walkUp fuel' d (fromLine - 1) currentBlock true
        else walkUp fuel' d (fromLine - 1) currentBlock prevBlock
      end
    end
  else Some fromLine.

(** The second [while] loop, towards the end of the document. *)
Fixpoint walkDown (fuel : nat) (d : Text.Doc) (totalLines toLine : Z)
  (currentBlock nextBlock : bool) : option Z :=
  if toLine <? totalLines then
    match fuel with
    | O => None
    | S fuel' =>
      match blankLine d (toLine + 1) with
      | None => None
      | Some true =>
        if nextBlock then Some toLine (* break *)
        else walkDown fuel' d totalLines (toLine + 1) false nextBlock
      | Some false =>
        if negb currentBlock then walkDown fuel' d totalLines (toLine + 1) currentBlock true
        else walkDown fuel' d totalLines (toLine + 1) currentBlock nextBlock
      end
    end
  else Some toLine.

Definition getSurroundingLinePosition (d : Text.Doc) (from to context : Z)
  : option Range :=
  let totalLines := Text.lines d in
  match Text.lineAt d from, Text.lineAt d to with
  | Some lf, Some lt =>
    let fromLine := Z.max 1 (Text.number lf - context) in
    let toLine := Z.min totalLines (Text.number lt + context) in
    match walkUp (Z.to_nat fromLine) d fromLine true false with
    | None => None
    | Some fromLine' =>
      match walkDown (Z.to_nat (totalLines - toLine)) d totalLines toLine true false with
      | None => None
      | Some toLine' =>
        match Text.line d fromLine', Text.line d toLine' with
        | Some l1, Some l2 => Some (mkRange (Text.from l1) (Text.to l2))
        | _, _ => None
        end
      end
    end
  | _, _ => None
  end.

(** What the two loops compute.  [allLines d a b v]: every line [i] with
    [a <= i < b] exists and its blankness is [v]. *)
Definition allLines (d : Text.Doc) (a b : Z) (v : bool) : Prop :=
  forall i, a <= i < b -> blankLine d i = Some v.

(** Walking up from line [s], the loop stops at line [f]: the lines from [f]
    to [s - 1] are, top down, non-blank lines [f .. k-1] (one block above),
    blank lines [k .. m-1], and the non-blank lines [m .. s-1] directly above
    [s]; and either [f] is line 1, or that block and the blank lines are
    really there and the line above [f] is blank. *)
Definition upperStop (d : Text.Doc) (s f : Z) : Prop :=
  1 <= f <= s /\
  exists k m, f <= k <= m /\ m <= s /\
    allLines d f k false /\ allLines d k m true /\ allLines d m s false /\
    (f = 1 \/ (f < k /\ k < m /\ blankLine d (f - 1) = Some true)).

(** Walking down from line [s], the loop stops at line [t]: the lines from
    [s + 1] to [t] are non-blank lines [s+1 .. m] directly below [s], blank
    lines [m+1 .. k] and non-blank lines [k+1 .. t] (one block below); and
    either [t] is the last line, or that block and the blank lines are really
    there and the line below [t] is blank. *)
Definition lowerStop (d : Text.Doc) (s t : Z) : Prop :=
  s <= t <= Text.lines d /\
  exists m k, s <= m /\ m <= k <= t /\
    allLines d (s + 1) (m + 1) false /\ allLines d (m + 1) (k + 1) true /\
    allLines d (k + 1) (t + 1) false /\
    (t = Text.lines d \/ (m < k /\ k < t /\ blankLine d (t + 1) = Some true)).

(** Invariants of the two loops: the flags tell which part of the pattern
    has been read so far. *)
Definition upInv (d : Text.Doc) (s f : Z) (currentBlock prevBlock : bool) : Prop :=
  exists k m, f <= k <= m /\ m <= s /\
    allLines d f k false /\ allLines d k m true /\ allLines d m s false /\
    match currentBlock, prevBlock with
    | true, false => f = m
    | false, false => f = k /\ k < m
    | false, true => f < k /\ k < m
    | true, true => False
    end.

Definition downInv (d : Text.Doc) (s t : Z) (currentBlock nextBlock : bool) : Prop :=
  exists m k, s <= m /\ m <= k <= t /\
    allLines d (s + 1) (m + 1) false /\ allLines d (m + 1) (k + 1) true /\
    allLines d (k + 1) (t + 1) false /\
    match currentBlock, nextBlock with
    | true, false => t = m
    | false, false => t = k /\ m < k
    | false, true => k < t /\ m < k
    | true, true => False
    end.

(** *** The expansion as the specification words it

    A second reading, following the words of the specification and not the
    code: a block is a maximal run of non-blank lines; the expansion is the
    smallest run of whole lines around the changed range that includes at
    least [context] further blocks on each side of the starting block, or
    reaches the buffer boundary. *)

Definition isBlank (d : Text.Doc) (n : Z) : bool :=
  match blankLine d n with
  | Some b => b
  | None => true
  end.

(** Blankness of the lines [a .. b]. *)
Definition lineFlags (d : Text.Doc) (a b : Z) : list bool :=
  map (fun i => isBlank d (a + Z.of_nat i)) (seq 0 (Z.to_nat (b - a + 1))).

(** Number of maximal runs of non-blank lines. *)
Fixpoint countBlocks (prevBlank : bool) (flags : list bool) : Z :=
  match flags with
  | [] => 0
  | b :: rest => (if prevBlank && negb b then 1 else 0) + countBlocks b rest
  end.

(** Blocks met by the lines [a .. b], the block of line [s] not counted. *)
Definition blocksBeside (d : Text.Doc) (a b s : Z) : Z :=
  countBlocks true (lineFlags d a b) - (if isBlank d s then 0 else 1).

(** The lines [a .. b] contain the changed range and enough blocks. *)
Definition specQualifies (d : Text.Doc) (from to context a b : Z) : bool :=
  match Text.lineAt d from, Text.lineAt d to with
  | Some lf, Some lt =>
    let s := Text.number lf in
    let e := Text.number lt in
    (1 <=? a) && (a <=? s) && (e <=? b) && (b <=? Text.lines d) &&
    ((context <=? blocksBeside d a s s) || (a =? 1)) &&
    ((context <=? blocksBeside d e b e) || (b =? Text.lines d))
  | _, _ => false
  end.

(** [r] is the smallest qualifying run of whole lines. *)
Definition specSmallestExpansion (d : Text.Doc) (from to context : Z) (r : Range)
  : Prop :=
  exists a b la lb,
    Text.line d a = Some la /\ Text.line d b = Some lb /\
    r = mkRange (Text.from la) (Text.to lb) /\
    specQualifies d from to context a b = true /\
    forall a' b', specQualifies d from to context a' b' = true ->
                  a' <= a /\ b <= b'.

(** A position lies in one of a list of ranges, bounds included. *)
Definition covered (p : Z) (l : list Range) : Prop :=
  exists r, In r l /\ from r <= p <= to r.

Definition wellFormed (r : Range) : Prop := from r <= to r.

(** Order of the sorted array, and the order of the merged one: the next
    range starts after the end of the previous one plus the tolerance of 1. *)
Definition fromLe (a b : Range) : Prop := from a <= from b.
Definition gapLt (a b : Range) : Prop := to a + 1 < from b.

(** Range [r] lies inside range [o]. *)
Definition inside (r o : Range) : Prop := from o <= from r /\ to r <= to o.

(** ** [placeToOffset] (md-lint.ts) *)

(** The places of unist: a point [{ line, column }], whose fields the linter
    sometimes leaves [null]; a position [{ start, end }]; or [undefined]. *)
Module Unist.

Record Point : Type := mkPoint { line : option Z; column : option Z }.

Inductive Place : Type :=
| Undefined
| APoint (p : Point)
| APosition (start end_ : Place).

End Unist.

(** [None] stands for the RangeError of [source.line(line)]. *)
Fixpoint placeToOffset (place : Unist.Place) (source : Text.Doc) : option Range :=
  match place with
  | Unist.Undefined => Some (mkRange 0 0)
  | Unist.APosition start end_ =>
    (* It's a position *)
    match placeToOffset start source with
    | None => None
    | Some s =>
      match placeToOffset end_ source with
      | None => None
      | Some e => Some (mkRange (from s) (to e))
      end
    end
  | Unist.APoint p =>
    (* It's a point *)
    match Unist.column p, Unist.line p with
    | Some column, Some line =>
      match Text.line source line with
      | None => None
      | Some l =>
        let offset := Text.from l + column - 1 in
        Some (mkRange offset offset)
      end
    | _, _ => Some (mkRange 0 0)
    end
  end.

(** A place without a usable position: absent, a point whose [line] or
    [column] is [null], or a start/end pair of two such places. *)
Fixpoint noPosition (place : Unist.Place) : bool :=
  match place with
  | Unist.Undefined => true
  | Unist.APoint p =>
    match Unist.line p, Unist.column p with
    | Some _, Some _ => false
    | _, _ => true
    end
  | Unist.APosition start end_ => noPosition start && noPosition end_
  end.

(** ** Diagnostics of the linters *)

(** [text.includes(sub)] *)
Fixpoint includes (sub text : string) : bool :=
  prefix sub text ||
  match text with
  | EmptyString => false
  | String _ text' => includes sub text'
  end.

Module Lint.

Inductive Severity : Type := hint | info | warning | error.

(** An action is shown under its [name]; applying it replaces the range of
    the diagnostic by that text. *)
Record Action : Type := mkAction { name : string }.

Record Diagnostic : Type := mkDiagnostic {
  from : Z;
  to : Z;
  severity : Severity;
  message : string;
  source : option string;
  actions : option (list Action)
}.

(** [{ ...d, from: from, to: to }] *)
Definition withRange (d : Diagnostic) (from' to' : Z) : Diagnostic :=
  mkDiagnostic from' to' (severity d) (message d) (source d) (actions d).

End Lint.

(** What [forEachDiagnostic] hands to its callback: the diagnostic as it was
    reported and its current, remapped position. *)
Record Tracked : Type := mkTracked {
  diagnostic : Lint.Diagnostic;
  trackedFrom : Z;
  trackedTo : Z
}.

Definition carried (x : Tracked) : Lint.Diagnostic :=
  Lint.withRange (diagnostic x) (trackedFrom x) (trackedTo x).

Definition trackedSpan (x : Tracked) : Range :=
  mkRange (trackedFrom x) (trackedTo x).

(** [overlaps] of [mdLint]:
    [ranges.some(r => !(d.to < r.from || d.from > r.to))] *)
Definition overlaps (ranges : list Range) (d : Lint.Diagnostic) : bool :=
  existsb (fun r => negb ((Lint.to d <? from r) || (Lint.from d >? to r))) ranges.

(** [d.source !== undefined && d.source?.includes(tag)] *)
Definition fromProvider (tag : string) (d : Lint.Diagnostic) : bool :=
  match Lint.source d with
  | Some s => includes tag s
  | None => false
  end.

(** The callback given to [forEachDiagnostic], on the two arrays
    [diagnostics] and [ranges] it pushes to.  [overlapping] is the overlap
    test of the provider ([overlaps] for [mdLint]). *)
Definition reconcileStep (overlapping : list Range -> Lint.Diagnostic -> bool)
  (tag : string) (st : list Lint.Diagnostic * list Range) (x : Tracked)
  : list Lint.Diagnostic * list Range :=
  let '(diagnostics, ranges) := st in
  let d := diagnostic x in
  if fromProvider tag d then
    if negb (overlapping ranges d) then
      (diagnostics ++ [carried x], ranges)
    else
      (* since the changed ranges overlap with the diagnostic we need to
         expand the context to include the entire diagnostic *)
      (diagnostics, ranges ++ [trackedSpan x])
  else st.

Definition reconcileFrom (overlapping : list Range -> Lint.Diagnostic -> bool)
  (tag : string) (st : list Lint.Diagnostic * list Range) (previous : list Tracked)
  : list Lint.Diagnostic * list Range :=
  fold_left (reconcileStep overlapping tag) previous st.

(** The first part of [mdLint]: from the block-expanded changed ranges and
    the previous diagnostics to the diagnostics carried over and the ranges
    to lint again (before they are merged). *)
Definition mdLintReconcile (ranges : list Range) (previous : list Tracked)
  : list Lint.Diagnostic * list Range :=
  reconcileFrom overlaps "remark-lint" ([], ranges) previous.

(** The same part of [ltLinter].  Its overlap test is [rangesOverlap] of the
    selection helpers, which is not among the sources at hand: it is a
    parameter here. *)
Definition ltLintReconcile (rangesOverlap : Range -> list Range -> bool)
  (ranges : list Range) (previous : list Tracked)
  : list Lint.Diagnostic * list Range :=
  reconcileFrom
    (fun ranges' d => rangesOverlap (mkRange (Lint.from d) (Lint.to d)) ranges')
    "language-tool" ([], ranges) previous.

(** The changed ranges of [mdLint], each expanded with [context = 1000];
    [None] when an expansion throws. *)
Fixpoint expandChanges (d : Text.Doc) (changed : list Range) : option (list Range) :=
  match changed with
  | [] => Some []
  | c :: rest =>
    match getSurroundingLinePosition d (from c) (to c) 1000 with
    | None => None
    | Some r =>
      match expandChanges d rest with
      | None => None
      | Some rs => Some (r :: rs)
      end
    end
  end.

(** [mdLint] up to the calls of the linter: the diagnostics carried over and
    the merged ranges handed to the linter. *)
Definition mdLintPlan (d : Text.Doc) (changed : list Range) (previous : list Tracked)
  : option (list Lint.Diagnostic * list Range) :=
  match expandChanges d changed with
  | None => None
  | Some ranges =>
    let '(diagnostics, ranges') := mdLintReconcile ranges previous in
    Some (diagnostics, mergeRangesInPlace ranges')
  end.

(** ** The match filter of [ltLinter] (language-tool.ts) *)

Module LanguageTool.

(** A match of the LanguageTool response, with the fields the linter reads. *)
Record Match : Type := mkMatch {
  offset : Z;
  length : Z;
  message : string;
  issueType : string;
  replacements : list string
}.

End LanguageTool.

(** The inner loop over [textNodes].  [range] is the analyzed range of the
    document, the [{ from, to }] of the enclosing loop; the offsets of the
    match and of the text nodes are relative to the text of that range.  As
    in the source, [toOffset] is [from + matches[i].length], with the [from]
    of the range. *)
Definition matchIsValid (range : Range) (textNodes : list Range)
  (m : LanguageTool.Match) : bool :=
  let fromOffset := LanguageTool.offset m in
  let toOffset := from range + LanguageTool.length m in
  existsb (fun node => (fromOffset >=? from node) && (toOffset <=? to node))
          textNodes.

(** The loop that splices the invalid matches out of [ltSuggestions.matches]. *)
Fixpoint removeInvalid (range : Range) (textNodes : list Range)
  (matches : list LanguageTool.Match) : list LanguageTool.Match :=
  match matches with
  | [] => []
  | m :: rest =>
    if matchIsValid range textNodes m
    then m :: removeInvalid range textNodes rest
    else removeInvalid range textNodes rest
  end.

(** The diagnostic made from a match that was kept. *)
Definition matchDiagnostic (range : Range) (m : LanguageTool.Match)
  : Lint.Diagnostic :=
  let issueType := LanguageTool.issueType m in
  let source := ("language-tool(" ++ issueType ++ ")")%string in
  let severity :=
    if (issueType =? "style")%string then Lint.info
    else if (issueType =? "misspelling")%string then Lint.error
    else Lint.warning in
  Lint.mkDiagnostic
    (LanguageTool.offset m + from range)
    (LanguageTool.offset m + LanguageTool.length m + from range)
    severity (LanguageTool.message m) (Some source)
    (match LanguageTool.replacements m with
     | [] => None
     | replacements =>
       (* Show at most 10 actions to not overload those messages *)
       Some (map Lint.mkAction (firstn 10 replacements))
     end).

(** The diagnostics [ltLinter] pushes for one analyzed range, given the text
    nodes of its parse tree and the matches of the response. *)
Definition ltDiagnostics (range : Range) (textNodes : list Range)
  (matches : list LanguageTool.Match) : list Lint.Diagnostic :=
  map (matchDiagnostic range) (removeInvalid range textNodes matches).

(** The test the comment of the loop describes: the span of the match,
    [offset] to [offset + length], lies inside some text node. *)
Definition insideSomeTextNode (textNodes : list Range) (m : LanguageTool.Match)
  : bool :=
  existsb (fun node =>
             (from node <=? LanguageTool.offset m) &&
             (LanguageTool.offset m + LanguageTool.length m <=? to node))
          textNodes.

(** ** Regular expressions

    The regular expressions of [headingToID] only quantify over character
    classes.  They are embedded as terms and run by a backtracking matcher
    with the order of alternatives of JavaScript: a greedy quantifier first
    takes as many characters as it can and gives them back one at a time; a
    search tries the start positions from left to right. *)
Module Regex.

Inductive re : Type :=
| Chr (p : ascii -> bool)                              (* one character of a class *)
| Rep (p : ascii -> bool) (min : nat) (max : option nat) (* greedy {min,max} on a class *)
| Seq (a b : re)
| Grp (r : re)                                         (* the capture group 1 *)
| Eos.                                                 (* $ *)

(** Outcome of a match at a position: the rest of the input and group 1. *)
Definition Result : Type := (string * option string)%type.

Fixpoint rep (p : ascii -> bool) (min : nat) (max : option nat) (n : nat)
  (s : string) (k : string -> option Result) : option Result :=
  let stop := if (min <=? n)%nat then k s else None in
  match s with
  | EmptyString => stop
  | String c s' =>
    if p c && match max with Some mx => (n <? mx)%nat | None => true end then
      match rep p min max (S n) s' k with
      | Some r => Some r
      | None => stop
      end
    else stop
  end.

Fixpoint run (r : re) (s : string) (g : option string)
  (k : string -> option string -> option Result) : option Result :=
  match r with
  | Chr p =>
    match s with
    | EmptyString => None
    | String c s' => if p c then k s' g else None
    end
  | Rep p min max => rep p min max 0 s (fun s' => k s' g)
  | Seq a b => run a s g (fun s' g' => run b s' g' k)
  | Grp r' =>
    run r' s g
        (fun s' _ => k s' (Some (substring 0 (String.length s - String.length s') s)))
  | Eos =>
    match s with
    | EmptyString => k s g
    | String _ _ => None
    end
  end.

(** A match that starts at the start of [s]. *)
Definition matchAt (r : re) (s : string) : option Result :=
  run r s None (fun s' g => Some (s', g)).

(** The result of [exec]: [index], the matched text, group 1 and the input
    after the match. *)
Record Match : Type := mkMatch {
  index : nat;
  matched : string;
  group1 : option string;
  after : string
}.

Fixpoint execFrom (r : re) (s : string) (i : nat) : option Match :=
  match matchAt r s with
  | Some (rest, g) =>
    Some (mkMatch i (substring 0 (String.length s - String.length rest) s) g rest)
  | None =>
    match s with
    | EmptyString => None
    | String _ s' => execFrom r s' (S i)
    end
  end.

(** [re.exec(s)] for a regular expression without the [g] flag. *)
Definition exec (r : re) (s : string) : option Match := execFrom r s 0.

(** A replacement text: a literal text, or [$1] for an expression that has
    a group 1. *)
Inductive Replacement : Type :=
| Text (t : string)
| Group1.

Definition expand (repl : Replacement) (g : option string) : string :=
  match repl with
  | Text t => t
  | Group1 => match g with Some t => t | None => EmptyString end
  end.

(** [s.replace(re, repl)] without the [g] flag: the first match only. *)
Definition replace (r : re) (repl : Replacement) (s : string) : string :=
  match exec r s with
  | None => s
  | Some m => (substring 0 (index m) s ++ expand repl (group1 m) ++ after m)%string
  end.

(** [s.replace(re, repl)] with the [g] flag.  Every step consumes at least
    one character of [s], so [S (length s)] steps suffice. *)
Fixpoint replaceAllGo (fuel : nat) (r : re) (repl : Replacement) (s : string)
  : string :=
  match fuel with
  | O => s
  | S fuel' =>
    match matchAt r s with
    | Some (rest, g) =>
      if (String.length rest <? String.length s)%nat then
        (expand repl g ++ replaceAllGo fuel' r repl rest)%string
      else
        (* an empty match: the replacement, then one character is copied *)
        match s with
        | EmptyString => expand repl g
        | String c s' =>
          (expand repl g ++ String c (replaceAllGo fuel' r repl s'))%string
        end
    | None =>
      match s with
      | EmptyString => EmptyString
      | String c s' => String c (replaceAllGo fuel' r repl s')
      end
    end
  end.

Definition replaceAll (r : re) (repl : Replacement) (s : string) : string :=
  replaceAllGo (S (String.length s)) r repl s.

(** Sequences and literal texts. *)
Fixpoint seqs (l : list re) : re :=
  match l with
  | [] => Rep (fun _ => false) 0 (Some 0%nat)
  | [r] => r
  | r :: l' => Seq r (seqs l')
  end.

End Regex.

(** Character classes. *)
Definition charIs (a : ascii) : ascii -> bool := Ascii.eqb a.

Definition charBetween (lo hi : ascii) (c : ascii) : bool :=
  ((nat_of_ascii lo <=? nat_of_ascii c) && (nat_of_ascii c <=? nat_of_ascii hi))%nat.

(** [String.prototype.toLowerCase] on one character of the 8-bit range. *)
Definition lowerChar (c : ascii) : ascii :=
  let n := nat_of_ascii c in
  if charBetween "A" "Z" c then ascii_of_nat (n + 32)
  else if ((192 <=? n) && (n <=? 222) && negb (n =? 215))%nat then ascii_of_nat (n + 32)
  else c.

Fixpoint toLowerCase (s : string) : string :=
  match s with
  | EmptyString => EmptyString
  | String c s' => String (lowerChar c) (toLowerCase s')
  end.

(** A letter under the [i] flag. *)
Definition charIsCI (a : ascii) (c : ascii) : bool :=
  Ascii.eqb (lowerChar a) (lowerChar c).

(** [.]: any character but a line terminator. *)
Definition dot (c : ascii) : bool :=
  negb (charIs "010" c || charIs "013" c).

Definition anyOf (l : list ascii) (c : ascii) : bool :=
  existsb (fun a => Ascii.eqb a c) l.

(** The double quote. *)
Definition dquote : ascii := "034"%char.

(** [s.split(sep)] for a separator of one character. *)
Fixpoint split (sep : ascii) (s : string) : list string :=
  match s with
  | EmptyString => [EmptyString]
  | String c s' =>
    if Ascii.eqb c sep then EmptyString :: split sep s'
    else
      match split sep s' with
      | x :: xs => String c x :: xs
      | [] => [String c EmptyString]
      end
  end.

(** ** [headingToID] (table-of-contents field) *)

(** [/\{(.+)\}$/] *)
Definition pandocAttrsRe : Regex.re :=
  Regex.seqs [Regex.Chr (charIs "{"); Regex.Grp (Regex.Rep dot 1 None);
              Regex.Chr (charIs "}"); Regex.Eos].

(** The named-anchor expression, with the flag [i]: the text [<a], one or
    more characters [(?:.+)], the text [name=], an optional quote (single or
    double), group 1 of one or more characters that are not quotes, an
    optional quote, any characters, [>], any characters, and the text
    [</a>]. *)
Definition namedAnchorRe : Regex.re :=
  let quote := anyOf ["'"%char; dquote] in
  Regex.seqs [Regex.Chr (charIs "<"); Regex.Chr (charIsCI "a");
              Regex.Rep dot 1 None;
              Regex.Chr (charIsCI "n"); Regex.Chr (charIsCI "a");
              Regex.Chr (charIsCI "m"); Regex.Chr (charIsCI "e");
              Regex.Chr (charIs "=");
              Regex.Rep quote 0 (Some 1%nat);
              Regex.Grp (Regex.Rep (fun c => negb (quote c)) 1 None);
              Regex.Rep quote 0 (Some 1%nat);
              Regex.Rep dot 0 None;
              Regex.Chr (charIs ">");
              Regex.Rep dot 0 None;
              Regex.Chr (charIs "<"); Regex.Chr (charIs "/");
              Regex.Chr (charIsCI "a"); Regex.Chr (charIs ">")].

(** [/<.+>/i] *)
Definition htmlRe : Regex.re :=
  Regex.seqs [Regex.Chr (charIs "<"); Regex.Rep dot 1 None; Regex.Chr (charIs ">")].

(** [/[*_]{1,3}(.+)[*_]{1,3}/g] *)
Definition emphasisRe : Regex.re :=
  let mark := anyOf ["*"%char; "_"%char] in
  Regex.seqs [Regex.Rep mark 1 (Some 3%nat); Regex.Grp (Regex.Rep dot 1 None);
              Regex.Rep mark 1 (Some 3%nat)].

(** [/`[^`]+`/g] *)
Definition codeRe : Regex.re :=
  Regex.seqs [Regex.Chr (charIs "`"); Regex.Rep (fun c => negb (charIs "`" c)) 1 None;
              Regex.Chr (charIs "`")].

(** [/\[.+\]\(.+\)/g] *)
Definition linkRe : Regex.re :=
  Regex.seqs [Regex.Chr (charIs "["); Regex.Rep dot 1 None; Regex.Chr (charIs "]");
              Regex.Chr (charIs "("); Regex.Rep dot 1 None; Regex.Chr (charIs ")")].

(** [/\[\^.+\]/g] *)
Definition footnoteRe : Regex.re :=
  Regex.seqs [Regex.Chr (charIs "["); Regex.Chr (charIs "^"); Regex.Rep dot 1 None;
              Regex.Chr (charIs "]")].

(** [/[\s\n]/g] *)
Definition spaceRe : Regex.re := Regex.Chr isWhiteSpace.

Definition isIdChar (c : ascii) : bool :=
  charBetween "a" "z" c || charBetween "A" "Z" c || charBetween "0" "9" c ||
  anyOf ["_"%char; "."%char; "-"%char] c.

(** [/[^a-zA-Z0-9_.-]/g] *)
Definition nonIdCharRe : Regex.re := Regex.Chr (fun c => negb (isIdChar c)).

(** [/[a-z]/] *)
Definition letterRe : Regex.re := Regex.Chr (charBetween "a" "z").

(** The id of the Pandoc attributes [{...}] at the end of the heading, if
    they hold one. *)
Definition pandocId (headingString : string) : option string :=
  match Regex.exec pandocAttrsRe headingString with
  | None => None
  | Some pandocAttrs =>
    let attrs :=
      filter (fun x => negb (x =? "")%string)
             (map trim (split " " (Regex.expand Regex.Group1 (Regex.group1 pandocAttrs)))) in
    match find (fun x => prefix "#" x) attrs with
    | Some id => Some (substring 1 (String.length id) id)
    | None => None
    end
  end.

(** The name of a named anchor in the heading, if there is one. *)
Definition namedAnchorId (headingString : string) : option string :=
  match Regex.exec namedAnchorRe headingString with
  | None => None
  | Some namedAnchor => Some (Regex.expand Regex.Group1 (Regex.group1 namedAnchor))
  end.

(** The text of the heading turned into an identifier, before the fallback. *)
Definition slugify (headingString : string) : string :=
  let text := headingString in
  (* Remove HTML elements *)
  let text := Regex.replace htmlRe (Regex.Text "") text in
  (* Remove all formatting, links, etc. *)
  let text := Regex.replaceAll emphasisRe Regex.Group1 text in
  (* the pattern has no group, so [$1] is inserted as it is written *)
  let text := Regex.replaceAll codeRe (Regex.Text "$1") text in
  let text := Regex.replaceAll linkRe (Regex.Text "") text in
  (* Remove all footnotes. *)
  let text := Regex.replaceAll footnoteRe (Regex.Text "") text in
  (* Replace all spaces and newlines with hyphens. *)
  let text := Regex.replaceAll spaceRe (Regex.Text "-") text in
  (* Remove all non-alphanumeric characters, except underscores, hyphens, and periods. *)
  let text := Regex.replaceAll nonIdCharRe (Regex.Text "") text in
  (* Convert all alphabetic characters to lowercase. *)
  let text := toLowerCase text in
  (* Remove everything up to the first letter *)
  let firstLetter :=
    match Regex.exec letterRe text with
    | Some letterMatch => Regex.index letterMatch
    | None => O
    end in
  substring firstLetter (String.length text - firstLetter) text.

Definition headingToID (headingString : string) : string :=
  match pandocId headingString with
  | Some id => id
  | None =>
    match namedAnchorId headingString with
    | Some name => name
    | None =>
      let text := slugify headingString in
      (* If nothing is left after this, use the identifier section. *)
      if (String.length text =? 0)%nat then "section"%string else text
    end
  end.

(** ** The table of contents (table-of-contents field) *)

Module Toc.

Record ToCEntry : Type := mkToCEntry {
  line : Z;
  pos : Z;
  text : string;
  level : Z;
  renderedLevel : string;
  id : string
}.

Definition withRenderedLevel (e : ToCEntry) (r : string) : ToCEntry :=
  mkToCEntry (line e) (pos e) (text e) (level e) r (id e).

(** The six counters [h1] to [h6]. *)
Record Counters : Type := mkCounters { h1 : Z; h2 : Z; h3 : Z; h4 : Z; h5 : Z; h6 : Z }.

Definition zero : Counters := mkCounters 0 0 0 0 0 0.

(** The counter of a level. *)
Definition counter (j : Z) (c : Counters) : Z :=
  if j =? 1 then h1 c else if j =? 2 then h2 c else if j =? 3 then h3 c
  else if j =? 4 then h4 c else if j =? 5 then h5 c else if j =? 6 then h6 c
  else 0.

End Toc.

(** Decimal rendering of an integer, as [Array.prototype.join] renders the
    counters. *)
Definition numberToString (n : Z) : string :=
  NilEmpty.string_of_int (Z.to_int n).

(** [[a, b, ...].join('.')] *)
Definition joinDot (l : list Z) : string :=
  String.concat "." (map numberToString l).

(** One iteration of the loop of [generateToc]: the [switch] on
    [entry.level]. *)
Definition tocStep (c : Toc.Counters) (entry : Toc.ToCEntry)
  : Toc.Counters * Toc.ToCEntry :=
  let '(Toc.mkCounters h1 h2 h3 h4 h5 h6) := c in
  let level := Toc.level entry in
  if level =? 1 then
    let h1 := h1 + 1 in
    (Toc.mkCounters h1 0 0 0 0 0, Toc.withRenderedLevel entry (joinDot [h1]))
  else if level =? 2 then
    let h2 := h2 + 1 in
    (Toc.mkCounters h1 h2 0 0 0 0, Toc.withRenderedLevel entry (joinDot [h1; h2]))
  else if level =? 3 then
    let h3 := h3 + 1 in
    (Toc.mkCounters h1 h2 h3 0 0 0,
     Toc.withRenderedLevel entry (joinDot [h1; h2; h3]))
  else if level =? 4 then
    let h4 := h4 + 1 in
    (Toc.mkCounters h1 h2 h3 h4 0 0,
     Toc.withRenderedLevel entry (joinDot [h1; h2; h3; h4]))
  else if level =? 5 then
    let h5 := h5 + 1 in
    (Toc.mkCounters h1 h2 h3 h4 h5 0,
     Toc.withRenderedLevel entry (joinDot [h1; h2; h3; h4; h5]))
  else if level =? 6 then
    let h6 := h6 + 1 in
    (Toc.mkCounters h1 h2 h3 h4 h5 h6,
     Toc.withRenderedLevel entry (joinDot [h1; h2; h3; h4; h5; h6]))
  else (c, entry).

Fixpoint generateTocFrom (c : Toc.Counters) (headings : list Toc.ToCEntry)
  : list Toc.ToCEntry :=
  match headings with
  | [] => []
  | entry :: rest =>
    let '(c', entry') := tocStep c entry in
    entry' :: generateTocFrom c' rest
  end.

(** The counters after the loop has gone over [headings]. *)
Definition countersAfter (c : Toc.Counters) (headings : list Toc.ToCEntry)
  : Toc.Counters :=
  fold_left (fun c entry => fst (tocStep c entry)) headings c.

Definition generateToc (headings : list Toc.ToCEntry) : list Toc.ToCEntry :=
  generateTocFrom Toc.zero headings.

(** ** Transactions *)

(** One changed range as [iterChanges] and [iterChangedRanges] report it:
    [fromA] to [toA] in the old document became [fromB] to [toB] in the new
    one. *)
Record Change : Type := mkChange { fromA : Z; toA : Z; fromB : Z; toB : Z }.

(** A transaction: [docChanged], [startState.doc], [newDoc] (the document of
    [state]) and the changed ranges. *)
Record Transaction : Type := mkTransaction {
  docChanged : bool;
  startDoc : Text.Doc;
  newDoc : Text.Doc;
  changes : list Change
}.

(** The document of a text: its lines. *)
Definition docOfString (s : string) : Text.Doc := split "010" s.

(** The transaction that replaces the text between [start] and [stop] of
    [doc] by [insert]. *)
Definition replaceRange (doc : Text.Doc) (start stop : Z) (insert : string)
  : Transaction :=
  let old := Text.toString doc in
  let new :=
    (substring 0 (Z.to_nat start) old ++ insert
     ++ substring (Z.to_nat stop) (String.length old - Z.to_nat stop) old)%string in
  mkTransaction (negb ((start =? stop) && (insert =? "")%string))
                doc (docOfString new)
                [mkChange start stop start (start + Text.len insert)].

(** ** [state.wordAt] (CodeMirror) *)

(** Letters and numbers of the 8-bit range ([\p{L}] and [\p{N}]). *)
Definition isLetter (c : ascii) : bool :=
  let n := nat_of_ascii c in
  charBetween "a" "z" c || charBetween "A" "Z" c ||
  ((n =? 170) || (n =? 181) || (n =? 186) ||
   ((192 <=? n) && (n <=? 255) && negb (n =? 215) && negb (n =? 247)))%nat.

Definition isNumber (c : ascii) : bool :=
  let n := nat_of_ascii c in
  charBetween "0" "9" c ||
  ((n =? 178) || (n =? 179) || (n =? 185) || ((188 <=? n) && (n <=? 190)))%nat.

(** The characters of the category Word of the default [charCategorizer]. *)
Definition isWordChar (c : ascii) : bool :=
  isLetter c || isNumber c || charIs "_" c.

(** The number of word characters at the start of a text. *)
Fixpoint wordPrefix (s : string) : nat :=
  match s with
  | EmptyString => O
  | String c s' => if isWordChar c then S (wordPrefix s') else O
  end.

(** The number of word characters at the end of a text. *)
Fixpoint wordSuffix (s : string) : nat :=
  match s with
  | EmptyString => O
  | String c s' =>
    let n := wordSuffix s' in
    if (n =? String.length s')%nat && isWordChar c then S n else n
  end.

(** [state.wordAt(pos)]: the word characters around [pos] in the line of
    [pos]; [Some None] is [null], [None] the RangeError of [lineAt]. *)
Definition wordAt (doc : Text.Doc) (pos : Z) : option (option Range) :=
  match Text.lineAt doc pos with
  | None => None
  | Some l =>
    let text := Text.text l in
    let i := Z.to_nat (pos - Text.from l) in
    let start := (i - wordSuffix (substring 0 i text))%nat in
    let end_ := (i + wordPrefix (substring i (String.length text - i) text))%nat in
    if (start =? end_)%nat then Some None
    else Some (Some (mkRange (Z.of_nat start + Text.from l)
                             (Z.of_nat end_ + Text.from l)))
  end.

(** ** The counter (statistics field) *)

Record Counts : Type := mkCounts { chars : Z; words : Z }.

(** Modelled from the spec: the words of the analyzer.  A word is a maximal
    run of letter or number characters; a lone letter or digit counts as one
    word.  [inRun] tells whether the character before belongs to a word. *)
Fixpoint countRuns (inRun : bool) (s : string) : Z :=
  match s with
  | EmptyString => 0
  | String c s' =>
    if isLetter c || isNumber c
    then (if inRun then 0 else 1) + countRuns true s'
    else countRuns false s'
  end.

(** Modelled from the spec: the characters of the analyzer, the number of
    characters that are not white space. *)
Fixpoint countNonSpace (s : string) : Z :=
  match s with
  | EmptyString => 0
  | String c s' => (if isWhiteSpace c then 0 else 1) + countNonSpace s'
  end.

(** Modelled from the spec: [countAll(markdownToAST(text))].  The analyzer
    ([countAll] of the counter utilities and [markdownToAST] of the Markdown
    utilities) is not part of the sources at hand.  The specification
    describes the counts as the word and character counts of all
    non-whitespace runs under its analysis rules: a word is a maximal run of
    letter or number code points, and the characters counted are those that
    are not white space. *)
Definition countText (text : string) : Counts :=
  mkCounts (countNonSpace text) (countRuns false text).

(** [/^\p{L}$|^\p{N}$/u.test(s)] *)
Definition singleLetterOrNumber (s : string) : bool :=
  match s with
  | String c EmptyString => isLetter c || isNumber c
  | _ => false
  end.

(** [processSegment] of [countField.update], on the running totals:
    [wordAtPos] is [state.wordAt] and [count] the analyzer. *)
Definition processSegment
  (wordAtPos : Text.Doc -> Z -> option (option Range))
  (count : string -> Counts)
  (doc : Text.Doc) (segFrom segTo : Z) (sign : Z) (total : Counts)
  : option Counts :=
  match wordAtPos doc segFrom with
  | None => None
  | Some startWord =>
    match wordAtPos doc segTo with
    | None => None
    | Some endWord =>
      let start := match startWord with None => segFrom | Some w => from w end in
      let end_ := match endWord with None => segTo | Some w => to w end in
      let text := Text.sliceString doc start end_ in
      let counts := count text in
      (* we have to account for single character words. *)
      let counts :=
        if (words counts =? 0) && singleLetterOrNumber (trim text)
        then mkCounts 1 1 else counts in
      Some (mkCounts (chars total + sign * chars counts)
                     (words total + sign * words counts))
    end
  end.

(** The callback of [iterChanges], folded over the changed ranges. *)
Fixpoint countChanges
  (wordAtPos : Text.Doc -> Z -> option (option Range))
  (count : string -> Counts)
  (tr : Transaction) (cs : list Change) (total : Counts) : option Counts :=
  match cs with
  | [] => Some total
  | c :: rest =>
    match processSegment wordAtPos count (startDoc tr) (fromA c) (toA c) (-1) total with
    | None => None
    | Some total' =>
      match processSegment wordAtPos count (newDoc tr) (fromB c) (toB c) 1 total' with
      | None => None
      | Some total'' => countChanges wordAtPos count tr rest total''
      end
    end
  end.

(** [countField.create] *)
Definition countField_create (count : string -> Counts) (doc : Text.Doc) : Counts :=
  count (Text.toString doc).

(** [countField.update] *)
Definition countField_update
  (wordAtPos : Text.Doc -> Z -> option (option Range))
  (count : string -> Counts)
  (value : Counts) (transaction : Transaction) : option Counts :=
  if negb (docChanged transaction) then Some value
  else countChanges wordAtPos count transaction (changes transaction) value.

(** The state of the counter after a sequence of transactions, from the
    state created for the first document. *)
Fixpoint countField_run
  (wordAtPos : Text.Doc -> Z -> option (option Range))
  (count : string -> Counts)
  (value : Counts) (transactions : list Transaction) : option Counts :=
  match transactions with
  | [] => Some value
  | tr :: rest =>
    match countField_update wordAtPos count value tr with
    | None => None
    | Some value' => countField_run wordAtPos count value' rest
    end
  end.

(** ** [tocField.update] (table-of-contents field) *)

(** A node of the syntax tree, with the fields the field reads. *)
Module AST.
Record ASTNode : Type := mkNode { type : string; from : Z; to : Z; level : Z }.
End AST.

(** [tocEntries.sort((a, b) => a.line - b.line)]: a stable sort. *)
Fixpoint insertByLine (x : Toc.ToCEntry) (l : list Toc.ToCEntry) : list Toc.ToCEntry :=
  match l with
  | [] => [x]
  | y :: l' => if Toc.line x <=? Toc.line y then x :: l else y :: insertByLine x l'
  end.

Definition sortByLine (l : list Toc.ToCEntry) : list Toc.ToCEntry :=
  fold_right insertByLine [] l.

(** [map.set(key, value)] on a [Map] held in insertion order. *)
Fixpoint mapSet (key : Z) (value : Toc.ToCEntry) (m : list (Z * Toc.ToCEntry))
  : list (Z * Toc.ToCEntry) :=
  match m with
  | [] => [(key, value)]
  | (k, v) :: m' =>
    if k =? key then (k, value) :: m' else (k, v) :: mapSet key value m'
  end.

(** [Array.from(new Map(tocEntries.map(obj => [ obj.line, obj ])).values())] *)
Definition lastPerLine (tocEntries : list Toc.ToCEntry) : list Toc.ToCEntry :=
  map snd (fold_left (fun m obj => mapSet (Toc.line obj) obj m) tocEntries []).

Section TocField.

(** The parser: the nodes [extractASTNodes(markdownToAST(text), 'Heading')]. *)
Variable headingsOf : string -> list AST.ASTNode.

(** [transaction.changes.desc.mapPos(pos, 1, MapMode.TrackAfter)]; [None] is
    [null]. *)
Variable mapPos : Transaction -> Z -> option Z.

(** The first loop of [update]: the old headings at their new positions. *)
Fixpoint mapEntries (transaction : Transaction) (value : list Toc.ToCEntry)
  : option (list Toc.ToCEntry) :=
  match value with
  | [] => Some []
  | entry :: rest =>
    match mapPos transaction (Toc.pos entry) with
    | None => mapEntries transaction rest
    | Some newPos =>
      match Text.lineAt (newDoc transaction) newPos with
      | None => None
      | Some newLine =>
        let text := Text.text newLine in
        (* finally, make sure the line is still a heading *)
        match headingsOf text with
        | [] => mapEntries transaction rest
        | _ :: _ =>
          match mapEntries transaction rest with
          | None => None
          | Some tocEntries =>
            Some (Toc.mkToCEntry (Text.number newLine) (Text.from newLine) text
                                 (Toc.level entry) (Toc.renderedLevel entry)
                                 (Toc.id entry) :: tocEntries)
          end
        end
      end
    end
  end.

(** The entries pushed for the heading nodes of one changed range. *)
Fixpoint nodeEntries (doc : Text.Doc) (nodes : list AST.ASTNode)
  : option (list Toc.ToCEntry) :=
  match nodes with
  | [] => Some []
  | node :: rest =>
    if (AST.type node =? "Heading")%string then
      match Text.lineAt doc (AST.from node) with
      | None => None
      | Some nodeLine =>
        match nodeEntries doc rest with
        | None => None
        | Some tocEntries =>
          Some (Toc.mkToCEntry (Text.number nodeLine) (Text.from nodeLine)
                               (Text.text nodeLine) (AST.level node) EmptyString
                               (headingToID (Text.text nodeLine)) :: tocEntries)
        end
      end
    else nodeEntries doc rest
  end.

(** The callback of [iterChangedRanges], over the changed ranges. *)
Fixpoint changedEntries (doc : Text.Doc) (cs : list Change)
  : option (list Toc.ToCEntry) :=
  match cs with
  | [] => Some []
  | c :: rest =>
    match Text.lineAt doc (fromB c) with
    | None => None
    | Some lineB =>
      let lineBefore := Z.min (Text.number lineB - 1) 1 in
      match Text.line doc lineBefore, Text.lineAt doc (toB c) with
      | Some lineFrom, Some lineTo =>
        let text := Text.sliceString doc (Text.from lineFrom) (Text.to lineTo) in
        match nodeEntries doc (headingsOf text) with
        | None => None
        | Some pushed =>
          match changedEntries doc rest with
          | None => None
          | Some tocEntries => Some (pushed ++ tocEntries)
          end
        end
      | _, _ => None
      end
    end
  end.

(** [tocField.update] *)
Definition tocField_update (value : list Toc.ToCEntry) (transaction : Transaction)
  : option (list Toc.ToCEntry) :=
  if negb (docChanged transaction) then Some value
  else
    match mapEntries transaction value with
    | None => None
    | Some kept =>
      match changedEntries (newDoc transaction) (changes transaction) with
      | None => None
      | Some pushed =>
        let tocEntries := sortByLine (kept ++ pushed) in
        let sortedToC := lastPerLine tocEntries in
        Some (generateToc sortedToC)
      end
    end.

End TocField.

(** ** Conditions on the input of a lint pass *)

(** A changed range inside the document. *)
Definition validChange (d : Text.Doc) (c : Range) : Prop :=
  0 <= from c /\ from c <= to c /\ to c <= Text.length d.

(** A tracked diagnostic whose current span is not reversed. *)
Definition validTracked (x : Tracked) : Prop := trackedFrom x <= trackedTo x.

(** ** Notions for the table of contents *)

(** The number of entries of a level. *)
Definition countLevel (k : Z) (l : list Toc.ToCEntry) : Z :=
  Z.of_nat (length (filter (fun e => Toc.level e =? k) l)).

Definition hasLine (k : Z) (e : Toc.ToCEntry) : bool := Toc.line e =? k.

(** The last entry of a line in a list. *)
Definition lastWith (k : Z) (l : list Toc.ToCEntry) : option Toc.ToCEntry :=
  hd_error (rev (filter (hasLine k) l)).

(** The [Map] built from the entries, starting from [m]. *)
Definition setAll (l : list Toc.ToCEntry) (m : list (Z * Toc.ToCEntry))
  : list (Z * Toc.ToCEntry) :=
  fold_left (fun m obj => mapSet (Toc.line obj) obj m) l m.

(** [map.get(key)] *)
Definition mapGet (key : Z) (m : list (Z * Toc.ToCEntry)) : option Toc.ToCEntry :=
  option_map snd (find (fun kv => fst kv =? key) m).

Definition lineLe (a b : Toc.ToCEntry) : Prop := Toc.line a <= Toc.line b.
Definition lineLt (a b : Toc.ToCEntry) : Prop := Toc.line a < Toc.line b.

(** Every value of the [Map] is filed under its own line. *)
Definition wellKeyed (m : list (Z * Toc.ToCEntry)) : Prop :=
  Forall (fun kv => Toc.line (snd kv) = fst kv) m.

(** ** The inverse of a transaction *)

(** The changed range of the inverse change: old and new side swapped. *)
Definition invertChange (c : Change) : Change :=
  mkChange (fromB c) (toB c) (fromA c) (toA c).

(** The transaction that undoes [tr]: it leads from the new document back to
    the start document, and its changed ranges are those of [tr] with the
    sides swapped. *)
Definition invertTransaction (tr : Transaction) : Transaction :=
  mkTransaction (docChanged tr) (newDoc tr) (startDoc tr)
                (map invertChange (changes tr)).

(** Sum and difference of counts, field by field. *)
Definition addCounts (a b : Counts) : Counts :=
  mkCounts (chars a + chars b) (words a + words b).

Definition subCounts (a b : Counts) : Counts :=
  mkCounts (chars a - chars b) (words a - words b).

(** A toy parser for the examples: a text that starts with [#] is one
    heading of level 1 at offset 0. *)
Definition hashHeadings (text : string) : list AST.ASTNode :=
  if prefix "#" text then [AST.mkNode "Heading" 0 (Text.len text) 1] else [].

(** ** Notions for the heading ids *)

(** The characters of a text that satisfy a test. *)
Fixpoint filterChars (p : ascii -> bool) (s : string) : string :=
  match s with
  | EmptyString => EmptyString
  | String c s' => if p c then String c (filterChars p s') else filterChars p s'
  end.

(** Every character of a text satisfies a test. *)
Fixpoint allChars (p : ascii -> bool) (s : string) : bool :=
  match s with
  | EmptyString => true
  | String c s' => p c && allChars p s'
  end.

(** The characters of a slug: lowercase letters, digits, underscore, period
    and hyphen. *)
Definition isSlugChar (c : ascii) : bool :=
  charBetween "a" "z" c || charBetween "0" "9" c ||
  anyOf ["_"%char; "."%char; "-"%char] c.

Definition isLowerLetter (c : ascii) : bool := charBetween "a" "z" c.

(** ** [getWordPosition] (selection helpers) *)

(** [fromWord ? fromWord.from : from] and [toWord ? toWord.to : to]; [None]
    when [wordAt] throws. *)
Definition getWordPosition (doc : Text.Doc) (from0 to0 : Z) : option Range :=
  match wordAt doc from0 with
  | None => None
  | Some fromWord =>
    match wordAt doc to0 with
    | None => None
    | Some toWord =>
      let newFrom := match fromWord with Some w => from w | None => from0 end in
      let newTo := match toWord with Some w => to w | None => to0 end in
      Some (mkRange newFrom newTo)
    end
  end.

(** The two scans of [wordAt] on the text of a line, from the index [i]. *)
Definition wordIn (text : string) (i : nat) : nat * nat :=
  ((i - wordSuffix (substring 0 i text))%nat,
   (i + wordPrefix (substring i (String.length text - i) text))%nat).

(** ** The diagnostics [mdLint] creates (md-lint.ts) *)

Module VFile.

(** [message.ruleId]: [null], [undefined] or a string. *)
Inductive RuleId : Type :=
  | RuleNull
  | RuleUndefined
  | RuleName (name : string).

(** A message of the linter's result, with the fields [mdLint] reads;
    [fatal] is [true], [false] or absent ([None]). *)
Record Message : Type := mkMessage {
  place : Unist.Place;
  fatal : option bool;
  message : string;
  ruleId : RuleId
}.

End VFile.

(** The diagnostic pushed for one message; [text] is the slice of the
    document that was linted and [rangeFrom] its start in the document.
    [None] when [placeToOffset] throws. *)
Definition messageDiagnostic (rangeFrom : Z) (text : Text.Doc) (m : VFile.Message)
  : option Lint.Diagnostic :=
  match placeToOffset (VFile.place m) text with
  | None => None
  | Some offsets =>
    Some (Lint.mkDiagnostic
            (from offsets + rangeFrom)
            (to offsets + rangeFrom)
            (match VFile.fatal m with
             | Some true => Lint.error
             | _ => Lint.warning
             end)
            (VFile.message m)
            (Some (match VFile.ruleId m with
                   | VFile.RuleNull => "remark-lint"
                   | VFile.RuleUndefined => "remark-lint ()"
                   | VFile.RuleName ruleId => "remark-lint (" ++ ruleId ++ ")"
                   end)%string)
            None)
  end.

(** The loop over [result.messages]. *)
Fixpoint messageDiagnostics (rangeFrom : Z) (text : Text.Doc)
  (messages : list VFile.Message) : option (list Lint.Diagnostic) :=
  match messages with
  | [] => Some []
  | m :: rest =>
    match messageDiagnostic rangeFrom text m with
    | None => None
    | Some d =>
      match messageDiagnostics rangeFrom text rest with
      | None => None
      | Some ds => Some (d :: ds)
      end
    end
  end.

(** A place whose points, where they have a line and a column, name a line
    of the text and a column of that line (the column after the last
    character included). *)
Fixpoint placeInside (text : Text.Doc) (place : Unist.Place) : bool :=
  match place with
  | Unist.Undefined => true
  | Unist.APosition start end_ => placeInside text start && placeInside text end_
  | Unist.APoint p =>
    match Unist.column p, Unist.line p with
    | Some column, Some line =>
      match Text.line text line with
      | None => false
      | Some l => (1 <=? column) && (column <=? Text.to l - Text.from l + 1)
      end
    | _, _ => true
    end
  end.

(** ** [languageToolState.update] (language-tool.ts) *)

Module LTField.

Record t : Type := mk {
  running : bool;
  lastDetectedLanguage : string;
  lastError : option string;
  overrideLanguage : string;
  supportedLanguages : list string
}.

End LTField.

(** [Partial<LanguageToolStateField>]: [None] is a property left out. *)
Module LTPartial.

Record t : Type := mk {
  running : option bool;
  lastDetectedLanguage : option string;
  lastError : option string;
  overrideLanguage : option string;
  supportedLanguages : option (list string)
}.

End LTPartial.

(** The effects of a transaction, as the field sees them. *)
Inductive LTEffect : Type :=
  | updateLTState (value : LTPartial.t)
  | otherEffect.

(** [a ?? b] *)
Definition orElse {A : Type} (a : option A) (b : A) : A :=
  match a with
  | Some x => x
  | None => b
  end.

(** The body of the loop over [transaction.effects]. *)
Definition languageToolState_step (value : LTField.t) (e : LTEffect) : LTField.t :=
  match e with
  | updateLTState v =>
    LTField.mk
      (orElse (LTPartial.running v) (LTField.running value))
      (orElse (LTPartial.lastDetectedLanguage v) (LTField.lastDetectedLanguage value))
      (LTPartial.lastError v)
      (orElse (LTPartial.overrideLanguage v) (LTField.overrideLanguage value))
      (orElse (LTPartial.supportedLanguages v) (LTField.supportedLanguages value))
  | otherEffect => value
  end.

Definition languageToolState_update (value : LTField.t) (effects : list LTEffect)
  : LTField.t :=
  fold_left languageToolState_step effects value.

(** The last value a batch of effects provides for a property read by
    [get], if any. *)
Fixpoint lastProvided {A : Type} (get : LTPartial.t -> option A)
  (effects : list LTEffect) : option A :=
  match effects with
  | [] => None
  | e :: rest =>
    match lastProvided get rest with
    | Some x => Some x
    | None =>
      match e with
      | updateLTState v => get v
      | otherEffect => None
      end
    end
  end.

(** The last [updateLTState] effect of a batch, if any. *)
Fixpoint lastUpdate (effects : list LTEffect) : option LTPartial.t :=
  match effects with
  | [] => None
  | e :: rest =>
    match lastUpdate rest with
    | Some v => Some v
    | None =>
      match e with
      | updateLTState v => Some v
      | otherEffect => None
      end
    end
  end.

(** ** [showLinePilcrowField.update] (line number extension) *)

Inductive PilcrowEffect : Type :=
  | configUpdateEffect (showLinePilcrow : option bool)
  | showLinePilcrowEffect (value : bool)
  | unrelatedEffect.

Definition showLinePilcrowField_create : bool := false.

Definition showLinePilcrowField_step (value : bool) (effect : PilcrowEffect) : bool :=
  match effect with
  | configUpdateEffect (Some showLinePilcrow) => showLinePilcrow
  | configUpdateEffect None => value
  | showLinePilcrowEffect v => v
  | unrelatedEffect => value
  end.

Definition showLinePilcrowField_update (value : bool) (effects : list PilcrowEffect)
  : bool :=
  fold_left showLinePilcrowField_step effects value.

(** The value an effect sets, if it sets one. *)
Definition pilcrowSet (effect : PilcrowEffect) : option bool :=
  match effect with
  | configUpdateEffect v => v
  | showLinePilcrowEffect v => Some v
  | unrelatedEffect => None
  end.

(** ** The info statusbar items *)

(** [cursorStatus]: the content of the item; [None] when [lineAt] throws. *)
Definition cursorStatus (doc : Text.Doc) (mainOffset : Z) : option string :=
  match Text.lineAt doc mainOffset with
  | None => None
  | Some line =>
    Some (numberToString (Text.number line) ++ ":"
          ++ numberToString (mainOffset - Text.from line + 1))%string
  end.

(** What the count items read of the editor state: whether the main
    selection is empty, the count field and the configuration field (both
    optional), and what [countSelection] returns for the selection. *)
Record StatusState : Type := mkStatusState {
  selectionEmpty : bool;
  selectionCounts : Counts;
  counter : option Counts;
  countChars : option bool
}.

Section StatusBar.

(** [trans(format, argument)] and [localiseNumber]. *)
Variable trans : string -> string -> string.
Variable localiseNumber : Z -> string.

Definition wordcountStatus (state : StatusState) : option string :=
  if negb (selectionEmpty state) then
    Some (trans "%s selected" (localiseNumber (words (selectionCounts state))))
  else
    match counter state, countChars state with
    | None, _ => None
    | Some _, Some true => None
    | Some counter, _ => Some (trans "%s words" (localiseNumber (words counter)))
    end.

Definition charcountStatus (state : StatusState) : option string :=
  if negb (selectionEmpty state) then
    Some (trans "%s selected" (localiseNumber (chars (selectionCounts state))))
  else
    match counter state, countChars state with
    | None, _ => None
    | Some _, Some false => None
    | Some counter, _ => Some (trans "%s characters" (localiseNumber (chars counter)))
    end.

End StatusBar.

(** ** [tocField.create] *)

Section TocCreate.

Variable headingsOf : string -> list AST.ASTNode.

(** The loop over the heading nodes of the document. *)
Fixpoint createEntries (doc : Text.Doc) (nodes : list AST.ASTNode)
  : option (list Toc.ToCEntry) :=
  match nodes with
  | [] => Some []
  | node :: rest =>
    if (AST.type node =? "Heading")%string then
      match Text.lineAt doc (AST.from node) with
      | None => None
      | Some nodeLine =>
        match createEntries doc rest with
        | None => None
        | Some tocEntries =>
          Some (Toc.mkToCEntry (Text.number nodeLine) (AST.from node)
                               (Text.text nodeLine) (AST.level node) EmptyString
                               (headingToID (Text.text nodeLine)) :: tocEntries)
        end
      end
    else createEntries doc rest
  end.

Definition tocField_create (doc : Text.Doc) : option (list Toc.ToCEntry) :=
  match createEntries doc (headingsOf (Text.toString doc)) with
  | None => None
  | Some tocEntries => Some (generateToc tocEntries)
  end.

End TocCreate.

Definition isHeading (node : AST.ASTNode) : bool :=
  (AST.type node =? "Heading")%string.

Definition fromOrder (a b : AST.ASTNode) : Prop := AST.from a <= AST.from b.

(** What [create] makes of a heading node: the entry [e] of the node. *)
Definition entryOf (doc : Text.Doc) (node : AST.ASTNode) (e : Toc.ToCEntry) : Prop :=
  exists l, Text.lineAt doc (AST.from node) = Some l /\
    Toc.line e = Text.number l /\ Toc.pos e = AST.from node /\
    Toc.text e = Text.text l /\ Toc.level e = AST.level node /\
    Toc.id e = headingToID (Text.text l).

(** A toy parser for the examples: a heading of level 1 at every offset
    where a line starts with [#]. *)
Fixpoint hashLines (offset : Z) (lines : list string) : list AST.ASTNode :=
  match lines with
  | [] => []
  | l :: rest =>
    (if prefix "#" l
     then [AST.mkNode "Heading" offset (offset + Text.len l) 1]
     else [])
    ++ hashLines (offset + Text.len l + 1) rest
  end.

(** ** Transactions with several changes *)

(** The counts [processSegment] adds or subtracts for the text of a segment:
    those of the analyzer, after the patch for single-character words. *)
Definition segmentCounts (count : string -> Counts) (text : string) : Counts :=
  if (words (count text) =? 0) && singleLetterOrNumber (trim text)
  then mkCounts 1 1 else count text.

(** A change as it is dispatched: [{ from, to, insert }], in offsets of the
    old document. *)
Record ChangeSpec : Type := mkChangeSpec {
  specFrom : Z;
  specTo : Z;
  specInsert : string
}.

(** The new text: the old text from [pos] on, with the changes applied.  The
    changes are sorted and do not touch each other. *)
Fixpoint applyChanges (old : string) (pos : Z) (specs : list ChangeSpec) : string :=
  match specs with
  | [] => substring (Z.to_nat pos) (String.length old - Z.to_nat pos) old
  | c :: rest =>
    (substring (Z.to_nat pos) (Z.to_nat (specFrom c - pos)) old
     ++ specInsert c ++ applyChanges old (specTo c) rest)%string
  end.

(** The changed ranges [iterChanges] reports for them; [shift] is the length
    the earlier changes have added. *)
Fixpoint changedRanges (shift : Z) (specs : list ChangeSpec) : list Change :=
  match specs with
  | [] => []
  | c :: rest =>
    mkChange (specFrom c) (specTo c)
             (specFrom c + shift) (specFrom c + shift + Text.len (specInsert c))
    :: changedRanges (shift + Text.len (specInsert c) - (specTo c - specFrom c)) rest
  end.

(** The transaction of [dispatch({ changes: specs })]. *)
Definition dispatch (doc : Text.Doc) (specs : list ChangeSpec) : Transaction :=
  mkTransaction
    (negb (forallb (fun c => (specFrom c =? specTo c) && (specInsert c =? "")%string)
                   specs))
    doc
    (docOfString (applyChanges (Text.toString doc) 0 specs))
    (changedRanges 0 specs).

(** A changed range between two one-line documents [w] and [w']. *)
Definition insideWords (w w' : string) (c : Change) : Prop :=
  (0 <= fromA c <= Text.len w /\ 0 <= toA c <= Text.len w) /\
  (0 <= fromB c <= Text.len w' /\ 0 <= toB c <= Text.len w').

(** ** The heading id the specification describes *)

(** The text after the last occurrence of a character. *)
Fixpoint afterLast (a : ascii) (s : string) : option string :=
  match s with
  | EmptyString => None
  | String c s' =>
    match afterLast a s' with
    | Some t => Some t
    | None => if Ascii.eqb c a then Some s' else None
    end
  end.

(** Modelled from the spec: the explicit inline attribute id of a heading.
    The attributes are the block in braces that ends the heading, from the
    last opening brace to a closing brace at the very end; the id is the
    first attribute that starts with a number sign, without that sign. *)
Definition specAttributeId (h : string) : option string :=
  match afterLast "{" h with
  | None => None
  | Some block =>
    let n := String.length block in
    if (substring (n - 1) 1 block =? "}")%string then
      let attrs :=
        filter (fun x => negb (x =? "")%string)
               (split " " (substring 0 (n - 1) block)) in
      match find (fun x => prefix "#" x) attrs with
      | Some id => Some (substring 1 (String.length id) id)
      | None => None
      end
    else None
  end.

Fixpoint mapChars (f : ascii -> ascii) (s : string) : string :=
  match s with
  | EmptyString => EmptyString
  | String c s' => String (f c) (mapChars f s')
  end.

(** The text from its first lowercase letter on. *)
Fixpoint dropToLetter (s : string) : string :=
  match s with
  | EmptyString => EmptyString
  | String c s' => if isLowerLetter c then s else dropToLetter s'
  end.

(** Modelled from the spec: the slugified text of a heading: spaces to
    hyphens, punctuation stripped except underscore, period and hyphen,
    lowercase, leading non-letter characters trimmed, and an empty result
    replaced by the fallback literal. *)
Definition specSlug (h : string) : string :=
  let text := mapChars (fun c => if isWhiteSpace c then "-"%char else c) h in
  let text := filterChars isIdChar text in
  let text := toLowerCase text in
  let text := dropToLetter text in
  if (text =? "")%string then "section"%string else text.

(** Modelled from the spec: the id of a heading by the fixed precedence
    explicit inline attribute id, then named-anchor id, then slugified
    text. *)
Definition specHeadingToID (h : string) : string :=
  match specAttributeId h with
  | Some id => id
  | None =>
    match namedAnchorId h with
    | Some name => name
    | None => specSlug h
    end
  end.

(** Digits, periods and hyphens. *)
Definition isDigitPunct (c : ascii) : bool :=
  charBetween "0" "9" c || charIs "." c || charIs "-" c.

(** A regular expression that can only match at a character of the class
    [p]: it fails on the empty text and on a text that starts with another
    character. *)
Definition startsAt (p : ascii -> bool) (r : Regex.re) : Prop :=
  forall s g k,
    match s with
    | EmptyString => True
    | String c _ => p c = false
    end ->
    Regex.run r s g k = None.

(** ** The places of the style linter *)

(** Modelled from the spec: a place in which the line or column field is
    null, or which is absent. *)
Fixpoint hasNullField (place : Unist.Place) : bool :=
  match place with
  | Unist.Undefined => true
  | Unist.APoint p =>
    match Unist.line p, Unist.column p with
    | Some _, Some _ => false
    | _, _ => true
    end
  | Unist.APosition start end_ => hasNullField start || hasNullField end_
  end.

(** Every point of the place that has a line and a column names a line of
    the document. *)
Fixpoint linesInside (source : Text.Doc) (place : Unist.Place) : bool :=
  match place with
  | Unist.Undefined => true
  | Unist.APoint p =>
    match Unist.column p, Unist.line p with
    | Some _, Some line => (1 <=? line) && (line <=? Text.lines source)
    | _, _ => true
    end
  | Unist.APosition start end_ => linesInside source start && linesInside source end_
  end.

(** The offset of a point: the start of its line plus its column minus 1,
    and 0 for a point without a line or a column. *)
Definition pointOffset (source : Text.Doc) (p : Unist.Point) : Z :=
  match Unist.column p, Unist.line p with
  | Some column, Some line =>
    match Text.line source line with
    | Some l => Text.from l + column - 1
    | None => 0
    end
  | _, _ => 0
  end.

(** The offset of the start of a place, and of its end. *)
Fixpoint startOffset (source : Text.Doc) (place : Unist.Place) : Z :=
  match place with
  | Unist.Undefined => 0
  | Unist.APoint p => pointOffset source p
  | Unist.APosition start _ => startOffset source start
  end.

Fixpoint endOffset (source : Text.Doc) (place : Unist.Place) : Z :=
  match place with
  | Unist.Undefined => 0
  | Unist.APoint p => pointOffset source p
  | Unist.APosition _ end_ => endOffset source end_
  end.

(** ** Data of the examples *)

(** Five lines: three one-line blocks separated by blank lines. *)
Definition threeBlocks : Text.Doc := ["a"; ""; "b"; ""; "c"]%string.

(** Seven lines: four one-line blocks separated by blank lines. *)
Definition fourBlocks : Text.Doc := ["a"; ""; "b"; ""; "c"; ""; "d"]%string.

(** A heading of a given level. *)
Definition headingOfLevel (level : Z) : Toc.ToCEntry :=
  Toc.mkToCEntry 0 0 EmptyString level EmptyString EmptyString.

(** The levels [1 .. n]. *)
Definition levelsUpTo (n : Z) : list Z := map Z.of_nat (seq 1 (Z.to_nat n)).

(** The text [**bold** text] analyzed from the start of the document: its
    text nodes are [bold] (2 to 6) and [ text] (8 to 13). *)
Definition boldTextNodes : list Range := [mkRange 2 6; mkRange 8 13].

(** A match on the closing [**], offsets 6 to 8: markup, outside every text
    node. *)
Definition markupMatch : LanguageTool.Match :=
  LanguageTool.mkMatch 6 2 "Unpaired symbol"%string "typographical"%string [].

(** A match on offsets 2 to 5 of a text whose only text node spans 0 to 10,
    in a range that starts at offset 100 of the document. *)
Definition proseMatch : LanguageTool.Match :=
  LanguageTool.mkMatch 2 3 "Possible spelling mistake"%string "misspelling"%string
                       ["the"%string].

(** Two previous diagnostics of the style linter that overlap each other;
    only the first one reaches into the changed range 0 to 5. *)
Definition firstFinding : Tracked :=
  mkTracked (Lint.mkDiagnostic 4 10 Lint.warning "first finding"%string
                               (Some "remark-lint (rule-a)"%string) None) 4 10.


(** Replacing every [n] of [banana] by [nn] in one transaction. *)
Definition bananaSpecs : list ChangeSpec :=
  [mkChangeSpec 2 3 "nn"%string; mkChangeSpec 4 5 "nn"%string].

(** A heading with a group in braces before its attributes, and a named
    anchor. *)
Definition setsHeading : string := "<a name='top'></a> The set {x} {#sets}"%string.

(** A start/end pair whose start has no line and column. *)
Definition openStart (line column : Z) : Unist.Place :=
  Unist.APosition (Unist.APoint (Unist.mkPoint None None))
                  (Unist.APoint (Unist.mkPoint (Some line) (Some column))).

(* ================================================================== *)
(** * Part II: theorems                                                *)
(* ================================================================== *)

Section MergeRanges.

Lemma insertByFrom_In x y l : In y (insertByFrom x l) <-> y = x \/ In y l.
Proof.
  induction l as [|z l IH]; simpl.
  - intuition.
  - destruct (from x <=? from z); simpl; [intuition|].
    rewrite IH. intuition.
Qed.

Lemma sortByFrom_In y l : In y (sortByFrom l) <-> In y l.
Proof.
  induction l as [|x l IH]; simpl; [tauto|].
  rewrite insertByFrom_In, IH. intuition.
Qed.

Lemma insertByFrom_length x l : length (insertByFrom x l) = S (length l).
Proof.
  induction l as [|z l IH]; simpl; [reflexivity|].
  destruct (from x <=? from z); simpl; congruence.
Qed.

Lemma sortByFrom_length l : length (sortByFrom l) = length l.
Proof.
  induction l as [|x l IH]; simpl; [reflexivity|].
  now rewrite insertByFrom_length, IH.
Qed.

Lemma insertByFrom_sorted x l :
  StronglySorted fromLe l -> StronglySorted fromLe (insertByFrom x l).
Proof.
  induction 1 as [|z l Hs IH Hall]; simpl.
  - constructor; constructor.
  - destruct (from x <=? from z) eqn:E.
    + apply Z.leb_le in E. constructor.
      * constructor; assumption.
      * constructor; [exact E|].
        rewrite Forall_forall in *. intros y Hy.
        specialize (Hall y Hy). unfold fromLe in *. lia.
    + apply Z.leb_gt in E. constructor; [exact IH|].
      rewrite Forall_forall in *. intros y Hy.
      apply insertByFrom_In in Hy. destruct Hy as [->|Hy].
      * unfold fromLe. lia.
      * now apply Hall.
Qed.

Lemma sortByFrom_sorted l : StronglySorted fromLe (sortByFrom l).
Proof.
  induction l as [|x l IH]; simpl.
  - constructor.
  - now apply insertByFrom_sorted.
Qed.

Lemma sorted_tail_from c x l :
  StronglySorted fromLe (c :: x :: l) ->
  StronglySorted fromLe (mkRange (from c) (Z.max (to c) (to x)) :: l).
Proof.
  intros H. inversion H as [|? ? Hs Hall]; subst.
  inversion Hs as [|? ? Hs' Hall']; subst.
  inversion Hall as [|? ? Hcx Hcl]; subst.
  constructor; [assumption|].
  rewrite Forall_forall in *. intros y Hy. specialize (Hcl y Hy).
  unfold fromLe in *. simpl. exact Hcl.
Qed.

Lemma sweep_from_lower rest : forall cur,
  StronglySorted fromLe (cur :: rest) ->
  Forall (fun o => from cur <= from o) (sweep cur rest).
Proof.
  induction rest as [|next rest IH]; intros cur Hs; simpl.
  - constructor; [lia|constructor].
  - destruct (from next <=? to cur + 1) eqn:E.
    + apply (IH (mkRange (from cur) (Z.max (to cur) (to next)))).
      now apply sorted_tail_from.
    + inversion Hs as [|? ? Hs' Hall]; subst.
      inversion Hall as [|? ? Hcn _]; subst.
      constructor; [lia|].
      specialize (IH next Hs'). rewrite Forall_forall in *.
      intros o Ho. specialize (IH o Ho). unfold fromLe in *. lia.
Qed.

Lemma sweep_gap rest : forall cur,
  StronglySorted fromLe (cur :: rest) ->
  StronglySorted gapLt (sweep cur rest).
Proof.
  induction rest as [|next rest IH]; intros cur Hs; simpl.
  - constructor; constructor.
  - destruct (from next <=? to cur + 1) eqn:E.
    + apply IH. now apply sorted_tail_from.
    + apply Z.leb_gt in E.
      inversion Hs as [|? ? Hs' Hall]; subst.
      constructor; [now apply IH|].
      pose proof (sweep_from_lower rest next Hs') as Hlow.
      rewrite Forall_forall in *. intros o Ho. specialize (Hlow o Ho).
      unfold gapLt. lia.
Qed.

Lemma sweep_wellFormed rest : forall cur,
  Forall wellFormed (cur :: rest) -> Forall wellFormed (sweep cur rest).
Proof.
  induction rest as [|next rest IH]; intros cur Hwf; simpl.
  - exact Hwf.
  - inversion Hwf as [|? ? Hc Hr]; subst.
    inversion Hr as [|? ? Hn Hr']; subst.
    destruct (from next <=? to cur + 1).
    + apply IH. constructor; [|assumption].
      unfold wellFormed in *. simpl. lia.
    + constructor; [assumption|]. apply IH. now constructor.
Qed.

Lemma sweep_head_inside rest : forall cur,
  exists o, In o (sweep cur rest) /\ inside cur o.
Proof.
  induction rest as [|next rest IH]; intros cur; simpl.
  - exists cur. unfold inside. split; [now left|lia].
  - destruct (from next <=? to cur + 1).
    + destruct (IH (mkRange (from cur) (Z.max (to cur) (to next)))) as (o & Ho & Hi).
      exists o. split; [assumption|]. unfold inside in *. simpl in *. lia.
    + exists cur. unfold inside. split; [now left|lia].
Qed.

Lemma sweep_inside rest : forall cur r,
  StronglySorted fromLe (cur :: rest) ->
  In r (cur :: rest) ->
  exists o, In o (sweep cur rest) /\ inside r o.
Proof.
  induction rest as [|next rest IH]; intros cur r Hs Hin.
  - simpl in *. destruct Hin as [->|[]]. exists r. unfold inside. split; [now left|lia].
  - destruct Hin as [->|Hin]; [apply sweep_head_inside|].
    simpl. destruct (from next <=? to cur + 1) eqn:E.
    + pose proof (sorted_tail_from _ _ _ Hs) as Hs2.
      inversion Hs as [|? ? _ Hall]; subst.
      inversion Hall as [|? ? Hcn _]; subst.
      destruct Hin as [->|Hin].
      * destruct (sweep_head_inside rest (mkRange (from cur) (Z.max (to cur) (to r))))
          as (o & Ho & Hi).
        exists o. split; [assumption|]. unfold inside, fromLe in *. simpl in *. lia.
      * apply (IH _ r Hs2). now right.
    + inversion Hs as [|? ? Hs' _]; subst.
      destruct (IH next r Hs' Hin) as (o & Ho & Hi).
      exists o. split; [now right|assumption].
Qed.

Lemma sweep_covered rest : forall cur p,
  Forall wellFormed (cur :: rest) ->
  covered p (sweep cur rest) -> covered p (cur :: rest).
Proof.
  induction rest as [|next rest IH]; intros cur p Hwf Hc; simpl in *.
  - exact Hc.
  - inversion Hwf as [|? ? Hwc Hr]; subst.
    inversion Hr as [|? ? Hwn Hr']; subst.
    destruct (from next <=? to cur + 1) eqn:E.
    + apply Z.leb_le in E.
      assert (Hwf' : Forall wellFormed (mkRange (from cur) (Z.max (to cur) (to next)) :: rest)).
      { constructor; [|assumption]. unfold wellFormed in *. simpl. lia. }
      destruct (IH _ p Hwf' Hc) as (r & [<-|Hin] & Hp).
      * simpl in Hp. unfold wellFormed in *.
        destruct (Z_le_gt_dec p (to cur)).
        -- exists cur. split; [now left|lia].
        -- exists next. split; [right; now left|lia].
      * exists r. split; [right; now right|assumption].
    + destruct Hc as (o & [<-|Hin] & Hp).
      * exists cur. split; [now left|assumption].
      * destruct (IH next p Hr (ex_intro _ o (conj Hin Hp))) as (r & Hr2 & Hp2).
        exists r. split; [now right|assumption].
Qed.

Lemma nth_error_middle (done : list Range) x tl :
  nth_error (done ++ x :: tl) (length done) = Some x.
Proof. induction done; simpl; auto. Qed.

Lemma setAt_middle (done : list Range) x y tl :
  setAt (length done) y (done ++ x :: tl) = done ++ y :: tl.
Proof. induction done; simpl; congruence. Qed.

Lemma firstn_middle (done : list Range) x tl :
  firstn (S (length done)) (done ++ x :: tl) = done ++ [x].
Proof.
  induction done as [|d done IH]; [reflexivity|].
  change (d :: firstn (S (length done)) (done ++ x :: tl) = d :: (done ++ [x])).
  now rewrite IH.
Qed.

(** The array loop computes the sweep: with the array split into the slots
    already written, the accumulator, the stale slots and the unread rest. *)
Lemma mergeLoop_sweep rest : forall done cur mid,
  cutOff (mergeLoop (length rest) (done ++ cur :: mid ++ rest)
                    (length done) (length done + 1 + length mid))
  = done ++ sweep cur rest.
Proof.
  induction rest as [|next rest IH]; intros done cur mid.
  - unfold cutOff. cbn [length mergeLoop fst snd sweep]. apply firstn_middle.
  - cbn [mergeLoop length sweep].
    rewrite nth_error_middle.
    replace (done ++ cur :: mid ++ next :: rest)
      with ((done ++ cur :: mid) ++ next :: rest) at 1
      by (now rewrite <- app_assoc).
    replace (length done + 1 + length mid)%nat with (length (done ++ cur :: mid))
      by (rewrite length_app; cbn [length]; lia).
    rewrite nth_error_middle.
    destruct (from next <=? to cur + 1).
    + rewrite setAt_middle.
      replace (S (length (done ++ cur :: mid)))
        with (length done + 1 + length (mid ++ [next]))%nat
        by (rewrite !length_app; cbn [length]; lia).
      replace (mid ++ next :: rest) with ((mid ++ [next]) ++ rest)
        by (now rewrite <- app_assoc).
      apply IH.
    + replace (done ++ cur :: sweep next rest)
        with ((done ++ [cur]) ++ sweep next rest)
        by (now rewrite <- app_assoc).
      replace (S (length done)) with (length (done ++ [cur]))
        by (rewrite length_app; cbn [length]; lia).
      destruct mid as [|m mid0].
      * replace (done ++ cur :: [] ++ next :: rest)
          with ((done ++ [cur]) ++ next :: rest)
          by (now rewrite <- app_assoc).
        rewrite setAt_middle.
        replace (S (length (done ++ [cur])))
          with (length (done ++ [cur]) + 1 + length (@nil Range))%nat
          by (cbn [length]; lia).
        apply (IH (done ++ [cur]) next []).
      * replace (done ++ cur :: (m :: mid0) ++ next :: rest)
          with ((done ++ [cur]) ++ m :: mid0 ++ next :: rest)
          by (now rewrite <- app_assoc).
        rewrite setAt_middle.
        replace (S (length (done ++ cur :: m :: mid0)))
          with (length (done ++ [cur]) + 1 + length (mid0 ++ [next]))%nat
          by (rewrite !length_app; cbn [length]; lia).
        replace (mid0 ++ next :: rest) with ((mid0 ++ [next]) ++ rest)
          by (now rewrite <- app_assoc).
        apply IH.
Qed.

(** [mergeRangesInPlace] is the sweep over the sorted ranges. *)
Lemma mergeRangesInPlace_sweep ranges :
  mergeRangesInPlace ranges =
  match sortByFrom ranges with
  | [] => []
  | cur :: rest => sweep cur rest
  end.
Proof.
  unfold mergeRangesInPlace.
  destruct ranges as [|a [|b l]]; [reflexivity|reflexivity|].
  cbn [length Nat.leb].
  pose proof (sortByFrom_length (a :: b :: l)) as Hlen.
  destruct (sortByFrom (a :: b :: l)) as [|cur rest]; [discriminate|].
  pose proof (mergeLoop_sweep rest [] cur []) as H.
  cbn [length app Nat.add] in H.
  replace (length (cur :: rest) - 1)%nat with (length rest)
    by (cbn [length]; lia).
  exact H.
Qed.

Lemma gapLt_fromLt l :
  Forall wellFormed l -> StronglySorted gapLt l ->
  StronglySorted (fun a b => from a < from b) l.
Proof.
  intros Hwf Hs. induction Hs as [|a l Hs IH Hall]; constructor.
  - apply IH. now inversion Hwf.
  - inversion Hwf as [|? ? Ha _]; subst.
    rewrite Forall_forall in *. intros b Hb. specialize (Hall b Hb).
    unfold gapLt, wellFormed in *. lia.
Qed.

Example mergeRangesInPlace_example :
  mergeRangesInPlace
    [mkRange 5 7; mkRange 1 2; mkRange 3 4; mkRange 10 12; mkRange 6 8]
  = [mkRange 1 8; mkRange 10 12].
Proof. reflexivity. Qed.

(** C2. For every finite list of ranges with [from <= to], the merged list
    is sorted ascending by [from]; any two of its ranges are separated by a
    gap of at least 2 ([to + 1 < from] of every later range, so none touch
    or overlap); every input range lies inside some output range (no input
    position is lost); and the positions covered by the output are exactly
    the positions covered by the input, bounds included (nothing outside the
    input ranges widened by the tolerance of 1 is added). *)
Theorem mergeRangesInPlace_correct (ranges : list Range)
  (Hwf : Forall wellFormed ranges) :
  let out := mergeRangesInPlace ranges in
  StronglySorted (fun a b => from a < from b) out /\
  StronglySorted gapLt out /\
  Forall wellFormed out /\
  (forall r, In r ranges -> exists o, In o out /\ inside r o) /\
  (forall p, covered p out <-> covered p ranges).
Proof.
  cbn zeta. rewrite mergeRangesInPlace_sweep.
  pose proof (sortByFrom_sorted ranges) as Hsorted.
  assert (Hwfs : Forall wellFormed (sortByFrom ranges)).
  { rewrite Forall_forall in *. intros r Hr. apply Hwf. now apply sortByFrom_In. }
  assert (Hin : forall r, In r ranges <-> In r (sortByFrom ranges)).
  { intros r. symmetry. apply sortByFrom_In. }
  destruct (sortByFrom ranges) as [|cur rest].
  - repeat split; try constructor.
    + intros r Hr. apply Hin in Hr. destruct Hr.
    + intros (r & [] & _).
    + intros (r & Hr & _). apply Hin in Hr. destruct Hr.
  - assert (Hinside : forall r, In r ranges ->
                      exists o, In o (sweep cur rest) /\ inside r o).
    { intros r Hr. apply sweep_inside; [assumption|now apply Hin]. }
    split; [|split; [|split; [|split]]].
    + apply gapLt_fromLt; [now apply sweep_wellFormed|now apply sweep_gap].
    + now apply sweep_gap.
    + now apply sweep_wellFormed.
    + exact Hinside.
    + intros p. split.
      * intros Hc. destruct (sweep_covered rest cur p Hwfs Hc) as (r & Hr & Hp).
        exists r. split; [now apply Hin|assumption].
      * intros (r & Hr & Hp). destruct (Hinside r Hr) as (o & Ho & Hi).
        exists o. split; [assumption|]. unfold inside in Hi. lia.
Qed.

Lemma mergeRangesInPlace_correct_witness :
  let ranges := [mkRange 5 7; mkRange 1 2; mkRange 3 4; mkRange 10 12; mkRange 6 8] in
  Forall wellFormed ranges /\
  let out := mergeRangesInPlace ranges in
  StronglySorted (fun a b => from a < from b) out /\
  StronglySorted gapLt out /\
  Forall wellFormed out /\
  (forall r, In r ranges -> exists o, In o out /\ inside r o) /\
  (forall p, covered p out <-> covered p ranges).
Proof.
  cbn zeta.
  assert (H : Forall wellFormed
    [mkRange 5 7; mkRange 1 2; mkRange 3 4; mkRange 10 12; mkRange 6 8]).
  { repeat constructor; unfold wellFormed; simpl; lia. }
  split; [exact H|].
  exact (mergeRangesInPlace_correct _ H).
Defined.

End MergeRanges.

(** ** Lines and offsets of a document *)

Section TextFacts.

Lemma len_nonneg s : 0 <= Text.len s.
Proof. unfold Text.len. lia. Qed.

Lemma length_cons l x rest :
  Text.length (l :: x :: rest) = Text.len l + 1 + Text.length (x :: rest).
Proof. reflexivity. Qed.

Lemma length_nonneg d : 0 <= Text.length d.
Proof.
  induction d as [|l [|x rest] IH].
  - simpl. lia.
  - simpl. apply len_nonneg.
  - rewrite length_cons. pose proof (len_nonneg l). lia.
Qed.

Lemma length_lower l rest : Text.len l <= Text.length (l :: rest).
Proof.
  destruct rest as [|x rest]; [simpl; lia|].
  rewrite length_cons. pose proof (length_nonneg (x :: rest)). lia.
Qed.

Lemma lineGo_bounds d : forall k start num l,
  Text.lineGo d k start num = Some l ->
  Text.number l = num + Z.of_nat k /\
  start <= Text.from l /\ Text.from l <= Text.to l /\
  Text.to l <= start + Text.length d /\
  (k < List.length d)%nat.
Proof.
  induction d as [|x rest IH]; intros k start num l H; [discriminate|].
  destruct k as [|k]; cbn [Text.lineGo] in H.
  - inversion H; subst; clear H. cbn [Text.number Text.from Text.to length].
    pose proof (len_nonneg x). pose proof (length_lower x rest). lia.
  - destruct rest as [|y rest]; [discriminate|].
    apply IH in H. rewrite length_cons. cbn [length] in *.
    pose proof (len_nonneg x). lia.
Qed.

Lemma lineGo_defined d : forall k start num,
  (k < List.length d)%nat -> exists l, Text.lineGo d k start num = Some l.
Proof.
  induction d as [|x rest IH]; intros k start num Hk; cbn [length] in Hk; [lia|].
  destruct k as [|k]; cbn [Text.lineGo]; [eauto|].
  apply IH. lia.
Qed.

Lemma lineGo_last d : forall start num l,
  Text.lineGo d (List.length d - 1) start num = Some l ->
  Text.to l = start + Text.length d.
Proof.
  induction d as [|x [|y rest] IH]; intros start num l H; [discriminate| |].
  - cbn in H. inversion H; subst. reflexivity.
  - rewrite length_cons.
    replace (List.length (x :: y :: rest) - 1)%nat
      with (S (List.length (y :: rest) - 1)) in H by (cbn [length]; lia).
    cbn [Text.lineGo] in H. apply IH in H. lia.
Qed.

Lemma lineGo_increasing d : forall k k' start num l l',
  Text.lineGo d k start num = Some l ->
  Text.lineGo d k' start num = Some l' ->
  (k < k')%nat -> Text.to l < Text.from l'.
Proof.
  induction d as [|x rest IH]; intros k k' start num l l' H H' Hlt; [discriminate|].
  destruct k' as [|k']; [lia|].
  cbn [Text.lineGo] in H'.
  destruct k as [|k]; cbn [Text.lineGo] in H.
  - inversion H; subst; clear H. cbn [Text.to].
    apply lineGo_bounds in H'. lia.
  - apply (IH k k' _ _ l l' H H'). lia.
Qed.

Lemma lineAtGo_lineGo d : forall pos start num l,
  start <= pos ->
  Text.lineAtGo d pos start num = Some l ->
  Text.from l <= pos <= Text.to l /\
  exists k, Text.lineGo d k start num = Some l.
Proof.
  induction d as [|x rest IH]; intros pos start num l Hpos H; [discriminate|].
  cbn [Text.lineAtGo] in H.
  destruct (pos <=? start + Text.len x) eqn:E.
  - apply Z.leb_le in E. inversion H; subst; clear H.
    cbn [Text.from Text.to]. split; [lia|]. now exists O.
  - apply Z.leb_gt in E. apply IH in H; [|lia].
    destruct H as (Hb & k & Hk). split; [assumption|]. now exists (S k).
Qed.

Lemma lineAtGo_defined d : forall pos start num,
  d <> [] -> pos <= start + Text.length d ->
  exists l, Text.lineAtGo d pos start num = Some l.
Proof.
  induction d as [|x rest IH]; intros pos start num Hne Hpos; [contradiction|].
  cbn [Text.lineAtGo].
  destruct (pos <=? start + Text.len x) eqn:E; [eauto|].
  apply Z.leb_gt in E.
  destruct rest as [|y rest]; [cbn in Hpos; lia|].
  apply IH; [discriminate|]. rewrite length_cons in Hpos. lia.
Qed.

Lemma lineGo_lineAtGo d : forall k start num l pos,
  Text.lineGo d k start num = Some l ->
  Text.from l <= pos <= Text.to l ->
  Text.lineAtGo d pos start num = Some l.
Proof.
  induction d as [|x rest IH]; intros k start num l pos H Hpos; [discriminate|].
  cbn [Text.lineAtGo].
  destruct k as [|k]; cbn [Text.lineGo] in H.
  - inversion H; subst; clear H. cbn [Text.from Text.to] in Hpos.
    destruct (pos <=? start + Text.len x) eqn:E; [reflexivity|].
    apply Z.leb_gt in E. lia.
  - pose proof (lineGo_bounds _ _ _ _ _ H) as Hb.
    destruct (pos <=? start + Text.len x) eqn:E.
    + apply Z.leb_le in E. lia.
    + now apply (IH k).
Qed.

Lemma line_inv d n l :
  Text.line d n = Some l ->
  1 <= n <= Text.lines d /\ Text.number l = n /\
  0 <= Text.from l /\ Text.from l <= Text.to l /\ Text.to l <= Text.length d /\
  Text.lineGo d (Z.to_nat (n - 1)) 0 1 = Some l.
Proof.
  unfold Text.line. intros H.
  destruct ((n <? 1) || (Text.lines d <? n)) eqn:E; [discriminate|].
  apply orb_false_iff in E. destruct E as [E1 E2].
  apply Z.ltb_ge in E1. apply Z.ltb_ge in E2.
  pose proof (lineGo_bounds _ _ _ _ _ H). intuition lia.
Qed.

Lemma line_defined d n :
  1 <= n <= Text.lines d -> exists l, Text.line d n = Some l.
Proof.
  intros Hn. unfold Text.line.
  destruct ((n <? 1) || (Text.lines d <? n)) eqn:E.
  - apply orb_true_iff in E. destruct E as [E|E]; apply Z.ltb_lt in E; lia.
  - apply lineGo_defined. unfold Text.lines in Hn. lia.
Qed.

Lemma lineAt_inv d pos l :
  Text.lineAt d pos = Some l ->
  Text.line d (Text.number l) = Some l /\ Text.from l <= pos <= Text.to l.
Proof.
  unfold Text.lineAt. intros H.
  destruct ((pos <? 0) || (Text.length d <? pos)) eqn:E; [discriminate|].
  apply orb_false_iff in E. destruct E as [E1 E2].
  apply Z.ltb_ge in E1. apply Z.ltb_ge in E2.
  apply lineAtGo_lineGo in H; [|lia]. destruct H as (Hb & k & Hk).
  split; [|exact Hb].
  pose proof (lineGo_bounds _ _ _ _ _ Hk) as (Hnum & _ & _ & _ & Hlt).
  unfold Text.line, Text.lines.
  destruct ((Text.number l <? 1) || (Z.of_nat (List.length d) <? Text.number l)) eqn:E.
  - apply orb_true_iff in E. destruct E as [E|E]; apply Z.ltb_lt in E; lia.
  - replace (Z.to_nat (Text.number l - 1)) with k by lia. exact Hk.
Qed.

Lemma lineAt_defined d pos :
  d <> [] -> 0 <= pos <= Text.length d -> exists l, Text.lineAt d pos = Some l.
Proof.
  intros Hne Hpos. unfold Text.lineAt.
  destruct ((pos <? 0) || (Text.length d <? pos)) eqn:E.
  - apply orb_true_iff in E. destruct E as [E|E]; apply Z.ltb_lt in E; lia.
  - apply lineAtGo_defined; [assumption|lia].
Qed.

Lemma line_lineAt d n l pos :
  Text.line d n = Some l -> Text.from l <= pos <= Text.to l ->
  Text.lineAt d pos = Some l.
Proof.
  intros H Hpos. apply line_inv in H.
  destruct H as (_ & _ & H0 & _ & Hlen & Hgo).
  unfold Text.lineAt.
  destruct ((pos <? 0) || (Text.length d <? pos)) eqn:E.
  - apply orb_true_iff in E. destruct E as [E|E]; apply Z.ltb_lt in E; lia.
  - now apply (lineGo_lineAtGo d (Z.to_nat (n - 1))).
Qed.

Lemma line_increasing d n m l l' :
  Text.line d n = Some l -> Text.line d m = Some l' -> n < m ->
  Text.to l < Text.from l'.
Proof.
  intros H H' Hlt. apply line_inv in H. apply line_inv in H'.
  destruct H as (Hn & _ & _ & _ & _ & Hgo).
  destruct H' as (Hm & _ & _ & _ & _ & Hgo').
  apply (lineGo_increasing d _ _ _ _ _ _ Hgo Hgo'). lia.
Qed.

Lemma line_first d l : Text.line d 1 = Some l -> Text.from l = 0.
Proof.
  intros H. apply line_inv in H. destruct H as (_ & _ & _ & _ & _ & Hgo).
  cbn in Hgo. destruct d; [discriminate|]. cbn in Hgo. now inversion Hgo.
Qed.

Lemma line_last d l :
  Text.line d (Text.lines d) = Some l -> Text.to l = Text.length d.
Proof.
  intros H. apply line_inv in H. destruct H as (_ & _ & _ & _ & _ & Hgo).
  replace (Z.to_nat (Text.lines d - 1)) with (List.length d - 1)%nat in Hgo
    by (unfold Text.lines; lia).
  apply lineGo_last in Hgo. lia.
Qed.

Lemma line_from_zero d n l :
  Text.line d n = Some l -> Text.from l = 0 -> n = 1.
Proof.
  intros H H0. pose proof (line_inv _ _ _ H) as (Hn & _).
  destruct (Z.eq_dec n 1) as [|Hne]; [assumption|exfalso].
  destruct (line_defined d 1) as (l1 & Hl1); [lia|].
  pose proof (line_increasing d 1 n l1 l Hl1 H ltac:(lia)).
  apply line_inv in Hl1. lia.
Qed.

Lemma line_to_length d n l :
  Text.line d n = Some l -> Text.to l = Text.length d -> n = Text.lines d.
Proof.
  intros H H0. pose proof (line_inv _ _ _ H) as (Hn & _).
  destruct (Z.eq_dec n (Text.lines d)) as [|Hne]; [assumption|exfalso].
  destruct (line_defined d (Text.lines d)) as (l1 & Hl1); [lia|].
  pose proof (line_increasing d n (Text.lines d) l l1 H Hl1 ltac:(lia)).
  apply line_inv in Hl1. lia.
Qed.

End TextFacts.

(** ** The block expansion *)

Section BlockExpansion.

Variable d : Text.Doc.

Lemma blankLine_defined n :
  1 <= n <= Text.lines d -> exists b, blankLine d n = Some b.
Proof.
  intros Hn. unfold blankLine.
  destruct (line_defined d n Hn) as (l & ->). eauto.
Qed.

Lemma allLines_empty a b v : b <= a -> allLines d a b v.
Proof. intros H i Hi. lia. Qed.

Lemma allLines_below a b v :
  blankLine d (a - 1) = Some v -> allLines d a b v -> allLines d (a - 1) b v.
Proof.
  intros H Hall i Hi. destruct (Z.eq_dec i (a - 1)) as [->|]; [assumption|].
  apply Hall. lia.
Qed.

Lemma allLines_above a b v :
  blankLine d b = Some v -> allLines d a b v -> allLines d a (b + 1) v.
Proof.
  intros H Hall i Hi. destruct (Z.eq_dec i b) as [->|]; [assumption|].
  apply Hall. lia.
Qed.

Lemma walkUp_spec s : forall fuel f cb pb,
  1 <= f -> s <= Text.lines d ->
  (Z.to_nat f <= fuel)%nat ->
  upInv d s f cb pb ->
  exists r, walkUp fuel d f cb pb = Some r /\ upperStop d s r.
Proof.
  induction fuel as [|fuel IH]; intros f cb pb Hf Hs Hfuel Hinv.
  - lia.
  - cbn [walkUp]. destruct (1 <? f) eqn:E.
    + apply Z.ltb_lt in E.
      destruct Hinv as (k & m & Hk & Hm & A1 & A2 & A3 & Hst).
      destruct (blankLine_defined (f - 1)) as ([|] & Hb); [lia| |]; rewrite Hb.
      * (* a blank line above *)
        destruct pb.
        -- destruct cb; [contradiction|].
           exists f. split; [reflexivity|].
           split; [lia|]. exists k, m. intuition.
        -- apply IH; [lia|lia|lia|].
           exists (f - 1), m.
           assert (Hfk : f = k) by (destruct cb; lia).
           split; [lia|]. split; [lia|].
           split; [apply allLines_empty; lia|].
           split; [apply allLines_below; [assumption|now subst k]|].
           split; [assumption|]. lia.
      * (* text above *)
        destruct cb; cbn [negb].
        -- destruct pb; [contradiction|].
           apply IH; [lia|lia|lia|].
           exists (f - 1), (f - 1).
           split; [lia|]. split; [lia|].
           split; [apply allLines_empty; lia|].
           split; [apply allLines_empty; lia|].
           split; [|reflexivity].
           apply allLines_below; [assumption|]. now subst m.
        -- apply IH; [lia|lia|lia|].
           exists k, m.
           split; [destruct pb; lia|]. split; [lia|].
           split; [now apply allLines_below|].
           split; [assumption|]. split; [assumption|].
           destruct pb; lia.
    + apply Z.ltb_ge in E. exists f. split; [reflexivity|].
      destruct Hinv as (k & m & Hk & Hm & A1 & A2 & A3 & Hst).
      split; [lia|]. exists k, m. intuition lia.
Qed.

Lemma walkDown_spec s : forall fuel t cb nb,
  1 <= s -> t <= Text.lines d ->
  (Z.to_nat (Text.lines d - t) <= fuel)%nat ->
  downInv d s t cb nb ->
  exists r, walkDown fuel d (Text.lines d) t cb nb = Some r /\ lowerStop d s r.
Proof.
  induction fuel as [|fuel IH]; intros t cb nb Hs Ht Hfuel Hinv;
    destruct Hinv as (m & k & Hm & Hk & A1 & A2 & A3 & Hst).
  - cbn [walkDown]. destruct (t <? Text.lines d) eqn:E.
    + apply Z.ltb_lt in E. lia.
    + apply Z.ltb_ge in E. exists t. split; [reflexivity|].
      split; [lia|]. exists m, k. intuition lia.
  - cbn [walkDown]. destruct (t <? Text.lines d) eqn:E.
    + apply Z.ltb_lt in E.
      destruct (blankLine_defined (t + 1)) as ([|] & Hb); [lia| |]; rewrite Hb.
      * destruct nb.
        -- destruct cb; [contradiction|].
           exists t. split; [reflexivity|].
           split; [lia|]. exists m, k. intuition.
        -- apply IH; [lia|lia|lia|].
           exists m, (t + 1).
           assert (Htk : t = k) by (destruct cb; lia).
           split; [lia|]. split; [lia|].
           split; [assumption|].
           split; [apply allLines_above; [assumption|now subst k]|].
           split; [apply allLines_empty; lia|]. lia.
      * destruct cb; cbn [negb].
        -- destruct nb; [contradiction|].
           apply IH; [lia|lia|lia|].
           exists (t + 1), (t + 1).
           split; [lia|]. split; [lia|].
           split; [apply allLines_above; [assumption|now subst m]|].
           split; [apply allLines_empty; lia|].
           split; [apply allLines_empty; lia|reflexivity].
        -- apply IH; [lia|lia|lia|].
           exists m, k.
           split; [lia|]. split; [destruct nb; lia|].
           split; [assumption|]. split; [assumption|].
           split; [now apply allLines_above|].
           destruct nb; lia.
    + apply Z.ltb_ge in E. exists t. split; [reflexivity|].
      split; [lia|]. exists m, k. intuition lia.
Qed.

(** The loops never run out of steps: more fuel gives the same outcome, so
    [None] always stands for an error of [doc.line]. *)
Lemma walkUp_fuel : forall fuel1 fuel2 f cb pb,
  (Z.to_nat f <= fuel1)%nat -> (Z.to_nat f <= fuel2)%nat ->
  walkUp fuel1 d f cb pb = walkUp fuel2 d f cb pb.
Proof.
  induction fuel1 as [|fuel1 IH]; intros fuel2 f cb pb H1 H2.
  - destruct fuel2; cbn [walkUp]; destruct (1 <? f) eqn:E; try reflexivity;
      apply Z.ltb_lt in E; lia.
  - destruct fuel2 as [|fuel2]; cbn [walkUp]; destruct (1 <? f) eqn:E;
      try reflexivity; apply Z.ltb_lt in E; [lia|].
    destruct (blankLine d (f - 1)) as [[|]|]; [| |reflexivity].
    + destruct pb; [reflexivity|]. apply IH; lia.
    + destruct (negb cb); apply IH; lia.
Qed.

Lemma walkDown_fuel total : forall fuel1 fuel2 t cb nb,
  (Z.to_nat (total - t) <= fuel1)%nat -> (Z.to_nat (total - t) <= fuel2)%nat ->
  walkDown fuel1 d total t cb nb = walkDown fuel2 d total t cb nb.
Proof.
  induction fuel1 as [|fuel1 IH]; intros fuel2 t cb nb H1 H2.
  - destruct fuel2; cbn [walkDown]; destruct (t <? total) eqn:E; try reflexivity;
      apply Z.ltb_lt in E; lia.
  - destruct fuel2 as [|fuel2]; cbn [walkDown]; destruct (t <? total) eqn:E;
      try reflexivity; apply Z.ltb_lt in E; [lia|].
    destruct (blankLine d (t + 1)) as [[|]|]; [| |reflexivity].
    + destruct nb; [reflexivity|]. apply IH; lia.
    + destruct (negb cb); apply IH; lia.
Qed.

Lemma upperStop_moves s f : upperStop d s f -> f = 1 \/ f < s.
Proof.
  intros (Hf & k & m & Hk & Hm & _ & _ & _ & [->|Hfull]); [now left|right; lia].
Qed.

Lemma lowerStop_moves s t : lowerStop d s t -> t = Text.lines d \/ s < t.
Proof.
  intros (Ht & m & k & Hm & Hk & _ & _ & _ & [->|Hfull]); [now left|right; lia].
Qed.

(** The expansion on valid input: the two lines it ends on, and its result. *)
Lemma expansion_lines from to context :
  d <> [] -> 0 <= context -> 0 <= from -> from <= to -> to <= Text.length d ->
  exists lf lt fromLine toLine l1 l2,
    Text.lineAt d from = Some lf /\ Text.lineAt d to = Some lt /\
    upperStop d (Z.max 1 (Text.number lf - context)) fromLine /\
    lowerStop d (Z.min (Text.lines d) (Text.number lt + context)) toLine /\
    Text.line d fromLine = Some l1 /\ Text.line d toLine = Some l2 /\
    getSurroundingLinePosition d from to context
      = Some (mkRange (Text.from l1) (Text.to l2)) /\
    Text.from l1 <= from /\ to <= Text.to l2.
Proof.
  intros Hne Hctx H0 Hft Hlen.
  destruct (lineAt_defined d from Hne) as (lf & Hlf); [lia|].
  destruct (lineAt_defined d to Hne) as (lt & Hlt); [lia|].
  pose proof (lineAt_inv _ _ _ Hlf) as (Hlinef & Hposf).
  pose proof (lineAt_inv _ _ _ Hlt) as (Hlinet & Hpost).
  pose proof (line_inv _ _ _ Hlinef) as (Hnf & _).
  pose proof (line_inv _ _ _ Hlinet) as (Hnt & _).
  set (s := Z.max 1 (Text.number lf - context)).
  set (e := Z.min (Text.lines d) (Text.number lt + context)).
  destruct (walkUp_spec s (Z.to_nat s) s true false) as (fromLine & Hup & Hus);
    [lia|lia|lia| |].
  { exists s, s. repeat split; try lia; apply allLines_empty; lia. }
  destruct (walkDown_spec e (Z.to_nat (Text.lines d - e)) e true false)
    as (toLine & Hdown & Hds); [lia|lia|lia| |].
  { exists e, e. repeat split; try lia; apply allLines_empty; lia. }
  pose proof Hus as (Hfb & _). pose proof Hds as (Htb & _).
  destruct (line_defined d fromLine) as (l1 & Hl1); [lia|].
  destruct (line_defined d toLine) as (l2 & Hl2); [lia|].
  exists lf, lt, fromLine, toLine, l1, l2.
  repeat (split; [assumption|]).
  split.
  - unfold getSurroundingLinePosition. rewrite Hlf, Hlt.
    fold s. fold e. rewrite Hup, Hdown, Hl1, Hl2. reflexivity.
  - split.
    + destruct (Z.eq_dec fromLine (Text.number lf)) as [Heq|Hneq].
      * rewrite Heq in Hl1. rewrite Hlinef in Hl1. inversion Hl1; subst. lia.
      * pose proof (line_increasing d _ _ _ _ Hl1 Hlinef ltac:(lia)).
        apply line_inv in Hl1. lia.
    + destruct (Z.eq_dec toLine (Text.number lt)) as [Heq|Hneq].
      * rewrite Heq in Hl2. rewrite Hlinet in Hl2. inversion Hl2; subst. lia.
      * pose proof (line_increasing d _ _ _ _ Hlinet Hl2 ltac:(lia)).
        apply line_inv in Hl2. lia.
Qed.

End BlockExpansion.

Section BlockExpansionClaims.

Open Scope string_scope.

Example expansion_context_0 :
  getSurroundingLinePosition fourBlocks 9 9 0 = Some (mkRange 6 10).
Proof. reflexivity. Qed.

Example expansion_context_1 :
  getSurroundingLinePosition fourBlocks 9 9 1 = Some (mkRange 3 10).
Proof. reflexivity. Qed.

(** C6, as the claim states it, fails.  In the seven-line buffer with the
    change in the last line and [context = 1], the lines 5 to 7 contain the
    change and one further block above it, but the code returns the lines 3
    to 7 (offsets 3 to 10), which includes two further blocks: the result is
    not the smallest qualifying run. *)
Lemma getSurroundingLinePosition_not_smallest :
  getSurroundingLinePosition fourBlocks 9 9 1 = Some (mkRange 3 10) /\
  specQualifies fourBlocks 9 9 1 5 7 = true /\
  ~ specSmallestExpansion fourBlocks 9 9 1 (mkRange 3 10).
Proof.
  split; [reflexivity|]. split; [reflexivity|].
  intros (a & b & la & lb & Ha & Hb & Hr & Hq & Hmin).
  destruct (Hmin 5 7 eq_refl) as (Ha5 & _).
  pose proof (line_inv _ _ _ Ha) as (Hrange & _).
  change (Text.lines fourBlocks) with 7 in Hrange.
  inversion Hr as [[Hfrom Hto]].
  assert (Hcases : a = 5 \/ a = 6 \/ a = 7) by lia.
  destruct Hcases as [->|[->| ->]]; vm_compute in Ha; inversion Ha; subst;
    discriminate.
Qed.

(** C6, amended.  On a non-empty buffer, for [0 <= context] and a range
    [0 <= from <= to <= length], the expansion never fails and returns the
    offsets from the start of a line [fromLine] to the end of a line
    [toLine], a run of whole lines that contains the changed range.
    [context] counts lines, not blocks: the walk up starts [context] lines
    above the line of [from] (at line 1 at the least), goes over the
    non-blank lines directly above, the blank lines above these and one
    further block, and stops at the first line of that block, below a blank
    line, or at line 1 when the buffer ends before; the walk down from the
    line of [to] is symmetric and stops at the last line of one further
    block or at the last line of the buffer. *)
Theorem getSurroundingLinePosition_lines (d : Text.Doc) (from to context : Z)
  (Hne : d <> []) (Hctx : 0 <= context)
  (Hrange : 0 <= from /\ from <= to /\ to <= Text.length d) :
  exists lf lt fromLine toLine l1 l2,
    Text.lineAt d from = Some lf /\ Text.lineAt d to = Some lt /\
    upperStop d (Z.max 1 (Text.number lf - context)) fromLine /\
    lowerStop d (Z.min (Text.lines d) (Text.number lt + context)) toLine /\
    Text.line d fromLine = Some l1 /\ Text.line d toLine = Some l2 /\
    getSurroundingLinePosition d from to context
      = Some (mkRange (Text.from l1) (Text.to l2)) /\
    Text.from l1 <= from /\ to <= Text.to l2.
Proof.
  destruct Hrange as (H0 & Hft & Hlen).
  now apply expansion_lines.
Qed.

Lemma getSurroundingLinePosition_lines_witness :
  (fourBlocks <> [] /\ 0 <= 1 /\ (0 <= 9 /\ 9 <= 9 /\ 9 <= Text.length fourBlocks)) /\
  exists lf lt fromLine toLine l1 l2,
    Text.lineAt fourBlocks 9 = Some lf /\ Text.lineAt fourBlocks 9 = Some lt /\
    upperStop fourBlocks (Z.max 1 (Text.number lf - 1)) fromLine /\
    lowerStop fourBlocks (Z.min (Text.lines fourBlocks) (Text.number lt + 1)) toLine /\
    Text.line fourBlocks fromLine = Some l1 /\ Text.line fourBlocks toLine = Some l2 /\
    getSurroundingLinePosition fourBlocks 9 9 1
      = Some (mkRange (Text.from l1) (Text.to l2)) /\
    Text.from l1 <= 9 /\ 9 <= Text.to l2.
Proof.
  assert (Hne : fourBlocks <> []) by discriminate.
  assert (Hctx : 0 <= 1) by lia.
  assert (Hrange : 0 <= 9 /\ 9 <= 9 /\ 9 <= Text.length fourBlocks)
    by (vm_compute; intuition discriminate).
  split; [auto|].
  exact (getSurroundingLinePosition_lines fourBlocks 9 9 1 Hne Hctx Hrange).
Defined.

(** C7, as the claim states it, fails.  In the five-line buffer, expanding
    the last line with [context = 0] gives the offsets 3 to 7 (lines 3 to 5);
    expanding that result again gives the offsets 0 to 7 (lines 1 to 5). *)
Lemma getSurroundingLinePosition_not_idempotent :
  getSurroundingLinePosition threeBlocks 6 6 0 = Some (mkRange 3 7) /\
  getSurroundingLinePosition threeBlocks 3 7 0 = Some (mkRange 0 7) /\
  mkRange 0 7 <> mkRange 3 7.
Proof. repeat split; try reflexivity. discriminate. Qed.

(** C7, amended.  Expanding the result [r1] of a block expansion again, with
    the same non-negative [context], never fails and returns a range [r2]
    that contains [r1]; [r2] is [r1] exactly when [r1] already spans the
    whole buffer (from offset 0 to the buffer length).  In every other case
    the second expansion is strictly larger. *)
Theorem getSurroundingLinePosition_again (d : Text.Doc) (from0 to0 context : Z)
  (r1 : Range) (Hne : d <> []) (Hctx : 0 <= context)
  (Hrange : 0 <= from0 /\ from0 <= to0 /\ to0 <= Text.length d)
  (Hfirst : getSurroundingLinePosition d from0 to0 context = Some r1) :
  exists r2,
    getSurroundingLinePosition d (from r1) (to r1) context = Some r2 /\
    from r2 <= from r1 /\ to r1 <= to r2 /\
    (r2 = r1 <-> from r1 = 0 /\ to r1 = Text.length d).
Proof.
  destruct Hrange as (H0 & Hft & Hlen).
  destruct (expansion_lines d from0 to0 context Hne Hctx H0 Hft Hlen)
    as (lf & lt & f1 & t1 & l1 & l2 & Hlf & Hlt & Hup1 & Hdown1 & Hl1 & Hl2 & Hres & Hc1 & Hc2).
  rewrite Hres in Hfirst. inversion Hfirst; subst r1; clear Hfirst.
  cbn [from to].
  pose proof (line_inv _ _ _ Hl1) as (Hf1 & Hn1 & Hl1a & Hl1b & Hl1c & _).
  pose proof (line_inv _ _ _ Hl2) as (Ht1 & Hn2 & Hl2a & Hl2b & Hl2c & _).
  destruct (expansion_lines d (Text.from l1) (Text.to l2) context Hne Hctx)
    as (lf' & lt' & f2 & t2 & l1' & l2' & Hlf' & Hlt' & Hup2 & Hdown2 & Hl1' & Hl2'
        & Hres' & Hc1' & Hc2'); [lia|lia|lia|].
  rewrite (line_lineAt d f1 l1 (Text.from l1) Hl1 ltac:(lia)) in Hlf'.
  rewrite (line_lineAt d t1 l2 (Text.to l2) Hl2 ltac:(lia)) in Hlt'.
  inversion Hlf'; subst lf'. inversion Hlt'; subst lt'. clear Hlf' Hlt'.
  rewrite Hn1 in Hup2. rewrite Hn2 in Hdown2.
  exists (mkRange (Text.from l1') (Text.to l2')).
  split; [exact Hres'|]. cbn [from to].
  split; [exact Hc1'|]. split; [exact Hc2'|].
  pose proof (upperStop_moves d _ _ Hup2) as Hmove_up.
  pose proof (lowerStop_moves d _ _ Hdown2) as Hmove_down.
  pose proof Hup2 as (Hf2 & _). pose proof Hdown2 as (Ht2 & _).
  split.
  - intros Heq. inversion Heq as [[Hfrom Hto]].
    assert (Hff : f2 = f1).
    { destruct (Z.eq_dec f2 f1) as [|Hneq]; [assumption|exfalso].
      pose proof (line_increasing d f2 f1 l1' l1 Hl1' Hl1 ltac:(lia)).
      apply line_inv in Hl1'. lia. }
    assert (Htt : t2 = t1).
    { destruct (Z.eq_dec t2 t1) as [|Hneq]; [assumption|exfalso].
      pose proof (line_increasing d t1 t2 l2 l2' Hl2 Hl2' ltac:(lia)).
      apply line_inv in Hl2'. lia. }
    assert (Hf1one : f1 = 1) by lia.
    assert (Ht1last : t1 = Text.lines d) by lia.
    rewrite Hf1one in Hl1. rewrite Ht1last in Hl2.
    pose proof (line_first d l1 Hl1). pose proof (line_last d l2 Hl2). lia.
  - intros (Hz & Hl).
    assert (f1 = 1) by (now apply (line_from_zero d f1 l1)).
    assert (t1 = Text.lines d) by (now apply (line_to_length d t1 l2)).
    assert (Hff : f2 = f1) by lia. assert (Htt : t2 = t1) by lia.
    rewrite Hff, Hl1 in Hl1'. rewrite Htt, Hl2 in Hl2'.
    inversion Hl1'; inversion Hl2'; reflexivity.
Qed.

Lemma getSurroundingLinePosition_again_witness :
  (threeBlocks <> [] /\ 0 <= 0 /\
   (0 <= 6 /\ 6 <= 6 /\ 6 <= Text.length threeBlocks) /\
   getSurroundingLinePosition threeBlocks 6 6 0 = Some (mkRange 3 7)) /\
  exists r2,
    getSurroundingLinePosition threeBlocks 3 7 0 = Some r2 /\
    from r2 <= 3 /\ 7 <= to r2 /\
    (r2 = mkRange 3 7 <-> 3 = 0 /\ 7 = Text.length threeBlocks).
Proof.
  assert (Hne : threeBlocks <> []) by discriminate.
  assert (Hctx : 0 <= 0) by lia.
  assert (Hrange : 0 <= 6 /\ 6 <= 6 /\ 6 <= Text.length threeBlocks)
    by (vm_compute; intuition discriminate).
  assert (Hfirst : getSurroundingLinePosition threeBlocks 6 6 0 = Some (mkRange 3 7))
    by reflexivity.
  split; [auto|].
  exact (getSurroundingLinePosition_again threeBlocks 6 6 0 (mkRange 3 7)
           Hne Hctx Hrange Hfirst).
Defined.

End BlockExpansionClaims.

(** ** The place translation of the style linter *)

Section PlaceToOffset.

Lemma placeToOffset_position source start end_ s e :
  placeToOffset start source = Some s ->
  placeToOffset end_ source = Some e ->
  placeToOffset (Unist.APosition start end_) source = Some (mkRange (from s) (to e)).
Proof. intros Hs He. cbn [placeToOffset]. now rewrite Hs, He. Qed.

(** In a start/end pair each end is translated on its own: a [null] field in
    the start point only sets [from] to 0. *)
Example placeToOffset_position_null_start :
  placeToOffset
    (Unist.APosition (Unist.APoint (Unist.mkPoint None None))
                     (Unist.APoint (Unist.mkPoint (Some 1) (Some 3))))
    ["abcdef"%string]
  = Some (mkRange 0 2).
Proof. reflexivity. Qed.

Lemma placeToOffset_noPosition source place :
  noPosition place = true -> placeToOffset place source = Some (mkRange 0 0).
Proof.
  induction place as [|[l c]|start IHs end_ IHe]; cbn [noPosition placeToOffset].
  - reflexivity.
  - cbn. destruct c, l; (discriminate || reflexivity).
  - intros H. apply andb_true_iff in H. destruct H as [Hs He].
    now rewrite (IHs Hs), (IHe He).
Qed.

Lemma placeToOffset_raises source place :
  placeToOffset place source = None <-> linesInside source place = false.
Proof.
  induction place as [|[line column]|start IHs end_ IHe];
    cbn [placeToOffset linesInside Unist.line Unist.column].
  - split; discriminate.
  - destruct column as [column|]; [|split; discriminate].
    destruct line as [line|]; [|split; discriminate].
    unfold Text.line.
    replace ((1 <=? line) && (line <=? Text.lines source))
      with (negb ((line <? 1) || (Text.lines source <? line)))
      by (rewrite negb_orb, !Z.ltb_antisym, !negb_involutive; reflexivity).
    destruct ((line <? 1) || (Text.lines source <? line)) eqn:E; cbn [negb].
    + split; reflexivity.
    + apply orb_false_iff in E. destruct E as [E1 E2].
      apply Z.ltb_ge in E1. apply Z.ltb_ge in E2.
      destruct (Text.lineGo source (Z.to_nat (line - 1)) 0 1) eqn:Ego.
      * split; discriminate.
      * exfalso. destruct (lineGo_defined source (Z.to_nat (line - 1)) 0 1) as (l & Hl);
          [unfold Text.lines in E2; lia|congruence].
  - rewrite andb_false_iff, <- IHs, <- IHe.
    destruct (placeToOffset start source); [|split; auto].
    destruct (placeToOffset end_ source); split; auto.
    + discriminate.
    + intros [H|H]; discriminate.
Qed.

Lemma placeToOffset_offsets source place r :
  placeToOffset place source = Some r ->
  from r = startOffset source place /\ to r = endOffset source place.
Proof.
  revert r.
  induction place as [|[line column]|start IHs end_ IHe]; intros r;
    cbn [placeToOffset startOffset endOffset]; unfold pointOffset;
    cbn [Unist.line Unist.column].
  - intros H. inversion H. split; reflexivity.
  - destruct column as [column|]; [|intros H; inversion H; split; reflexivity].
    destruct line as [line|]; [|intros H; inversion H; split; reflexivity].
    destruct (Text.line source line); [|discriminate].
    intros H. inversion H. split; reflexivity.
  - destruct (placeToOffset start source) as [s|]; [|discriminate].
    destruct (placeToOffset end_ source) as [e|]; [|discriminate].
    intros H. inversion H. cbn [from to].
    split; [apply (IHs s eq_refl)|apply (IHe e eq_refl)].
Qed.

(** The places of the claim that are not translated to the empty range at
    offset 0: a pair whose start has no line and column keeps the offset of
    its end, and it raises when that end names a line outside the
    document. *)
Lemma placeToOffset_null_field_not_zero :
  hasNullField (openStart 1 3) = true /\
  placeToOffset (openStart 1 3) ["abcdef"%string] = Some (mkRange 0 2) /\
  placeToOffset (openStart 1 3) ["abcdef"%string] <> Some (mkRange 0 0) /\
  hasNullField (openStart 5 1) = true /\
  placeToOffset (openStart 5 1) ["abcdef"%string] = None.
Proof. repeat split. discriminate. Qed.

(** C9 (amended).  The translation raises exactly when a point of the place
    that has a line and a column names a line outside the document;
    otherwise it returns the offset of the start of the place for [from] and
    the offset of its end for [to], where a point with a line and a column
    has the offset of the start of its line plus [column - 1] and an absent
    place or a point with a [null] line or column has the offset 0.  So an
    absent place, a point with a [null] field and a pair of such places give
    the zero-length range at 0 without error; a point with a line of the
    document gives its offset for both [from] and [to]; and in a start/end
    pair each end is translated on its own: a pair with only one unusable end
    keeps the offset of the other end. *)
Theorem placeToOffset_correct (source : Text.Doc) (place : Unist.Place) :
  (placeToOffset place source = None <-> linesInside source place = false) /\
  (linesInside source place = true ->
   placeToOffset place source
   = Some (mkRange (startOffset source place) (endOffset source place))) /\
  (noPosition place = true -> placeToOffset place source = Some (mkRange 0 0)) /\
  (forall line column, 1 <= line <= Text.lines source ->
     exists l, Text.line source line = Some l /\
       placeToOffset (Unist.APoint (Unist.mkPoint (Some line) (Some column))) source
       = Some (mkRange (Text.from l + column - 1) (Text.from l + column - 1))) /\
  (forall line column, 1 <= line <= Text.lines source -> noPosition place = true ->
     exists l, Text.line source line = Some l /\
       placeToOffset
         (Unist.APosition place
            (Unist.APoint (Unist.mkPoint (Some line) (Some column)))) source
       = Some (mkRange 0 (Text.from l + column - 1)) /\
       placeToOffset
         (Unist.APosition
            (Unist.APoint (Unist.mkPoint (Some line) (Some column))) place) source
       = Some (mkRange (Text.from l + column - 1) 0)) /\
  (forall line column, ~ 1 <= line <= Text.lines source ->
     placeToOffset (Unist.APoint (Unist.mkPoint (Some line) (Some column))) source
     = None /\
     placeToOffset
       (Unist.APosition place
          (Unist.APoint (Unist.mkPoint (Some line) (Some column)))) source
     = None).
Proof.
  split; [apply placeToOffset_raises|].
  split.
  { intros Hin. destruct (placeToOffset place source) as [r|] eqn:E.
    - destruct (placeToOffset_offsets source place r E) as (H1 & H2).
      destruct r as [f t]. cbn [from to] in H1, H2. now subst.
    - apply placeToOffset_raises in E. congruence. }
  split; [apply placeToOffset_noPosition|].
  split.
  { intros line column Hline. destruct (line_defined source line Hline) as (l & Hl).
    exists l. split; [assumption|]. cbn. now rewrite Hl. }
  split.
  { intros line column Hline Hnull.
    destruct (line_defined source line Hline) as (l & Hl).
    exists l. split; [assumption|].
    cbn [placeToOffset Unist.line Unist.column].
    rewrite (placeToOffset_noPosition source place Hnull), Hl. split; reflexivity. }
  intros line column Hline.
  assert (H : placeToOffset (Unist.APoint (Unist.mkPoint (Some line) (Some column)))
                            source = None).
  { apply placeToOffset_raises. cbn.
    destruct (Z.leb_spec 1 line); [|reflexivity].
    destruct (Z.leb_spec line (Text.lines source)); [lia|reflexivity]. }
  split; [exact H|].
  cbn [placeToOffset] in *. destruct (placeToOffset place source); [|reflexivity].
  now rewrite H.
Qed.

Example placeToOffset_absent source :
  placeToOffset Unist.Undefined source = Some (mkRange 0 0).
Proof. reflexivity. Qed.

Example placeToOffset_null_pair source :
  placeToOffset
    (Unist.APosition (Unist.APoint (Unist.mkPoint None None))
                     (Unist.APoint (Unist.mkPoint None None))) source
  = Some (mkRange 0 0).
Proof. reflexivity. Qed.

Example placeToOffset_point :
  placeToOffset (Unist.APoint (Unist.mkPoint (Some 2) (Some 3)))
                ["first"%string; "second"%string]
  = Some (mkRange 8 8).
Proof. reflexivity. Qed.

End PlaceToOffset.

(** ** The numbering of the table of contents *)

Section TocNumbering.

Lemma generateTocFrom_nth pre : forall c e post,
  nth_error (generateTocFrom c (pre ++ e :: post)) (length pre)
  = Some (snd (tocStep (countersAfter c pre) e)).
Proof.
  induction pre as [|x pre IH]; intros c e post.
  - cbn [app length generateTocFrom countersAfter fold_left nth_error].
    now destruct (tocStep c e).
  - cbn [app length generateTocFrom nth_error].
    destruct (tocStep c x) as [c' x'] eqn:E.
    cbn [nth_error]. rewrite IH.
    unfold countersAfter. cbn [fold_left]. now rewrite E.
Qed.

Lemma generateTocFrom_length l : forall c,
  length (generateTocFrom c l) = length l.
Proof.
  induction l as [|x l IH]; intros c; [reflexivity|].
  cbn [generateTocFrom]. destruct (tocStep c x). cbn [length]. now rewrite IH.
Qed.

Ltac level_cases H :=
  match type of H with
  | 1 <= ?l <= 6 =>
    let C := fresh in
    assert (C : l = 1 \/ l = 2 \/ l = 3 \/ l = 4 \/ l = 5 \/ l = 6) by lia;
    destruct C as [C|[C|[C|[C|[C|C]]]]]
  end.

Lemma tocStep_counters c e :
  1 <= Toc.level e <= 6 ->
  let c' := fst (tocStep c e) in
  Toc.counter (Toc.level e) c' = Toc.counter (Toc.level e) c + 1 /\
  (forall j, 1 <= j < Toc.level e -> Toc.counter j c' = Toc.counter j c) /\
  (forall j, Toc.level e < j <= 6 -> Toc.counter j c' = 0) /\
  snd (tocStep c e)
  = Toc.withRenderedLevel e
      (joinDot (map (fun j => Toc.counter j c') (levelsUpTo (Toc.level e)))).
Proof.
  intros Hl. destruct c as [h1 h2 h3 h4 h5 h6].
  unfold tocStep. level_cases Hl; rewrite H; cbn -[Z.add joinDot];
    (split; [reflexivity|]);
    (split; [intros j Hj;
             assert (Hc : 1 <= j <= 6) by lia; level_cases Hc;
             subst j; try lia; reflexivity|]);
    (split; [intros j Hj;
             assert (Hc : 1 <= j <= 6) by lia; level_cases Hc;
             subst j; try lia; reflexivity|reflexivity]).
Qed.

Lemma tocStep_other_level c e :
  ~ (1 <= Toc.level e <= 6) -> tocStep c e = (c, e).
Proof.
  intros Hl. destruct c as [h1 h2 h3 h4 h5 h6]. unfold tocStep.
  repeat match goal with
  | |- context [?a =? ?b] =>
    destruct (Z.eqb_spec a b); [lia|]
  end.
  reflexivity.
Qed.

(** C3, as the claim states it, fails: the fifth heading, of level 3 after a
    heading of level 1, is not rendered [2.1]. *)
Lemma generateToc_example_differs :
  map Toc.renderedLevel (generateToc (map headingOfLevel [1; 2; 2; 1; 3]))
  <> ["1"; "1.1"; "1.2"; "2"; "2.1"]%string.
Proof. vm_compute. discriminate. Qed.

(** C3, amended.  The renumbering is a state machine on six counters: the
    entry at any place of the list is rewritten by one step from the counters
    left by the entries before it; for a level from 1 to 6 the step adds one
    to the counter of that level, leaves the counters of the shallower levels
    as they are, sets the counters of all deeper levels to zero, and renders
    the counters of the levels 1 to that level joined by dots (the other
    fields of the entry are kept); for any other level neither the counters
    nor the entry change.  For headings at the levels [1,2,2,1,3] the rendered
    levels are "1", "1.1", "1.2", "2", "2.0.1": a level that is skipped shows
    as 0. *)
Theorem generateToc_numbering :
  (forall pre e post,
     let c := countersAfter Toc.zero pre in
     let c' := fst (tocStep c e) in
     length (generateToc (pre ++ e :: post)) = length (pre ++ e :: post) /\
     nth_error (generateToc (pre ++ e :: post)) (length pre)
       = Some (snd (tocStep c e)) /\
     (1 <= Toc.level e <= 6 ->
        Toc.counter (Toc.level e) c' = Toc.counter (Toc.level e) c + 1 /\
        (forall j, 1 <= j < Toc.level e -> Toc.counter j c' = Toc.counter j c) /\
        (forall j, Toc.level e < j <= 6 -> Toc.counter j c' = 0) /\
        snd (tocStep c e)
        = Toc.withRenderedLevel e
            (joinDot (map (fun j => Toc.counter j c') (levelsUpTo (Toc.level e))))) /\
     (~ (1 <= Toc.level e <= 6) -> tocStep c e = (c, e))) /\
  map Toc.renderedLevel (generateToc (map headingOfLevel [1; 2; 2; 1; 3]))
  = ["1"; "1.1"; "1.2"; "2"; "2.0.1"]%string.
Proof.
  split; [|reflexivity].
  intros pre e post. cbn zeta.
  split; [apply generateTocFrom_length|].
  split; [apply generateTocFrom_nth|].
  split; [apply tocStep_counters|apply tocStep_other_level].
Qed.

Lemma generateToc_numbering_witness :
  let pre := map headingOfLevel [1; 2; 2; 1] in
  let e := headingOfLevel 3 in
  let c := countersAfter Toc.zero pre in
  let c' := fst (tocStep c e) in
  1 <= Toc.level e <= 6 /\
  nth_error (generateToc (pre ++ [e])) (length pre) = Some (snd (tocStep c e)) /\
  Toc.counter 3 c' = Toc.counter 3 c + 1 /\
  snd (tocStep c e)
  = Toc.withRenderedLevel e
      (joinDot (map (fun j => Toc.counter j c') (levelsUpTo (Toc.level e)))).
Proof.
  cbn zeta.
  assert (Hl : 1 <= Toc.level (headingOfLevel 3) <= 6) by (cbn; lia).
  split; [exact Hl|].
  destruct generateToc_numbering as [Hgen _].
  destruct (Hgen (map headingOfLevel [1; 2; 2; 1]) (headingOfLevel 3) [])
    as (_ & Hnth & Hstep & _).
  split; [exact Hnth|].
  destruct (Hstep Hl) as (Hinc & _ & _ & Hrender).
  split; [exact Hinc|exact Hrender].
Defined.

End TocNumbering.

(** ** The match filter of the grammar linter *)

Section LanguageToolFilter.

Open Scope string_scope.

Lemma matchIsValid_spec range textNodes m :
  matchIsValid range textNodes m = true <->
  exists node, In node textNodes /\
    from node <= LanguageTool.offset m /\
    from range + LanguageTool.length m <= to node.
Proof.
  unfold matchIsValid. rewrite existsb_exists.
  split; intros (node & Hin & H); exists node; (split; [assumption|]).
  - apply andb_true_iff in H. destruct H as [H1 H2].
    apply Z.geb_le in H1. apply Z.leb_le in H2. lia.
  - apply andb_true_iff. split; [apply Z.geb_le|apply Z.leb_le]; lia.
Qed.

Lemma insideSomeTextNode_spec textNodes m :
  insideSomeTextNode textNodes m = true <->
  exists node, In node textNodes /\
    from node <= LanguageTool.offset m /\
    LanguageTool.offset m + LanguageTool.length m <= to node.
Proof.
  unfold insideSomeTextNode. rewrite existsb_exists.
  split; intros (node & Hin & H); exists node; (split; [assumption|]).
  - apply andb_true_iff in H. destruct H as [H1 H2].
    apply Z.leb_le in H1. apply Z.leb_le in H2. lia.
  - apply andb_true_iff. split; apply Z.leb_le; lia.
Qed.

Lemma removeInvalid_In range textNodes matches m :
  In m (removeInvalid range textNodes matches) <->
  In m matches /\ matchIsValid range textNodes m = true.
Proof.
  induction matches as [|x matches IH]; cbn [removeInvalid In]; [tauto|].
  destruct (matchIsValid range textNodes x) eqn:E; cbn [In]; rewrite IH.
  - split; [intros [->|[H1 H2]]; auto|intros [[->|H1] H2]; auto].
  - split; [intros [H1 H2]; auto|intros [[->|H1] H2]; [congruence|auto]].
Qed.

(** C4 (the code departs from the claim).  The loop compares
    [from + length], with the [from] of the analyzed range, instead of
    [offset + length]: a match is kept exactly when some text node starts at
    or before its offset and ends at or after the start of the range plus its
    length.  So a match on markup outside every text node is kept and becomes
    a diagnostic, and a match inside a text node of a range that starts later
    in the document is dropped. *)
Theorem ltLinter_filter_uses_range_start :
  (forall range textNodes matches m,
     In m (removeInvalid range textNodes matches) <->
     In m matches /\
     exists node, In node textNodes /\
       from node <= LanguageTool.offset m /\
       from range + LanguageTool.length m <= to node) /\
  (insideSomeTextNode boldTextNodes markupMatch = false /\
   removeInvalid (mkRange 0 13) boldTextNodes [markupMatch] = [markupMatch] /\
   ltDiagnostics (mkRange 0 13) boldTextNodes [markupMatch]
   = [Lint.mkDiagnostic 6 8 Lint.warning "Unpaired symbol"
                        (Some "language-tool(typographical)") None]) /\
  (insideSomeTextNode [mkRange 0 10] proseMatch = true /\
   ltDiagnostics (mkRange 100 110) [mkRange 0 10] [proseMatch] = []).
Proof.
  split.
  - intros range textNodes matches m.
    rewrite removeInvalid_In, matchIsValid_spec. reflexivity.
  - repeat split.
Qed.

End LanguageToolFilter.

(** ** The reconciliation of previous diagnostics *)

Section Reconciliation.

Variable overlapping : list Range -> Lint.Diagnostic -> bool.
Variable tag : string.

Lemma reconcileFrom_app st pre post :
  reconcileFrom overlapping tag st (pre ++ post)
  = reconcileFrom overlapping tag (reconcileFrom overlapping tag st pre) post.
Proof. unfold reconcileFrom. apply fold_left_app. Qed.

(** The ranges do not depend on the diagnostics collected so far, and these
    are only appended to. *)
Lemma reconcileFrom_split previous : forall diagnostics ranges,
  reconcileFrom overlapping tag (diagnostics, ranges) previous
  = (diagnostics ++ fst (reconcileFrom overlapping tag ([], ranges) previous),
     snd (reconcileFrom overlapping tag ([], ranges) previous)).
Proof.
  induction previous as [|x previous IH]; intros diagnostics ranges.
  - cbn. now rewrite app_nil_r.
  - unfold reconcileFrom in *. cbn [fold_left]. unfold reconcileStep at 2 4 6.
    destruct (fromProvider tag (diagnostic x)); [|apply IH].
    destruct (overlapping ranges (diagnostic x)); cbn [negb].
    + apply IH.
    + rewrite IH. rewrite (IH ([] ++ [carried x])). cbn [app fst snd].
      now rewrite <- app_assoc.
Qed.

(** The ranges only grow: by the tracked spans of diagnostics of the
    provider. *)
Lemma reconcileFrom_ranges previous : forall st r,
  In r (snd (reconcileFrom overlapping tag st previous)) <->
  In r (snd st) \/
  exists pre x post, previous = pre ++ x :: post /\
    fromProvider tag (diagnostic x) = true /\
    overlapping (snd (reconcileFrom overlapping tag st pre)) (diagnostic x) = true /\
    r = trackedSpan x.
Proof.
  induction previous as [|x previous IH] using rev_ind; intros st r.
  - cbn. split; [auto|]. intros [H|(pre & x & post & H & _)]; [assumption|].
    destruct pre; discriminate.
  - rewrite reconcileFrom_app. unfold reconcileFrom at 1. cbn [fold_left].
    destruct (reconcileFrom overlapping tag st previous) as [ds rs] eqn:E.
    assert (Hsnd : rs = snd (reconcileFrom overlapping tag st previous))
      by (now rewrite E).
    assert (Hstep :
      In r (snd (reconcileStep overlapping tag (ds, rs) x)) <->
      In r rs \/ (fromProvider tag (diagnostic x) = true /\
                  overlapping rs (diagnostic x) = true /\ r = trackedSpan x)).
    { unfold reconcileStep.
      destruct (fromProvider tag (diagnostic x)); cbn [snd].
      - destruct (overlapping rs (diagnostic x)); cbn [negb snd].
        + rewrite in_app_iff. cbn [In]. intuition.
        + intuition discriminate.
      - intuition discriminate. }
    rewrite Hstep, Hsnd, IH. clear Hstep. split.
    + intros [[H|(pre & y & post & Hp & Hy1 & Hy2 & Hy3)]|(H1 & H2 & H3)].
      * now left.
      * right. exists pre, y, (post ++ [x]). rewrite Hp, <- app_assoc. auto.
      * right. exists previous, x, []. auto.
    + intros [H|(pre & y & post & Hp & Hy1 & Hy2 & Hy3)]; [left; now left|].
      destruct post as [|z post] using rev_ind.
      * apply app_inj_tail in Hp. destruct Hp as [-> ->].
        right. auto.
      * clear IHpost. rewrite app_comm_cons, app_assoc in Hp.
        apply app_inj_tail in Hp. destruct Hp as [-> ->].
        left. right. exists pre, y, post. auto.
Qed.

(** Every diagnostic carried over is a previous diagnostic of the provider,
    moved to its tracked position. *)
Lemma reconcileFrom_carried previous : forall ranges c,
  In c (fst (reconcileFrom overlapping tag ([], ranges) previous)) ->
  exists x, In x previous /\ fromProvider tag (diagnostic x) = true /\
            c = carried x.
Proof.
  induction previous as [|x previous IH]; intros ranges c Hc; [destruct Hc|].
  unfold reconcileFrom in Hc. cbn [fold_left] in Hc.
  unfold reconcileStep at 2 in Hc.
  destruct (fromProvider tag (diagnostic x)) eqn:Ep.
  - destruct (overlapping ranges (diagnostic x)); cbn [negb] in Hc.
    + destruct (IH _ _ Hc) as (y & Hy & H). exists y. split; [now right|assumption].
    + fold (reconcileFrom overlapping tag ([] ++ [carried x], ranges) previous) in Hc.
      rewrite reconcileFrom_split in Hc. cbn [fst app] in Hc.
      destruct Hc as [<-|Hc].
      * exists x. split; [now left|auto].
      * destruct (IH _ _ Hc) as (y & Hy & H). exists y. split; [now right|assumption].
  - destruct (IH _ _ Hc) as (y & Hy & H). exists y. split; [now right|assumption].
Qed.

(** What one previous diagnostic of the provider contributes, given the
    ranges collected before the loop reaches it. *)
Lemma reconcileFrom_at ranges pre x post :
  fromProvider tag (diagnostic x) = true ->
  let before := reconcileFrom overlapping tag ([], ranges) pre in
  let seen := snd before in
  reconcileFrom overlapping tag ([], ranges) (pre ++ x :: post)
  = if overlapping seen (diagnostic x) then
      (fst before
         ++ fst (reconcileFrom overlapping tag ([], seen ++ [trackedSpan x]) post),
       snd (reconcileFrom overlapping tag ([], seen ++ [trackedSpan x]) post))
    else
      (fst before
         ++ carried x :: fst (reconcileFrom overlapping tag ([], seen) post),
       snd (reconcileFrom overlapping tag ([], seen) post)).
Proof.
  intros Hp. cbn zeta. rewrite reconcileFrom_app.
  destruct (reconcileFrom overlapping tag ([], ranges) pre) as [k1 seen].
  cbn [fst snd]. unfold reconcileFrom at 1. cbn [fold_left].
  unfold reconcileStep at 2. rewrite Hp.
  destruct (overlapping seen (diagnostic x)); cbn [negb].
  - apply reconcileFrom_split.
  - fold (reconcileFrom overlapping tag (k1 ++ [carried x], seen) post).
    rewrite reconcileFrom_split. now rewrite <- app_assoc.
Qed.

End Reconciliation.

Section MdLintReconciliation.

Open Scope string_scope.
Open Scope list_scope.





(** A whole pass up to the calls of the linter: with [context = 1000] the
    change in the last line of the seven-line buffer expands to the whole
    buffer, and the previous finding inside it is dropped and analyzed
    again. *)
Example mdLintPlan_example :
  mdLintPlan fourBlocks [mkRange 9 9] [firstFinding]
  = Some ([], [mkRange 0 10]).
Proof. reflexivity. Qed.


End MdLintReconciliation.

(** ** Heading ids *)

Section HeadingIds.

Open Scope string_scope.

(** The global replacement never runs out of steps: any number of steps above
    the length of the text gives the same result. *)
Lemma replaceAllGo_fuel r repl : forall fuel1 fuel2 s,
  (String.length s < fuel1)%nat -> (String.length s < fuel2)%nat ->
  Regex.replaceAllGo fuel1 r repl s = Regex.replaceAllGo fuel2 r repl s.
Proof.
  induction fuel1 as [|fuel1 IH]; intros fuel2 s H1 H2; [lia|].
  destruct fuel2 as [|fuel2]; [lia|].
  cbn [Regex.replaceAllGo].
  destruct (Regex.matchAt r s) as [[rest g]|].
  - destruct (String.length rest <? String.length s)%nat eqn:E.
    + apply Nat.ltb_lt in E. f_equal. apply IH; lia.
    + destruct s as [|c s']; [reflexivity|].
      cbn [String.length] in H1, H2. do 2 f_equal. apply IH; lia.
  - destruct s as [|c s']; [reflexivity|].
    cbn [String.length] in H1, H2. f_equal. apply IH; lia.
Qed.

Lemma replaceAllGo_S fuel r repl s :
  Regex.replaceAllGo (S fuel) r repl s
  = match Regex.matchAt r s with
    | Some (rest, g) =>
      if (String.length rest <? String.length s)%nat then
        Regex.expand repl g ++ Regex.replaceAllGo fuel r repl rest
      else
        match s with
        | EmptyString => Regex.expand repl g
        | String c s' => Regex.expand repl g ++ String c (Regex.replaceAllGo fuel r repl s')
        end
    | None =>
      match s with
      | EmptyString => EmptyString
      | String c s' => String c (Regex.replaceAllGo fuel r repl s')
      end
    end.
Proof. reflexivity. Qed.

Lemma replaceAll_step r repl s :
  Regex.replaceAll r repl s
  = match Regex.matchAt r s with
    | Some (rest, g) =>
      if (String.length rest <? String.length s)%nat then
        Regex.expand repl g ++ Regex.replaceAll r repl rest
      else
        match s with
        | EmptyString => Regex.expand repl g
        | String c s' => Regex.expand repl g ++ String c (Regex.replaceAll r repl s')
        end
    | None =>
      match s with
      | EmptyString => EmptyString
      | String c s' => String c (Regex.replaceAll r repl s')
      end
    end.
Proof.
  unfold Regex.replaceAll. rewrite replaceAllGo_S.
  destruct (Regex.matchAt r s) as [[rest g]|].
  - destruct (String.length rest <? String.length s)%nat eqn:E.
    + apply Nat.ltb_lt in E. f_equal. apply replaceAllGo_fuel; lia.
    + destruct s as [|c s']; reflexivity.
  - destruct s as [|c s']; reflexivity.
Qed.

Example headingToID_attribute_list :
  headingToID "Title {.class #attr key=val}" = "attr".
Proof. vm_compute. reflexivity. Qed.

Example headingToID_named_anchor :
  headingToID "<a name='anchor'></a> Title" = "anchor".
Proof. vm_compute. reflexivity. Qed.

Example headingToID_formatting :
  headingToID "**Bold** and _it_ [link](http://x.y) end[^1]" = "bold-and-_it--end".
Proof. vm_compute. reflexivity. Qed.

(** Without a letter nothing is cut off at the front, so digits stay. *)
Example headingToID_digits : headingToID "123" = "123".
Proof. vm_compute. reflexivity. Qed.

End HeadingIds.

(** ** The counter *)

Section Counter.

Open Scope string_scope.
Open Scope Z_scope.

(** The two examples of the counter: three words, and still three words
    after [two] is replaced by [twotwo]. *)
Lemma countField_three_words :
  let tr := replaceRange ["one two three"] 4 7 "twotwo" in
  words (countField_create countText (startDoc tr)) = 3 /\
  newDoc tr = ["one twotwo three"] /\
  countField_update wordAt countText (countField_create countText (startDoc tr)) tr
  = Some (countField_create countText (newDoc tr)) /\
  words (countField_create countText (newDoc tr)) = 3.
Proof. vm_compute. repeat split. Qed.

End Counter.

(** ** Transactions that do not change the document *)

Section Unchanged.

Variable wordAtPos : Text.Doc -> Z -> option (option Range).
Variable count : string -> Counts.
Variable headingsOf : string -> list AST.ASTNode.
Variable mapPos : Transaction -> Z -> option Z.

(** C10. For a transaction that does not change the document, the update of
    the counter and the update of the table of contents both return, without
    error, the value they were given. *)
Theorem update_unchanged (counts : Counts) (toc : list Toc.ToCEntry)
  (transaction : Transaction) (Hsame : docChanged transaction = false) :
  countField_update wordAtPos count counts transaction = Some counts /\
  tocField_update headingsOf mapPos toc transaction = Some toc.
Proof.
  unfold countField_update, tocField_update. rewrite Hsame. split; reflexivity.
Qed.

End Unchanged.

Lemma update_unchanged_witness :
  let transaction :=
    mkTransaction false ["# Title"%string] ["# Title"%string] [] in
  let toc := [Toc.mkToCEntry 1 0 "# Title"%string 1 "1"%string "title"%string] in
  docChanged transaction = false /\
  countField_update wordAt countText (mkCounts 6 2) transaction
  = Some (mkCounts 6 2) /\
  tocField_update (fun _ => []) (fun _ pos => Some pos) toc transaction = Some toc.
Proof.
  cbn zeta.
  assert (Hsame : docChanged (mkTransaction false ["# Title"%string]
                                            ["# Title"%string] []) = false)
    by reflexivity.
  split; [exact Hsame|].
  exact (update_unchanged wordAt countText (fun _ => []) (fun _ pos => Some pos)
           (mkCounts 6 2)
           [Toc.mkToCEntry 1 0 "# Title"%string 1 "1"%string "title"%string]
           _ Hsame).
Defined.

(* ================================================================== *)
(** * Part III: further properties of the code                         *)
(* ================================================================== *)

(** ** The merged ranges are a normal form *)

Section MergeNormalForm.

(** In a list sorted with gaps, a covered position is at or after the start
    of the first range, and the later ranges start after its end. *)
Lemma canonical_head_lower a t p :
  StronglySorted gapLt (a :: t) -> Forall wellFormed (a :: t) ->
  covered p (a :: t) -> from a <= p.
Proof.
  intros Hs Hwf (r & [<-|Hin] & Hp); [lia|].
  inversion Hs as [|? ? _ Hall]; subst. inversion Hwf as [|? ? Ha _]; subst.
  rewrite Forall_forall in Hall. specialize (Hall r Hin).
  unfold gapLt, wellFormed in *. lia.
Qed.

Lemma canonical_tail_after a t p :
  StronglySorted gapLt (a :: t) -> covered p t -> to a + 1 < p.
Proof.
  intros Hs (r & Hin & Hp).
  inversion Hs as [|? ? _ Hall]; subst.
  rewrite Forall_forall in Hall. specialize (Hall r Hin).
  unfold gapLt in *. lia.
Qed.

(** Two lists of well-formed ranges, each sorted with gaps, that cover the
    same positions are the same list. *)
Lemma canonical_unique l1 : forall l2,
  StronglySorted gapLt l1 -> Forall wellFormed l1 ->
  StronglySorted gapLt l2 -> Forall wellFormed l2 ->
  (forall p, covered p l1 <-> covered p l2) ->
  l1 = l2.
Proof.
  induction l1 as [|a t1 IH]; intros [|b t2] Hs1 Hw1 Hs2 Hw2 Hcov.
  - reflexivity.
  - exfalso. inversion Hw2 as [|? ? Hb _]; subst.
    destruct (proj2 (Hcov (from b))) as (r & [] & _).
    exists b. split; [now left|unfold wellFormed in Hb; lia].
  - exfalso. inversion Hw1 as [|? ? Ha _]; subst.
    destruct (proj1 (Hcov (from a))) as (r & [] & _).
    exists a. split; [now left|unfold wellFormed in Ha; lia].
  - pose proof Hw1 as Hw1'. pose proof Hw2 as Hw2'.
    inversion Hw1 as [|? ? Ha Hwt1]; subst. inversion Hw2 as [|? ? Hb Hwt2]; subst.
    unfold wellFormed in Ha, Hb.
    assert (Hca : forall p, from a <= p <= to a -> covered p (a :: t1)).
    { intros p Hp. exists a. split; [now left|assumption]. }
    assert (Hcb : forall p, from b <= p <= to b -> covered p (b :: t2)).
    { intros p Hp. exists b. split; [now left|assumption]. }
    assert (Hfrom : from a = from b).
    { assert (Ha' : from a <= from a <= to a) by lia.
      assert (Hb' : from b <= from b <= to b) by lia.
      pose proof (canonical_head_lower b t2 (from a) Hs2 Hw2'
                    (proj1 (Hcov _) (Hca _ Ha'))).
      pose proof (canonical_head_lower a t1 (from b) Hs1 Hw1'
                    (proj2 (Hcov _) (Hcb _ Hb'))).
      lia. }
    assert (Hnot1 : forall p, to a < p <= to a + 1 -> ~ covered p (a :: t1)).
    { intros p Hp (r & [<-|Hin] & Hr); [lia|].
      pose proof (canonical_tail_after a t1 p Hs1 (ex_intro _ r (conj Hin Hr))). lia. }
    assert (Hnot2 : forall p, to b < p <= to b + 1 -> ~ covered p (b :: t2)).
    { intros p Hp (r & [<-|Hin] & Hr); [lia|].
      pose proof (canonical_tail_after b t2 p Hs2 (ex_intro _ r (conj Hin Hr))). lia. }
    assert (Hto : to a = to b).
    { destruct (Z.lt_trichotomy (to a) (to b)) as [Hlt|[Heq|Hgt]]; [exfalso|assumption|exfalso].
      - apply (Hnot1 (to a + 1)); [lia|]. apply Hcov. apply Hcb. lia.
      - apply (Hnot2 (to b + 1)); [lia|]. apply Hcov. apply Hca. lia. }
    assert (Hab : a = b) by (destruct a, b; cbn in *; congruence).
    subst b. f_equal. apply IH.
    + now inversion Hs1.
    + assumption.
    + now inversion Hs2.
    + assumption.
    + intros p. split; intros Hp.
      * pose proof (canonical_tail_after a t1 p Hs1 Hp).
        destruct Hp as (r & Hin & Hr).
        destruct (proj1 (Hcov p)) as (r' & [<-|Hin'] & Hr').
        { exists r. split; [now right|assumption]. }
        { lia. }
        { exists r'. auto. }
      * pose proof (canonical_tail_after a t2 p Hs2 Hp).
        destruct Hp as (r & Hin & Hr).
        destruct (proj2 (Hcov p)) as (r' & [<-|Hin'] & Hr').
        { exists r. split; [now right|assumption]. }
        { lia. }
        { exists r'. auto. }
Qed.

(** The merged list of well-formed ranges is sorted with gaps, well-formed,
    contains every input range in one of its ranges and covers the positions
    of the input. *)
Lemma mergeRangesInPlace_canonical ranges :
  Forall wellFormed ranges ->
  StronglySorted gapLt (mergeRangesInPlace ranges) /\
  Forall wellFormed (mergeRangesInPlace ranges) /\
  (forall r, In r ranges -> exists o, In o (mergeRangesInPlace ranges) /\ inside r o) /\
  (forall p, covered p (mergeRangesInPlace ranges) <-> covered p ranges).
Proof.
  intros Hwf. rewrite mergeRangesInPlace_sweep.
  pose proof (sortByFrom_sorted ranges) as Hsorted.
  assert (Hwfs : Forall wellFormed (sortByFrom ranges)).
  { rewrite Forall_forall in *. intros r Hr. apply Hwf. now apply sortByFrom_In. }
  assert (Hin : forall r, In r ranges <-> In r (sortByFrom ranges)).
  { intros r. symmetry. apply sortByFrom_In. }
  destruct (sortByFrom ranges) as [|cur rest].
  - repeat split; try constructor.
    + intros r Hr. apply Hin in Hr. destruct Hr.
    + intros (r & [] & _).
    + intros (r & Hr & _). apply Hin in Hr. destruct Hr.
  - assert (Hinside : forall r, In r ranges ->
                      exists o, In o (sweep cur rest) /\ inside r o).
    { intros r Hr. apply sweep_inside; [assumption|now apply Hin]. }
    split; [now apply sweep_gap|]. split; [now apply sweep_wellFormed|].
    split; [exact Hinside|].
    intros p. split.
    + intros Hc. destruct (sweep_covered rest cur p Hwfs Hc) as (r & Hr & Hp).
      exists r. split; [now apply Hin|assumption].
    + intros (r & Hr & Hp). destruct (Hinside r Hr) as (o & Ho & Hi).
      exists o. split; [assumption|]. unfold inside in Hi. lia.
Qed.

(** X1. A list of well-formed ranges that is already sorted with a gap of at
    least 2 between any two ranges is returned as it is; so merging is
    idempotent: merging the result of a merge changes nothing. *)
Theorem mergeRangesInPlace_idempotent (ranges : list Range)
  (Hwf : Forall wellFormed ranges) :
  (StronglySorted gapLt ranges -> mergeRangesInPlace ranges = ranges) /\
  mergeRangesInPlace (mergeRangesInPlace ranges) = mergeRangesInPlace ranges.
Proof.
  assert (Hfix : forall l, Forall wellFormed l -> StronglySorted gapLt l ->
                           mergeRangesInPlace l = l).
  { intros l Hw Hs.
    destruct (mergeRangesInPlace_canonical l Hw) as (Hs' & Hw' & _ & Hcov).
    now apply canonical_unique. }
  split; [now apply Hfix|].
  destruct (mergeRangesInPlace_canonical ranges Hwf) as (Hs & Hw & _).
  now apply Hfix.
Qed.

Lemma mergeRangesInPlace_idempotent_witness :
  let ranges := [mkRange 5 7; mkRange 1 2; mkRange 3 4; mkRange 10 12; mkRange 6 8] in
  Forall wellFormed ranges /\
  mergeRangesInPlace (mergeRangesInPlace ranges) = mergeRangesInPlace ranges.
Proof.
  cbn zeta.
  assert (H : Forall wellFormed
    [mkRange 5 7; mkRange 1 2; mkRange 3 4; mkRange 10 12; mkRange 6 8]).
  { repeat constructor; unfold wellFormed; simpl; lia. }
  split; [exact H|].
  exact (proj2 (mergeRangesInPlace_idempotent _ H)).
Defined.

(** X2. The merged list does not depend on the order of the input: two
    lists of well-formed ranges that are permutations of each other merge to
    the same list. *)
Theorem mergeRangesInPlace_order (ranges ranges' : list Range)
  (Hwf : Forall wellFormed ranges) (Hperm : Permutation ranges ranges') :
  mergeRangesInPlace ranges = mergeRangesInPlace ranges'.
Proof.
  assert (Hwf' : Forall wellFormed ranges').
  { rewrite Forall_forall in *. intros r Hr. apply Hwf.
    apply (Permutation_in r (Permutation_sym Hperm) Hr). }
  destruct (mergeRangesInPlace_canonical ranges Hwf) as (Hs & Hw & _ & Hcov).
  destruct (mergeRangesInPlace_canonical ranges' Hwf') as (Hs' & Hw' & _ & Hcov').
  apply canonical_unique; try assumption.
  intros p. rewrite Hcov, Hcov'. unfold covered.
  split; intros (r & Hr & Hp); exists r; (split; [|assumption]).
  - apply (Permutation_in r Hperm Hr).
  - apply (Permutation_in r (Permutation_sym Hperm) Hr).
Qed.

Lemma mergeRangesInPlace_order_witness :
  let ranges := [mkRange 5 7; mkRange 1 2; mkRange 6 8] in
  let ranges' := [mkRange 1 2; mkRange 6 8; mkRange 5 7] in
  (Forall wellFormed ranges /\ Permutation ranges ranges') /\
  mergeRangesInPlace ranges = mergeRangesInPlace ranges'.
Proof.
  cbn zeta.
  assert (H : Forall wellFormed [mkRange 5 7; mkRange 1 2; mkRange 6 8]).
  { repeat constructor; unfold wellFormed; simpl; lia. }
  assert (P : Permutation [mkRange 5 7; mkRange 1 2; mkRange 6 8]
                          [mkRange 1 2; mkRange 6 8; mkRange 5 7]).
  { apply (Permutation_cons_app [mkRange 1 2; mkRange 6 8] []).
    rewrite app_nil_r. apply Permutation_refl. }
  split; [auto|].
  exact (mergeRangesInPlace_order _ _ H P).
Defined.

End MergeNormalForm.

(** ** What a pass of the style linter analyzes *)

Section MdLintPlan.

Open Scope string_scope.
Open Scope list_scope.

(** X3. When [context] is at least the number of lines minus one, the block
    expansion of any range of a non-empty buffer is the whole buffer.  The
    style linter expands with [context = 1000]: in a buffer of up to 1001
    lines every change makes it analyze the whole buffer again. *)
Theorem getSurroundingLinePosition_whole (d : Text.Doc) (from0 to0 context : Z)
  (Hne : d <> [])
  (Hrange : 0 <= from0 /\ from0 <= to0 /\ to0 <= Text.length d)
  (Hctx : Text.lines d - 1 <= context) :
  getSurroundingLinePosition d from0 to0 context
  = Some (mkRange 0 (Text.length d)).
Proof.
  destruct Hrange as (H0 & Hft & Hlen).
  assert (Hlines : 1 <= Text.lines d).
  { unfold Text.lines. destruct d; [contradiction|cbn [length]; lia]. }
  destruct (expansion_lines d from0 to0 context Hne ltac:(lia) H0 Hft Hlen)
    as (lf & lt & f & t & l1 & l2 & Hlf & Hlt & Hup & Hdown & Hl1 & Hl2 & Hres & _).
  pose proof (lineAt_inv _ _ _ Hlf) as (Hlinef & _).
  pose proof (lineAt_inv _ _ _ Hlt) as (Hlinet & _).
  pose proof (line_inv _ _ _ Hlinef) as (Hnf & _).
  pose proof (line_inv _ _ _ Hlinet) as (Hnt & _).
  destruct Hup as (Hf & _). destruct Hdown as (Ht & _).
  assert (Hf1 : f = 1) by lia. assert (Ht1 : t = Text.lines d) by lia.
  rewrite Hf1 in Hl1. rewrite Ht1 in Hl2.
  rewrite Hres, (line_first d l1 Hl1), (line_last d l2 Hl2). reflexivity.
Qed.

Lemma getSurroundingLinePosition_whole_witness :
  (fourBlocks <> [] /\ (0 <= 3 /\ 3 <= 4 /\ 4 <= Text.length fourBlocks) /\
   Text.lines fourBlocks - 1 <= 1000) /\
  getSurroundingLinePosition fourBlocks 3 4 1000
  = Some (mkRange 0 (Text.length fourBlocks)).
Proof.
  assert (Hne : fourBlocks <> []) by discriminate.
  assert (Hrange : 0 <= 3 /\ 3 <= 4 /\ 4 <= Text.length fourBlocks)
    by (vm_compute; intuition discriminate).
  assert (Hctx : Text.lines fourBlocks - 1 <= 1000) by (vm_compute; discriminate).
  split; [auto|].
  exact (getSurroundingLinePosition_whole fourBlocks 3 4 1000 Hne Hrange Hctx).
Defined.

Lemma expandChanges_spec d changed :
  d <> [] -> Forall (validChange d) changed ->
  exists ranges, expandChanges d changed = Some ranges /\
    Forall wellFormed ranges /\
    forall c, In c changed -> exists r, In r ranges /\ inside c r.
Proof.
  intros Hne Hvalid. induction Hvalid as [|c changed Hc Hrest IH].
  - exists []. repeat split; [constructor|intros c []].
  - destruct IH as (ranges & Hex & Hwf & Hin).
    destruct Hc as (H0 & Hft & Hlen).
    destruct (expansion_lines d (from c) (to c) 1000 Hne ltac:(lia) H0 Hft Hlen)
      as (lf & lt & f & t & l1 & l2 & _ & _ & _ & _ & _ & _ & Hres & Hc1 & Hc2).
    exists (mkRange (Text.from l1) (Text.to l2) :: ranges).
    cbn [expandChanges]. rewrite Hres, Hex. split; [reflexivity|]. split.
    + constructor; [unfold wellFormed; cbn; lia|assumption].
    + intros c' [<-|Hc'].
      * exists (mkRange (Text.from l1) (Text.to l2)).
        split; [now left|unfold inside; cbn; lia].
      * destruct (Hin c' Hc') as (r & Hr & Hi). exists r. split; [now right|assumption].
Qed.

(** A previous diagnostic of the provider is carried over or its tracked
    span is among the ranges. *)
Lemma reconcileFrom_kept_or_pushed overlapping tag ranges previous x :
  In x previous -> fromProvider tag (diagnostic x) = true ->
  let result := reconcileFrom overlapping tag ([], ranges) previous in
  In (carried x) (fst result) \/ In (trackedSpan x) (snd result).
Proof.
  intros Hin Hp. cbn zeta.
  destruct (in_split _ _ Hin) as (pre & post & ->).
  rewrite (reconcileFrom_at overlapping tag ranges pre x post Hp).
  destruct (overlapping _ (diagnostic x)); cbn [fst snd].
  - right. apply (reconcileFrom_ranges overlapping tag post). left. cbn [snd].
    apply in_or_app. right. now left.
  - left. apply in_or_app. right. now left.
Qed.

Lemma reconcileFrom_ranges_wf overlapping tag ranges previous :
  Forall wellFormed ranges -> Forall validTracked previous ->
  Forall wellFormed (snd (reconcileFrom overlapping tag ([], ranges) previous)).
Proof.
  intros Hwf Hprev. rewrite Forall_forall in *. intros r Hr.
  apply (reconcileFrom_ranges overlapping tag previous) in Hr.
  destruct Hr as [Hr|(pre & x & post & -> & _ & _ & ->)]; [now apply Hwf|].
  apply (Hprev x). apply in_or_app. right. now left.
Qed.

(** X4. In a pass of the style linter over a non-empty buffer, with changed
    ranges inside the buffer and previous diagnostics whose tracked span is
    not reversed, the plan never fails; the ranges handed to the linter are
    sorted and any two are separated by a gap of at least 2; every changed
    range lies inside one of them; and no previous finding of the linter is
    lost: it is carried over, or its tracked span lies inside a range that is
    analyzed again. *)
Theorem mdLintPlan_covers (d : Text.Doc) (changed : list Range)
  (previous : list Tracked)
  (Hne : d <> []) (Hchanged : Forall (validChange d) changed)
  (Hprevious : Forall validTracked previous) :
  exists diagnostics ranges,
    mdLintPlan d changed previous = Some (diagnostics, ranges) /\
    StronglySorted gapLt ranges /\ Forall wellFormed ranges /\
    (forall c, In c changed -> exists r, In r ranges /\ inside c r) /\
    (forall x, In x previous ->
       fromProvider "remark-lint" (diagnostic x) = true ->
       In (carried x) diagnostics \/
       exists r, In r ranges /\ inside (trackedSpan x) r).
Proof.
  destruct (expandChanges_spec d changed Hne Hchanged) as (ranges0 & Hex & Hwf0 & Hin0).
  unfold mdLintPlan. rewrite Hex.
  pose proof (reconcileFrom_ranges_wf overlaps "remark-lint" ranges0 previous
                Hwf0 Hprevious) as Hwf1.
  pose proof (fun x => reconcileFrom_kept_or_pushed overlaps "remark-lint"
                ranges0 previous x) as Hkept.
  pose proof (reconcileFrom_ranges overlaps "remark-lint" previous ([], ranges0))
    as Hranges.
  unfold mdLintReconcile.
  destruct (reconcileFrom overlaps "remark-lint" ([], ranges0) previous)
    as [diagnostics ranges1].
  cbn [fst snd] in *.
  destruct (mergeRangesInPlace_canonical ranges1 Hwf1) as (Hs & Hw & Hinside & _).
  exists diagnostics, (mergeRangesInPlace ranges1).
  split; [reflexivity|]. split; [assumption|]. split; [assumption|]. split.
  - intros c Hc. destruct (Hin0 c Hc) as (r0 & Hr0 & Hi0).
    destruct (Hinside r0) as (r & Hr & Hi); [apply Hranges; now left|].
    exists r. split; [assumption|]. unfold inside in *. lia.
  - intros x Hx Hp. destruct (Hkept x Hx Hp) as [H|H]; [now left|right].
    now apply Hinside.
Qed.

Lemma mdLintPlan_covers_witness :
  (fourBlocks <> [] /\ Forall (validChange fourBlocks) [mkRange 9 9] /\
   Forall validTracked [firstFinding]) /\
  exists diagnostics ranges,
    mdLintPlan fourBlocks [mkRange 9 9] [firstFinding] = Some (diagnostics, ranges) /\
    StronglySorted gapLt ranges /\ Forall wellFormed ranges /\
    (forall c, In c [mkRange 9 9] -> exists r, In r ranges /\ inside c r) /\
    (forall x, In x [firstFinding] ->
       fromProvider "remark-lint" (diagnostic x) = true ->
       In (carried x) diagnostics \/
       exists r, In r ranges /\ inside (trackedSpan x) r).
Proof.
  assert (Hne : fourBlocks <> []) by discriminate.
  assert (Hc : Forall (validChange fourBlocks) [mkRange 9 9]).
  { repeat constructor; vm_compute; discriminate. }
  assert (Hp : Forall validTracked [firstFinding]).
  { repeat constructor. vm_compute. discriminate. }
  split; [auto|].
  exact (mdLintPlan_covers fourBlocks [mkRange 9 9] [firstFinding] Hne Hc Hp).
Defined.

End MdLintPlan.

(** ** The table of contents *)

Section TocFacts.

Lemma tocStep_level c e : Toc.level (snd (tocStep c e)) = Toc.level e.
Proof.
  destruct c as [h1 h2 h3 h4 h5 h6]. unfold tocStep.
  repeat match goal with
  | |- context [if ?b then _ else _] => destruct b
  end; reflexivity.
Qed.

Lemma tocStep_fields c e :
  let e' := snd (tocStep c e) in
  Toc.line e' = Toc.line e /\ Toc.pos e' = Toc.pos e /\
  Toc.text e' = Toc.text e /\ Toc.level e' = Toc.level e /\ Toc.id e' = Toc.id e.
Proof.
  destruct c as [h1 h2 h3 h4 h5 h6]. unfold tocStep.
  repeat match goal with
  | |- context [if ?b then _ else _] => destruct b
  end; cbn; repeat split.
Qed.

(** A second step from the same counters on the rewritten entry gives the
    same counters and the same entry. *)
Lemma tocStep_again c e : tocStep c (snd (tocStep c e)) = tocStep c e.
Proof.
  destruct c as [h1 h2 h3 h4 h5 h6]. destruct e as [l p t lv r i].
  unfold tocStep. cbn [Toc.level].
  repeat match goal with
  | |- context [lv =? ?k] =>
    destruct (Z.eqb_spec lv k) as [->|?]; [reflexivity|]
  end.
  cbn [snd Toc.level].
  repeat match goal with
  | |- context [lv =? ?k] =>
    destruct (Z.eqb_spec lv k) as [?|?]; [contradiction|]
  end.
  reflexivity.
Qed.

Lemma generateTocFrom_again l : forall c,
  generateTocFrom c (generateTocFrom c l) = generateTocFrom c l.
Proof.
  induction l as [|e l IH]; intros c; [reflexivity|].
  cbn [generateTocFrom].
  destruct (tocStep c e) as [c' e'] eqn:E.
  cbn [generateTocFrom].
  assert (Hagain : tocStep c e' = (c', e')).
  { pose proof (tocStep_again c e) as H. rewrite E in H. exact H. }
  rewrite Hagain. now rewrite IH.
Qed.

Lemma generateTocFrom_fields l : forall c,
  map Toc.line (generateTocFrom c l) = map Toc.line l /\
  map Toc.pos (generateTocFrom c l) = map Toc.pos l /\
  map Toc.text (generateTocFrom c l) = map Toc.text l /\
  map Toc.level (generateTocFrom c l) = map Toc.level l /\
  map Toc.id (generateTocFrom c l) = map Toc.id l.
Proof.
  induction l as [|e l IH]; intros c; [repeat split|].
  cbn [generateTocFrom].
  pose proof (tocStep_fields c e) as Hf. cbn zeta in Hf.
  destruct (tocStep c e) as [c' e']. cbn [snd] in Hf.
  destruct Hf as (F1 & F2 & F3 & F4 & F5).
  destruct (IH c') as (I1 & I2 & I3 & I4 & I5).
  cbn [map]. rewrite F1, F2, F3, F4, F5, I1, I2, I3, I4, I5. repeat split.
Qed.

(** X5. Renumbering is idempotent and touches nothing but the rendered
    level: numbering a numbered list again changes nothing, and line,
    position, text, level and id of every entry are kept, in the same
    order. *)
Theorem generateToc_idempotent (headings : list Toc.ToCEntry) :
  generateToc (generateToc headings) = generateToc headings /\
  map Toc.line (generateToc headings) = map Toc.line headings /\
  map Toc.pos (generateToc headings) = map Toc.pos headings /\
  map Toc.text (generateToc headings) = map Toc.text headings /\
  map Toc.level (generateToc headings) = map Toc.level headings /\
  map Toc.id (generateToc headings) = map Toc.id headings.
Proof.
  split; [apply generateTocFrom_again|apply generateTocFrom_fields].
Qed.

Lemma tocStep_same_level c e e' :
  Toc.level e = Toc.level e' -> 1 <= Toc.level e <= 6 ->
  fst (tocStep c e) = fst (tocStep c e') /\
  Toc.renderedLevel (snd (tocStep c e)) = Toc.renderedLevel (snd (tocStep c e')).
Proof.
  intros Hl Hr. destruct c as [h1 h2 h3 h4 h5 h6]. unfold tocStep.
  rewrite <- Hl.
  repeat match goal with
  | |- context [?a =? ?b] => destruct (Z.eqb_spec a b); [split; reflexivity|]
  end.
  lia.
Qed.

Lemma generateTocFrom_levels l : forall l' c,
  map Toc.level l = map Toc.level l' ->
  Forall (fun e => 1 <= Toc.level e <= 6) l ->
  map Toc.renderedLevel (generateTocFrom c l)
  = map Toc.renderedLevel (generateTocFrom c l').
Proof.
  induction l as [|e l IH]; intros [|e' l'] c Hmap Hall; try discriminate;
    [reflexivity|].
  cbn [map] in Hmap. inversion Hmap as [[Hl Hrest]].
  inversion Hall as [|? ? He Hall']; subst.
  cbn [generateTocFrom].
  destruct (tocStep_same_level c e e' Hl He) as (Hc & Hr).
  destruct (tocStep c e) as [c1 e1]. destruct (tocStep c e') as [c2 e2].
  cbn [fst snd] in Hc, Hr. subst c2. cbn [map]. rewrite Hr. f_equal.
  now apply IH.
Qed.

(** X6. The numbering depends on nothing but the levels: two lists of
    headings with the same sequence of levels, all from 1 to 6, get the same
    rendered levels, whatever their lines, texts, ids or earlier rendered
    levels are. *)
Theorem generateToc_levels_only (headings headings' : list Toc.ToCEntry)
  (Hlevels : map Toc.level headings = map Toc.level headings')
  (Hrange : Forall (fun e => 1 <= Toc.level e <= 6) headings) :
  map Toc.renderedLevel (generateToc headings)
  = map Toc.renderedLevel (generateToc headings').
Proof.
  unfold generateToc.
  apply generateTocFrom_levels; [exact Hlevels|exact Hrange].
Qed.

Lemma generateToc_levels_only_witness :
  let headings := [Toc.mkToCEntry 1 0 "# A" 1 "" "a"; Toc.mkToCEntry 3 5 "## B" 2 "" "b"]%string in
  let headings' := [Toc.mkToCEntry 7 40 "# X" 1 "9" "x"; Toc.mkToCEntry 9 50 "## Y" 2 "9.9" "y"]%string in
  (map Toc.level headings = map Toc.level headings' /\
   Forall (fun e => 1 <= Toc.level e <= 6) headings) /\
  map Toc.renderedLevel (generateToc headings)
  = map Toc.renderedLevel (generateToc headings').
Proof.
  cbn zeta.
  assert (H1 : map Toc.level
                 [Toc.mkToCEntry 1 0 "# A" 1 "" "a"; Toc.mkToCEntry 3 5 "## B" 2 "" "b"]%string
               = map Toc.level
                 [Toc.mkToCEntry 7 40 "# X" 1 "9" "x"; Toc.mkToCEntry 9 50 "## Y" 2 "9.9" "y"]%string)
    by reflexivity.
  assert (H2 : Forall (fun e => 1 <= Toc.level e <= 6)
                 [Toc.mkToCEntry 1 0 "# A" 1 "" "a"; Toc.mkToCEntry 3 5 "## B" 2 "" "b"]%string).
  { repeat constructor; cbn; lia. }
  split; [auto|].
  exact (generateToc_levels_only _ _ H1 H2).
Defined.

Lemma tocStep_h1 c e :
  Toc.h1 (fst (tocStep c e)) = Toc.h1 c + (if Toc.level e =? 1 then 1 else 0).
Proof.
  destruct c as [h1 h2 h3 h4 h5 h6]. unfold tocStep.
  destruct (Z.eqb_spec (Toc.level e) 1) as [Heq|Hne]; [reflexivity|].
  repeat match goal with
  | |- context [?a =? ?b] => destruct (a =? b)
  end; cbn; lia.
Qed.

Lemma countersAfter_h1 pre : forall c,
  Toc.h1 (countersAfter c pre) = Toc.h1 c + countLevel 1 pre.
Proof.
  unfold countLevel.
  induction pre as [|e pre IH]; intros c.
  - cbn. lia.
  - unfold countersAfter in *. cbn [fold_left filter].
    rewrite IH, tocStep_h1.
    destruct (Toc.level e =? 1); cbn [length]; lia.
Qed.

(** X7. A heading of level 1 is numbered by its rank among the headings of
    level 1: with [n] headings of level 1 before it, its rendered level is
    the decimal numeral of [n + 1], whatever other headings lie between. *)
Theorem generateToc_level_one (pre post : list Toc.ToCEntry) (e : Toc.ToCEntry)
  (Hlevel : Toc.level e = 1) :
  nth_error (generateToc (pre ++ e :: post)) (length pre)
  = Some (Toc.withRenderedLevel e (numberToString (countLevel 1 pre + 1))).
Proof.
  unfold generateToc. rewrite generateTocFrom_nth. f_equal.
  pose proof (countersAfter_h1 pre Toc.zero) as Hh1. cbn [Toc.h1 Toc.zero] in Hh1.
  destruct (countersAfter Toc.zero pre) as [h1 h2 h3 h4 h5 h6].
  cbn [Toc.h1] in Hh1. unfold tocStep. rewrite Hlevel. cbn [Z.eqb snd].
  unfold joinDot. cbn [map String.concat]. now rewrite Hh1, Z.add_0_l.
Qed.

Lemma generateToc_level_one_witness :
  let pre := map headingOfLevel [1; 2; 2; 1; 3] in
  let e := headingOfLevel 1 in
  Toc.level e = 1 /\
  nth_error (generateToc (pre ++ e :: [])) (length pre)
  = Some (Toc.withRenderedLevel e (numberToString (countLevel 1 pre + 1))).
Proof.
  cbn zeta.
  assert (H : Toc.level (headingOfLevel 1) = 1) by reflexivity.
  split; [exact H|].
  exact (generateToc_level_one (map headingOfLevel [1; 2; 2; 1; 3]) []
           (headingOfLevel 1) H).
Defined.

(** *** Sorting by line and keeping the last entry of a line *)

Lemma insertByLine_In x y l : In y (insertByLine x l) <-> y = x \/ In y l.
Proof.
  induction l as [|z l IH]; simpl; [intuition|].
  destruct (Toc.line x <=? Toc.line z); simpl; [intuition|].
  rewrite IH. intuition.
Qed.

Lemma insertByLine_sorted x l :
  StronglySorted lineLe l -> StronglySorted lineLe (insertByLine x l).
Proof.
  induction 1 as [|z l Hs IH Hall]; simpl.
  - constructor; constructor.
  - destruct (Toc.line x <=? Toc.line z) eqn:E.
    + apply Z.leb_le in E. constructor; [now constructor|].
      constructor; [exact E|].
      rewrite Forall_forall in *. intros y Hy.
      specialize (Hall y Hy). unfold lineLe in *. lia.
    + apply Z.leb_gt in E. constructor; [exact IH|].
      rewrite Forall_forall in *. intros y Hy.
      apply insertByLine_In in Hy. destruct Hy as [->|Hy].
      * unfold lineLe. lia.
      * now apply Hall.
Qed.

Lemma sortByLine_sorted l : StronglySorted lineLe (sortByLine l).
Proof.
  induction l as [|x l IH]; simpl; [constructor|now apply insertByLine_sorted].
Qed.

(** The sort is stable: the entries of one line keep their order. *)
Lemma insertByLine_filter k x l :
  filter (hasLine k) (insertByLine x l)
  = if hasLine k x then x :: filter (hasLine k) l else filter (hasLine k) l.
Proof.
  induction l as [|z l IH]; [reflexivity|].
  cbn [insertByLine]. destruct (Toc.line x <=? Toc.line z) eqn:E.
  - reflexivity.
  - apply Z.leb_gt in E. cbn [filter]. rewrite IH.
    unfold hasLine in *.
    destruct (Z.eqb_spec (Toc.line x) k), (Z.eqb_spec (Toc.line z) k);
      try reflexivity. lia.
Qed.

Lemma sortByLine_filter k l :
  filter (hasLine k) (sortByLine l) = filter (hasLine k) l.
Proof.
  induction l as [|x l IH]; [reflexivity|].
  cbn [sortByLine fold_right]. fold (sortByLine l).
  rewrite insertByLine_filter, IH. reflexivity.
Qed.

Lemma lastWith_snoc k l x :
  lastWith k (l ++ [x]) = if hasLine k x then Some x else lastWith k l.
Proof.
  unfold lastWith. rewrite filter_app. cbn [filter].
  destruct (hasLine k x).
  - rewrite rev_app_distr. reflexivity.
  - now rewrite app_nil_r.
Qed.

Lemma lastWith_cons k x l :
  lastWith k (x :: l)
  = match lastWith k l with
    | Some v => Some v
    | None => if hasLine k x then Some x else None
    end.
Proof.
  unfold lastWith. cbn [filter].
  destruct (hasLine k x); [|now destruct (rev (filter (hasLine k) l))].
  cbn [rev]. destruct (rev (filter (hasLine k) l)); reflexivity.
Qed.

Lemma lastWith_spec k l e :
  lastWith k l = Some e <->
  exists l1 l2, l = l1 ++ e :: l2 /\ Toc.line e = k /\
                Forall (fun x => Toc.line x <> k) l2.
Proof.
  split.
  - revert e. induction l as [|x l IH] using rev_ind; intros e H.
    + discriminate.
    + rewrite lastWith_snoc in H. destruct (hasLine k x) eqn:E.
      * inversion H; subst. exists l, []. repeat split.
        -- unfold hasLine in E. now apply Z.eqb_eq in E.
        -- constructor.
      * destruct (IH e H) as (l1 & l2 & -> & Hk & Hall).
        exists l1, (l2 ++ [x]). rewrite <- app_assoc. repeat split; auto.
        apply Forall_app. split; [assumption|]. constructor; [|constructor].
        unfold hasLine in E. now apply Z.eqb_neq in E.
  - intros (l1 & l2 & -> & Hk & Hall). unfold lastWith.
    rewrite filter_app. cbn [filter].
    assert (He : hasLine k e = true) by (unfold hasLine; now apply Z.eqb_eq).
    rewrite He.
    assert (Hnone : filter (hasLine k) l2 = []).
    { induction Hall as [|x l2 Hx Hall IH]; [reflexivity|].
      cbn [filter]. unfold hasLine at 1. apply Z.eqb_neq in Hx. now rewrite Hx. }
    rewrite Hnone, rev_app_distr. reflexivity.
Qed.

Lemma mapGet_mapSet k' k v m :
  mapGet k' (mapSet k v m) = if k' =? k then Some v else mapGet k' m.
Proof.
  unfold mapGet. induction m as [|[k0 v0] m IH]; cbn [mapSet find fst].
  - rewrite (Z.eqb_sym k k'). now destruct (k' =? k).
  - destruct (Z.eqb_spec k0 k) as [->|Hne]; cbn [find fst].
    + rewrite (Z.eqb_sym k' k). now destruct (k =? k').
    + destruct (Z.eqb_spec k0 k') as [->|Hne'].
      * destruct (Z.eqb_spec k' k); [contradiction|reflexivity].
      * exact IH.
Qed.

Lemma mapGet_setAll l : forall m k,
  mapGet k (setAll l m)
  = match lastWith k l with
    | Some v => Some v
    | None => mapGet k m
    end.
Proof.
  induction l as [|x l IH]; intros m k; [reflexivity|].
  unfold setAll in *. cbn [fold_left]. rewrite IH, lastWith_cons, mapGet_mapSet.
  destruct (lastWith k l); [reflexivity|].
  unfold hasLine. rewrite (Z.eqb_sym (Toc.line x) k).
  now destruct (k =? Toc.line x).
Qed.

Lemma mapSet_keys_in k' k v m :
  In k' (map fst (mapSet k v m)) -> k' = k \/ In k' (map fst m).
Proof.
  induction m as [|[k0 v0] m IH]; cbn [mapSet map fst In].
  - intuition.
  - destruct (k0 =? k); cbn [map fst In]; intuition.
Qed.

Lemma mapSet_sorted k v m :
  StronglySorted Z.lt (map fst m) ->
  (forall k', In k' (map fst m) -> k' <= k) ->
  StronglySorted Z.lt (map fst (mapSet k v m)).
Proof.
  induction m as [|[k0 v0] m IH]; intros Hs Hle; cbn [mapSet map fst].
  - constructor; constructor.
  - destruct (Z.eqb_spec k0 k) as [->|Hne]; cbn [map fst]; [exact Hs|].
    cbn [map fst] in Hs. inversion Hs as [|? ? Hs' Hall]; subst.
    constructor.
    + apply IH; [assumption|]. intros k' Hk'. apply Hle. now right.
    + rewrite Forall_forall in *. intros k' Hk'.
      apply mapSet_keys_in in Hk'. destruct Hk' as [->|Hk'].
      * specialize (Hle k0 (or_introl eq_refl)). lia.
      * now apply Hall.
Qed.

Lemma mapSet_wellKeyed k v m :
  Toc.line v = k -> wellKeyed m -> wellKeyed (mapSet k v m).
Proof.
  intros Hv Hm. unfold wellKeyed in *.
  induction Hm as [|[k0 v0] m H0 Hm IH]; cbn [mapSet].
  - constructor; [exact Hv|constructor].
  - destruct (Z.eqb_spec k0 k) as [->|Hne].
    + constructor; [exact Hv|assumption].
    + constructor; assumption.
Qed.

Lemma setAll_invariant l : forall m,
  StronglySorted lineLe l ->
  StronglySorted Z.lt (map fst m) -> wellKeyed m ->
  (forall k e, In k (map fst m) -> In e l -> k <= Toc.line e) ->
  StronglySorted Z.lt (map fst (setAll l m)) /\ wellKeyed (setAll l m).
Proof.
  induction l as [|x l IH]; intros m Hl Hs Hw Hle; [split; assumption|].
  unfold setAll in *. cbn [fold_left].
  inversion Hl as [|? ? Hl' Hall]; subst.
  apply IH.
  - assumption.
  - apply mapSet_sorted; [assumption|].
    intros k' Hk'. apply (Hle k' x Hk'). now left.
  - now apply mapSet_wellKeyed.
  - intros k e Hk He. apply mapSet_keys_in in Hk. destruct Hk as [->|Hk].
    + rewrite Forall_forall in Hall. apply (Hall e He).
    + apply (Hle k e Hk). now right.
Qed.

Lemma mapGet_In m e :
  StronglySorted Z.lt (map fst m) -> wellKeyed m ->
  (In e (map snd m) <-> mapGet (Toc.line e) m = Some e).
Proof.
  unfold mapGet, wellKeyed.
  induction m as [|[k0 v0] m IH]; intros Hs Hw; cbn [map fst snd find In].
  - split; [intros []|discriminate].
  - inversion Hs as [|? ? Hs' Hall]; subst.
    inversion Hw as [|? ? H0 Hw']; subst. cbn [fst snd] in H0.
    destruct (Z.eqb_spec k0 (Toc.line e)) as [Heq|Hne]; cbn [option_map snd].
    + split; [|intros H; inversion H; now left].
      intros [->|Hin]; [reflexivity|exfalso].
      apply in_map_iff in Hin. destruct Hin as ([k1 v1] & Hv & Hin).
      cbn [snd] in Hv. subst v1.
      rewrite Forall_forall in Hall, Hw'.
      pose proof (Hw' _ Hin) as Hk1. cbn [fst snd] in Hk1.
      assert (Hk : In k1 (map fst m)).
      { apply in_map_iff. exists (k1, e). split; [reflexivity|assumption]. }
      specialize (Hall k1 Hk). lia.
    + rewrite <- (IH Hs' Hw'). split; [|now right].
      intros [->|Hin]; [congruence|assumption].
Qed.

Lemma lastPerLine_sorted l :
  StronglySorted lineLt (lastPerLine (sortByLine l)).
Proof.
  unfold lastPerLine. fold (setAll (sortByLine l) []).
  destruct (setAll_invariant (sortByLine l) [] (sortByLine_sorted _))
    as (Hs & Hw); [constructor|constructor|intros k e []|].
  unfold wellKeyed in Hw.
  induction (setAll (sortByLine l) []) as [|[k v] m IH];
    cbn [map fst snd] in *; [constructor|].
  inversion Hs as [|? ? Hs' Hall]; subst. inversion Hw as [|? ? Hv Hw']; subst.
  constructor; [now apply IH|].
  rewrite Forall_forall in *. intros e He.
  apply in_map_iff in He. destruct He as ([k1 v1] & <- & Hin).
  pose proof (Hw' _ Hin) as Hk1. cbn [fst snd] in *.
  unfold lineLt. rewrite Hv, Hk1. apply Hall.
  apply in_map_iff. exists (k1, v1). split; [reflexivity|assumption].
Qed.

(** X8. Sorting the entries by line and passing them through the [Map]
    leaves at most one entry per line, in strictly increasing order of line;
    the entry kept for a line is the last one of that line in the unsorted
    list.  In [tocField.update] the headings parsed from the changed ranges
    come after the ones carried over, so a freshly parsed heading replaces a
    carried one on the same line. *)
Theorem lastPerLine_sortByLine (tocEntries : list Toc.ToCEntry) :
  let sortedToC := lastPerLine (sortByLine tocEntries) in
  StronglySorted lineLt sortedToC /\
  (forall e, In e sortedToC <->
     exists l1 l2, tocEntries = l1 ++ e :: l2 /\
                   Forall (fun x => Toc.line x <> Toc.line e) l2).
Proof.
  cbn zeta. unfold lastPerLine. fold (setAll (sortByLine tocEntries) []).
  destruct (setAll_invariant (sortByLine tocEntries) [] (sortByLine_sorted _))
    as (Hs & Hw); [constructor|constructor|intros k e []|].
  split.
  - pose proof (lastPerLine_sorted tocEntries) as H.
    unfold lastPerLine in H. exact H.
  - intros e. rewrite (mapGet_In _ e Hs Hw), mapGet_setAll.
    cbn [mapGet find option_map].
    unfold lastWith. rewrite sortByLine_filter. fold (lastWith (Toc.line e) tocEntries).
    destruct (lastWith (Toc.line e) tocEntries) as [v|] eqn:E.
    + split.
      * intros H. inversion H; subst v.
        apply lastWith_spec in E. destruct E as (l1 & l2 & H1 & _ & H2). eauto.
      * intros (l1 & l2 & H1 & H2).
        assert (E' : lastWith (Toc.line e) tocEntries = Some e).
        { apply lastWith_spec. exists l1, l2. auto. }
        congruence.
    + split; [discriminate|].
      intros (l1 & l2 & H1 & H2).
      assert (E' : lastWith (Toc.line e) tocEntries = Some e).
      { apply lastWith_spec. exists l1, l2. auto. }
      congruence.
Qed.

End TocFacts.

Section TocUpdateFacts.

Variable headingsOf : string -> list AST.ASTNode.
Variable mapPos : Transaction -> Z -> option Z.

(** X9. After every update that changes the document and does not fail, the
    entries of the table of contents are in strictly increasing order of
    line: no line has two entries. *)
Theorem tocField_update_sorted (value result : list Toc.ToCEntry)
  (transaction : Transaction)
  (Hchanged : docChanged transaction = true)
  (Hresult : tocField_update headingsOf mapPos value transaction = Some result) :
  StronglySorted lineLt result.
Proof.
  unfold tocField_update in Hresult. rewrite Hchanged in Hresult. cbn [negb] in Hresult.
  destruct (mapEntries headingsOf mapPos transaction value) as [kept|]; [|discriminate].
  destruct (changedEntries headingsOf (newDoc transaction) (changes transaction))
    as [pushed|]; [|discriminate].
  inversion Hresult; subst result; clear Hresult.
  pose proof (lastPerLine_sorted (kept ++ pushed)) as Hs.
  revert Hs. generalize (lastPerLine (sortByLine (kept ++ pushed))). intros l Hs.
  destruct (generateTocFrom_fields l Toc.zero) as (Hlines & _).
  unfold generateToc. revert Hlines.
  generalize (generateTocFrom Toc.zero l). clear -Hs.
  induction Hs as [|a l Hs IH Hall]; intros [|b l'] Hlines; try discriminate;
    [constructor|].
  cbn [map] in Hlines. inversion Hlines as [[Hb Hrest]].
  constructor; [now apply IH|].
  rewrite Forall_forall in *. intros y Hy.
  apply (In_nth_error) in Hy. destruct Hy as (n & Hn).
  assert (Hline : nth_error (map Toc.line l') n = Some (Toc.line y))
    by (now apply map_nth_error).
  rewrite Hrest in Hline.
  apply nth_error_In in Hline. apply in_map_iff in Hline.
  destruct Hline as (x & Hx & Hin). specialize (Hall x Hin).
  unfold lineLt in *. lia.
Qed.

(** X10. An update for a change that starts in the first line of the new
    document fails: [Math.min(lineAt(fromB).number - 1, 1)] is 0 there, and
    [newDoc.line(0)] throws a RangeError. *)
Theorem tocField_update_first_line (value : list Toc.ToCEntry)
  (transaction : Transaction) (c : Change) (rest : list Change)
  (lineB : Text.Line)
  (Hchanged : docChanged transaction = true)
  (Hchanges : changes transaction = c :: rest)
  (HlineB : Text.lineAt (newDoc transaction) (fromB c) = Some lineB)
  (Hfirst : Text.number lineB = 1) :
  tocField_update headingsOf mapPos value transaction = None.
Proof.
  unfold tocField_update. rewrite Hchanged. cbn [negb].
  destruct (mapEntries headingsOf mapPos transaction value); [|reflexivity].
  rewrite Hchanges. cbn [changedEntries]. rewrite HlineB, Hfirst.
  change (Z.min (1 - 1) 1) with 0.
  unfold Text.line at 1. cbn [Z.ltb Z.compare orb]. reflexivity.
Qed.

End TocUpdateFacts.

Lemma tocField_update_sorted_witness :
  let transaction := replaceRange ["# A"; "text"]%string 4 8 "# B" in
  let value := [Toc.mkToCEntry 1 0 "# A" 1 "1" "a"]%string in
  let result :=
    [Toc.mkToCEntry 1 0 "# A" 1 "1" "a"]%string in
  (docChanged transaction = true /\
   tocField_update hashHeadings (fun _ pos => Some pos) value transaction
   = Some result) /\
  StronglySorted lineLt result.
Proof.
  cbn zeta.
  assert (H1 : docChanged (replaceRange ["# A"; "text"]%string 4 8 "# B") = true)
    by reflexivity.
  assert (H2 : tocField_update hashHeadings (fun _ pos => Some pos)
                 [Toc.mkToCEntry 1 0 "# A" 1 "1" "a"]%string
                 (replaceRange ["# A"; "text"]%string 4 8 "# B")
               = Some [Toc.mkToCEntry 1 0 "# A" 1 "1" "a"]%string)
    by (vm_compute; reflexivity).
  split; [auto|].
  exact (tocField_update_sorted hashHeadings (fun _ pos => Some pos) _ _ _ H1 H2).
Defined.

Lemma tocField_update_first_line_witness :
  let transaction := replaceRange ["# A"; "text"]%string 0 0 "x" in
  (docChanged transaction = true /\
   changes transaction = [mkChange 0 0 0 1] /\
   Text.lineAt (newDoc transaction) 0 = Some (Text.mkLine 1 0 4 "x# A") /\
   Text.number (Text.mkLine 1 0 4 "x# A") = 1) /\
  tocField_update hashHeadings (fun _ pos => Some pos)
                  [Toc.mkToCEntry 1 0 "# A" 1 "1" "a"]%string transaction = None.
Proof.
  cbn zeta.
  assert (H1 : docChanged (replaceRange ["# A"; "text"]%string 0 0 "x") = true)
    by reflexivity.
  assert (H2 : changes (replaceRange ["# A"; "text"]%string 0 0 "x")
               = [mkChange 0 0 0 1]) by reflexivity.
  assert (H3 : Text.lineAt (newDoc (replaceRange ["# A"; "text"]%string 0 0 "x"))
                           (fromB (mkChange 0 0 0 1))
               = Some (Text.mkLine 1 0 4 "x# A")) by reflexivity.
  assert (H4 : Text.number (Text.mkLine 1 0 4 "x# A") = 1) by reflexivity.
  split; [auto|].
  exact (tocField_update_first_line hashHeadings (fun _ pos => Some pos)
           [Toc.mkToCEntry 1 0 "# A" 1 "1" "a"]%string _ _ _ _ H1 H2 H3 H4).
Defined.

(** ** The counter under undo *)

Section CounterUndo.

Variable wordAtPos : Text.Doc -> Z -> option (option Range).
Variable count : string -> Counts.

Lemma processSegment_additive doc a b sign total :
  processSegment wordAtPos count doc a b sign total
  = match processSegment wordAtPos count doc a b 1 (mkCounts 0 0) with
    | None => None
    | Some delta =>
      Some (mkCounts (chars total + sign * chars delta)
                     (words total + sign * words delta))
    end.
Proof.
  unfold processSegment.
  destruct (wordAtPos doc a) as [startWord|]; [|reflexivity].
  destruct (wordAtPos doc b) as [endWord|]; [|reflexivity].
  cbn [chars words]. f_equal. f_equal; lia.
Qed.

Lemma countChanges_shift tr cs : forall total total' total2,
  countChanges wordAtPos count tr cs total = Some total' ->
  countChanges wordAtPos count tr cs total2
  = Some (addCounts total2 (subCounts total' total)).
Proof.
  induction cs as [|c cs IH]; intros total total' total2 H.
  - cbn in *. inversion H; subst. unfold addCounts, subCounts.
    destruct total2, total'. cbn. f_equal. f_equal; lia.
  - cbn [countChanges] in *.
    rewrite processSegment_additive in H. rewrite processSegment_additive.
    destruct (processSegment wordAtPos count (startDoc tr) (fromA c) (toA c) 1
                             (mkCounts 0 0)) as [dA|]; [|discriminate].
    rewrite processSegment_additive in H. rewrite processSegment_additive.
    destruct (processSegment wordAtPos count (newDoc tr) (fromB c) (toB c) 1
                             (mkCounts 0 0)) as [dB|]; [|discriminate].
    rewrite (IH _ _ _ H). unfold addCounts, subCounts. cbn [chars words].
    f_equal. f_equal; lia.
Qed.

Lemma countChanges_invert tr cs : forall total total',
  countChanges wordAtPos count tr cs total = Some total' ->
  countChanges wordAtPos count (invertTransaction tr) (map invertChange cs) total'
  = Some total.
Proof.
  induction cs as [|c cs IH]; intros total total' H.
  - cbn in *. now inversion H.
  - cbn [countChanges map] in *.
    cbn [invertTransaction startDoc newDoc invertChange fromA toA fromB toB].
    rewrite processSegment_additive in H.
    rewrite (processSegment_additive (newDoc tr)).
    destruct (processSegment wordAtPos count (startDoc tr) (fromA c) (toA c) 1
                             (mkCounts 0 0)) as [dA|] eqn:EA; [|discriminate].
    rewrite processSegment_additive in H.
    destruct (processSegment wordAtPos count (newDoc tr) (fromB c) (toB c) 1
                             (mkCounts 0 0)) as [dB|] eqn:EB; [|discriminate].
    rewrite (processSegment_additive (startDoc tr)), EA.
    pose proof (IH _ _ H) as Hrest.
    cbn [invertTransaction] in Hrest.
    rewrite (countChanges_shift _ _ _ _ _ Hrest).
    unfold addCounts, subCounts. cbn [chars words].
    destruct total, total'. cbn [chars words]. f_equal. f_equal; lia.
Qed.

(** X11. Undo restores the counter: when the update for a transaction gives
    a new state, the update of that state for the inverse transaction gives
    back the state before, exactly, for every analyzer.  A difference to the
    full recount is therefore neither built up nor removed by an edit that is
    undone. *)
Theorem countField_undo (value value' : Counts) (transaction : Transaction)
  (Hupdate : countField_update wordAtPos count value transaction = Some value') :
  countField_update wordAtPos count value' (invertTransaction transaction)
  = Some value.
Proof.
  unfold countField_update in *. cbn [invertTransaction docChanged changes].
  destruct (docChanged transaction); cbn [negb] in *.
  - now apply countChanges_invert.
  - now inversion Hupdate.
Qed.

End CounterUndo.

Lemma countField_undo_witness :
  let transaction := replaceRange ["one two three"]%string 4 7 "twotwo" in
  countField_update wordAt countText (mkCounts 11 3) transaction
  = Some (mkCounts 14 3) /\
  countField_update wordAt countText (mkCounts 14 3) (invertTransaction transaction)
  = Some (mkCounts 11 3).
Proof.
  cbn zeta.
  assert (H : countField_update wordAt countText (mkCounts 11 3)
                (replaceRange ["one two three"]%string 4 7 "twotwo")
              = Some (mkCounts 14 3))
    by (vm_compute; reflexivity).
  split; [exact H|].
  exact (countField_undo wordAt countText _ _ _ H).
Defined.

(** ** The characters of a slug *)

Section SlugFacts.

Open Scope string_scope.

Lemma replaceAll_class_removed p s :
  Regex.replaceAll (Regex.Chr p) (Regex.Text "") s
  = filterChars (fun c => negb (p c)) s.
Proof.
  induction s as [|c s IH]; [reflexivity|].
  rewrite replaceAll_step. unfold Regex.matchAt. cbn [Regex.run filterChars].
  destruct (p c); cbn [negb].
  - replace (String.length s <? String.length (String c s))%nat with true
      by (symmetry; apply Nat.ltb_lt; cbn [String.length]; lia).
    cbn [Regex.expand append]. exact IH.
  - now rewrite IH.
Qed.

Lemma allChars_filterChars p s : allChars p (filterChars p s) = true.
Proof.
  induction s as [|c s IH]; [reflexivity|].
  cbn [filterChars]. destruct (p c) eqn:E; [|exact IH].
  cbn [allChars]. now rewrite E.
Qed.

Lemma allChars_impl (p q : ascii -> bool) s :
  (forall c, p c = true -> q c = true) ->
  allChars p s = true -> allChars q s = true.
Proof.
  intros Hpq. induction s as [|c s IH]; [reflexivity|].
  cbn [allChars]. intros H. apply andb_true_iff in H. destruct H as [Hc Hs].
  apply andb_true_iff. split; [now apply Hpq|now apply IH].
Qed.

Lemma lowerChar_slug c : isIdChar c = true -> isSlugChar (lowerChar c) = true.
Proof.
  destruct c as [[] [] [] [] [] [] [] []]; vm_compute; intros H;
    (reflexivity || discriminate).
Qed.

Lemma allChars_toLowerCase s :
  allChars isIdChar s = true -> allChars isSlugChar (toLowerCase s) = true.
Proof.
  induction s as [|c s IH]; [reflexivity|].
  cbn [allChars toLowerCase]. intros H. apply andb_true_iff in H.
  destruct H as [Hc Hs]. apply andb_true_iff.
  split; [now apply lowerChar_slug|now apply IH].
Qed.

Lemma allChars_substring p s : forall n m,
  allChars p s = true -> allChars p (substring n m s) = true.
Proof.
  induction s as [|c s IH]; intros n m H.
  - destruct n, m; reflexivity.
  - cbn [allChars] in H. apply andb_true_iff in H. destruct H as [Hc Hs].
    destruct n as [|n]; cbn [substring].
    + destruct m as [|m]; [reflexivity|].
      cbn [allChars]. apply andb_true_iff. split; [assumption|now apply IH].
    + now apply IH.
Qed.

(** The search for one character of a class finds the first one. *)
Lemma execFrom_class p s : forall i,
  match Regex.execFrom (Regex.Chr p) s i with
  | Some m =>
    exists pre c post, s = pre ++ String c post /\ p c = true /\
      allChars (fun x => negb (p x)) pre = true /\
      Regex.index m = (i + String.length pre)%nat
  | None => allChars (fun x => negb (p x)) s = true
  end.
Proof.
  induction s as [|c s IH]; intros i; [reflexivity|].
  cbn [Regex.execFrom]. unfold Regex.matchAt. cbn [Regex.run].
  destruct (p c) eqn:E.
  - exists "", c, s. cbn. repeat split; [assumption|lia].
  - specialize (IH (S i)).
    destruct (Regex.execFrom (Regex.Chr p) s (S i)) as [m|].
    + destruct IH as (pre & c' & post & -> & Hc & Hpre & Hidx).
      exists (String c pre), c', post. cbn [append allChars String.length].
      rewrite E. cbn [negb andb]. repeat split; try assumption. lia.
    + cbn [allChars]. now rewrite E.
Qed.

Lemma substring_skip pre : forall s,
  substring (String.length pre) (String.length (pre ++ s) - String.length pre) (pre ++ s)
  = s.
Proof.
  induction pre as [|c pre IH]; intros s.
  - cbn [String.length append]. rewrite Nat.sub_0_r.
    induction s as [|x s IHs]; [reflexivity|].
    cbn [String.length substring]. now rewrite IHs.
  - cbn [String.length append substring Nat.sub]. apply IH.
Qed.

(** The slug holds slug characters only; it starts with a letter or holds no
    letter at all. *)
Lemma slugify_chars h :
  allChars isSlugChar (slugify h) = true /\
  ((exists c rest, slugify h = String c rest /\ isLowerLetter c = true) \/
   allChars (fun c => negb (isLowerLetter c)) (slugify h) = true).
Proof.
  unfold slugify.
  set (t := toLowerCase (Regex.replaceAll nonIdCharRe (Regex.Text "") _)).
  assert (Ht : allChars isSlugChar t = true).
  { subst t. apply allChars_toLowerCase. unfold nonIdCharRe.
    rewrite replaceAll_class_removed.
    apply (allChars_impl (fun c => negb (negb (isIdChar c)))).
    - intros c Hc. now apply negb_true_iff, negb_false_iff in Hc.
    - apply allChars_filterChars. }
  split.
  - now apply allChars_substring.
  - unfold Regex.exec, letterRe.
    pose proof (execFrom_class (charBetween "a" "z") t 0) as Hex.
    destruct (Regex.execFrom (Regex.Chr (charBetween "a" "z")) t 0) as [m|].
    + destruct Hex as (pre & c & post & Heq & Hc & _ & Hidx).
      left. exists c, post. split; [|exact Hc].
      rewrite Hidx, Heq. cbn [Nat.add]. apply substring_skip.
    + right. cbn [Nat.sub]. rewrite Nat.sub_0_r.
      apply allChars_substring. exact Hex.
Qed.

(** X12. When a heading has neither an attribute id nor a named anchor, its
    id is never empty and holds only lowercase letters, digits, underscores,
    periods and hyphens; it starts with a lowercase letter, or holds no
    letter at all (a heading of digits keeps its digits). *)
Theorem headingToID_slug (h : string)
  (Hattr : pandocId h = None) (Hanchor : namedAnchorId h = None) :
  headingToID h <> "" /\
  allChars isSlugChar (headingToID h) = true /\
  ((exists c rest, headingToID h = String c rest /\ isLowerLetter c = true) \/
   allChars (fun c => negb (isLowerLetter c)) (headingToID h) = true).
Proof.
  unfold headingToID. rewrite Hattr, Hanchor.
  destruct (slugify_chars h) as (Hall & Hstart).
  destruct (slugify h) as [|c rest] eqn:E.
  - cbn. split; [discriminate|]. split; [reflexivity|].
    left. exists "s"%char, "ection". split; reflexivity.
  - cbn [String.length Nat.eqb]. split; [discriminate|]. split; assumption.
Qed.

Lemma headingToID_slug_witness :
  (pandocId "Hello World!" = None /\ namedAnchorId "Hello World!" = None) /\
  headingToID "Hello World!" <> "" /\
  allChars isSlugChar (headingToID "Hello World!") = true /\
  ((exists c rest, headingToID "Hello World!" = String c rest /\
                   isLowerLetter c = true) \/
   allChars (fun c => negb (isLowerLetter c)) (headingToID "Hello World!") = true).
Proof.
  assert (H1 : pandocId "Hello World!" = None) by (vm_compute; reflexivity).
  assert (H2 : namedAnchorId "Hello World!" = None) by (vm_compute; reflexivity).
  split; [auto|].
  exact (headingToID_slug "Hello World!" H1 H2).
Defined.

End SlugFacts.

(** ** The word around a position *)

Section WordFacts.

Open Scope string_scope.

Lemma append_length a b :
  String.length (a ++ b) = (String.length a + String.length b)%nat.
Proof. induction a as [|c a IH]; cbn; [reflexivity|now rewrite IH]. Qed.

Lemma append_assoc a b c : (a ++ b) ++ c = a ++ (b ++ c).
Proof. induction a as [|x a IH]; cbn; [reflexivity|now rewrite IH]. Qed.

Lemma append_empty_r a : a ++ "" = a.
Proof. induction a as [|x a IH]; cbn; [reflexivity|now rewrite IH]. Qed.

Lemma substring_all s : substring 0 (String.length s) s = s.
Proof. induction s as [|c s IH]; cbn; [reflexivity|now rewrite IH]. Qed.

Lemma substring_prefix a : forall b,
  substring 0 (String.length a) (a ++ b) = a.
Proof.
  induction a as [|c a IH]; intros b; cbn.
  - now destruct b.
  - now rewrite IH.
Qed.

Lemma substring_suffix a : forall b,
  substring (String.length a) (String.length b) (a ++ b) = b.
Proof.
  induction a as [|c a IH]; intros b; cbn; [apply substring_all|apply IH].
Qed.

Lemma substring_split s : forall i, (i <= String.length s)%nat ->
  s = substring 0 i s ++ substring i (String.length s - i) s /\
  String.length (substring 0 i s) = i.
Proof.
  induction s as [|c s IH]; intros i Hi.
  - cbn in Hi. assert (i = O) by lia. subst. split; reflexivity.
  - destruct i as [|i].
    + cbn [substring append String.length Nat.sub]. rewrite substring_all.
      split; reflexivity.
    + cbn [String.length] in Hi. destruct (IH i ltac:(lia)) as (H1 & H2).
      cbn [substring append String.length Nat.sub]. rewrite H2.
      split; [now rewrite <- H1|reflexivity].
Qed.

Lemma wordPrefix_le s : (wordPrefix s <= String.length s)%nat.
Proof.
  induction s as [|c s IH]; cbn; [lia|]. destruct (isWordChar c); cbn; lia.
Qed.

Lemma wordSuffix_le s : (wordSuffix s <= String.length s)%nat.
Proof.
  induction s as [|c s IH]; cbn [wordSuffix String.length]; [lia|].
  destruct ((wordSuffix s =? String.length s)%nat && isWordChar c); lia.
Qed.

Lemma wordPrefix_word w : forall b,
  allChars isWordChar w = true ->
  wordPrefix (w ++ b) = (String.length w + wordPrefix b)%nat.
Proof.
  induction w as [|c w IH]; intros b H; [reflexivity|].
  cbn [allChars] in H. apply andb_true_iff in H. destruct H as [Hc Hw].
  cbn [append wordPrefix String.length]. rewrite Hc, (IH b Hw). reflexivity.
Qed.

Lemma wordSuffix_all w :
  allChars isWordChar w = true -> wordSuffix w = String.length w.
Proof.
  induction w as [|c w IH]; intros H; [reflexivity|].
  cbn [allChars] in H. apply andb_true_iff in H. destruct H as [Hc Hw].
  cbn [wordSuffix String.length]. rewrite (IH Hw), Nat.eqb_refl, Hc. reflexivity.
Qed.

Lemma wordSuffix_word a : forall w,
  allChars isWordChar w = true ->
  wordSuffix (a ++ w) = (String.length w + wordSuffix a)%nat.
Proof.
  induction a as [|c a IH]; intros w H.
  - cbn [append wordSuffix]. rewrite (wordSuffix_all w H). lia.
  - cbn [append wordSuffix String.length]. rewrite (IH w H), append_length.
    pose proof (wordSuffix_le a).
    destruct (Nat.eqb_spec (wordSuffix a) (String.length a)) as [E|E].
    + replace (String.length w + wordSuffix a =? String.length a + String.length w)%nat
        with true by (symmetry; apply Nat.eqb_eq; lia).
      cbn [andb]. destruct (isWordChar c); lia.
    + replace (String.length w + wordSuffix a =? String.length a + String.length w)%nat
        with false by (symmetry; apply Nat.eqb_neq; lia).
      reflexivity.
Qed.

(** A text ends with its run of word characters, and starts with one. *)
Lemma wordSuffix_decomp s :
  exists a w, s = a ++ w /\ String.length w = wordSuffix s /\
              allChars isWordChar w = true /\ wordSuffix a = O.
Proof.
  induction s as [|c s IH].
  - exists "", "". repeat split.
  - destruct IH as (a & w & Hs & Hlen & Hw & Ha).
    cbn [wordSuffix].
    destruct (Nat.eqb_spec (wordSuffix s) (String.length s)) as [E|E];
      [destruct (isWordChar c) eqn:Ec|]; cbn [andb].
    + exists "", (String c s). cbn [append String.length allChars].
      rewrite Ec. cbn [andb].
      assert (Hall : a = "").
      { pose proof (f_equal String.length Hs) as HL. rewrite append_length in HL.
        destruct a; [reflexivity|cbn [String.length] in HL; lia]. }
      subst a. cbn [append] in Hs. subst w. repeat split; [lia|assumption].
    + exists (String c a), w. cbn [append]. rewrite <- Hs.
      repeat split; try assumption.
      cbn [wordSuffix]. rewrite Ha, Ec, andb_false_r. reflexivity.
    + exists (String c a), w. cbn [append]. rewrite <- Hs.
      repeat split; try assumption.
      cbn [wordSuffix]. rewrite Ha.
      destruct a as [|x a]; [|reflexivity].
      exfalso. cbn [append] in Hs. subst w. congruence.
Qed.

Lemma wordPrefix_decomp s :
  exists w b, s = w ++ b /\ String.length w = wordPrefix s /\
              allChars isWordChar w = true /\ wordPrefix b = O.
Proof.
  induction s as [|c s IH].
  - exists "", "". repeat split.
  - destruct IH as (w & b & Hs & Hlen & Hw & Hb).
    cbn [wordPrefix]. destruct (isWordChar c) eqn:Ec.
    + exists (String c w), b. cbn [append String.length allChars].
      rewrite <- Hs, Hlen, Ec, Hw. repeat split. assumption.
    + exists "", (String c s). cbn [append wordPrefix]. rewrite Ec. repeat split.
Qed.

(** The scans from any index inside a text stay inside the text and around
    the index, and scanning again from either end they found gives the same
    two ends. *)
Lemma wordIn_fix text i :
  (i <= String.length text)%nat ->
  let '(start, stop) := wordIn text i in
  (start <= i)%nat /\ (i <= stop)%nat /\ (stop <= String.length text)%nat /\
  wordIn text start = (start, stop) /\ wordIn text stop = (start, stop).
Proof.
  intros Hi. unfold wordIn.
  destruct (substring_split text i Hi) as (Hsplit & Hlen).
  set (pre := substring 0 i text) in *.
  set (post := substring i (String.length text - i) text) in *.
  destruct (wordSuffix_decomp pre) as (a & w1 & Hpre & Hw1len & Hw1 & Ha).
  destruct (wordPrefix_decomp post) as (w2 & b & Hpost & Hw2len & Hw2 & Hb).
  assert (Htext : text = a ++ (w1 ++ (w2 ++ b))).
  { rewrite Hsplit, Hpre, Hpost. now rewrite append_assoc. }
  assert (Hi' : i = (String.length a + String.length w1)%nat).
  { rewrite <- Hlen, Hpre. apply append_length. }
  rewrite <- Hw1len, <- Hw2len.
  replace (i - String.length w1)%nat with (String.length a) by lia.
  assert (Hlentext : String.length text
                     = (String.length a + (String.length w1
                        + (String.length w2 + String.length b)))%nat).
  { rewrite Htext. now rewrite !append_length. }
  split; [lia|]. split; [lia|]. split; [lia|].
  split.
  - f_equal.
    + rewrite Htext at 1. rewrite substring_prefix, Ha. lia.
    + replace (String.length text - String.length a)%nat
        with (String.length (w1 ++ (w2 ++ b)))
        by (rewrite !append_length; lia).
      rewrite Htext at 1. rewrite substring_suffix.
      rewrite (wordPrefix_word w1 _ Hw1), (wordPrefix_word w2 _ Hw2), Hb. lia.
  - assert (Hstop : (i + String.length w2)%nat
                    = String.length ((a ++ w1) ++ w2)).
    { rewrite !append_length. lia. }
    assert (Htext' : text = ((a ++ w1) ++ w2) ++ b).
    { rewrite Htext. now rewrite !append_assoc. }
    f_equal.
    + rewrite Hstop. rewrite Htext' at 1. rewrite substring_prefix.
      rewrite (wordSuffix_word _ w2 Hw2), (wordSuffix_word _ w1 Hw1), Ha.
      rewrite !append_length. lia.
    + rewrite Hstop.
      replace (String.length text - String.length ((a ++ w1) ++ w2))%nat
        with (String.length b)
        by (rewrite Hlentext, !append_length; lia).
      rewrite Htext' at 1. rewrite substring_suffix, Hb. lia.
Qed.

Lemma lineGo_to_len d : forall k start num l,
  Text.lineGo d k start num = Some l ->
  Text.to l = Text.from l + Text.len (Text.text l).
Proof.
  induction d as [|x rest IH]; intros k start num l H; [discriminate|].
  destruct k as [|k]; cbn [Text.lineGo] in H.
  - inversion H; subst. reflexivity.
  - now apply IH in H.
Qed.

Lemma line_to_len d n l :
  Text.line d n = Some l -> Text.to l = Text.from l + Text.len (Text.text l).
Proof.
  intros H. apply line_inv in H. destruct H as (_ & _ & _ & _ & _ & Hgo).
  now apply lineGo_to_len in Hgo.
Qed.

Lemma wordAt_wordIn doc pos l :
  Text.lineAt doc pos = Some l ->
  wordAt doc pos
  = let '(start, stop) := wordIn (Text.text l) (Z.to_nat (pos - Text.from l)) in
    if (start =? stop)%nat then Some None
    else Some (Some (mkRange (Z.of_nat start + Text.from l)
                             (Z.of_nat stop + Text.from l))).
Proof. intros H. unfold wordAt, wordIn. now rewrite H. Qed.

(** A word found by [wordAt] lies in the document around the position, is
    not empty, and is found again from its start and from its end. *)
Lemma wordAt_word doc pos w :
  wordAt doc pos = Some (Some w) ->
  from w <= pos <= to w /\ 0 <= from w /\ to w <= Text.length doc /\
  from w < to w /\
  wordAt doc (from w) = Some (Some w) /\ wordAt doc (to w) = Some (Some w).
Proof.
  intros H.
  destruct (Text.lineAt doc pos) as [l|] eqn:El;
    [|unfold wordAt in H; rewrite El in H; discriminate].
  rewrite (wordAt_wordIn doc pos l El) in H.
  pose proof (lineAt_inv _ _ _ El) as (Hline & Hpos).
  pose proof (line_inv _ _ _ Hline) as (_ & _ & H0 & _ & Hlen & _).
  pose proof (line_to_len _ _ _ Hline) as Hto.
  unfold Text.len in Hto.
  set (text := Text.text l) in *.
  set (i := Z.to_nat (pos - Text.from l)) in *.
  assert (Hi : (i <= String.length text)%nat) by lia.
  pose proof (wordIn_fix text i Hi) as Hfix.
  destruct (wordIn text i) as [start stop].
  destruct Hfix as (H1 & H2 & H3 & Hs & He).
  destruct (Nat.eqb_spec start stop) as [Heq|Hne]; [discriminate|].
  inversion H; subst w; clear H. cbn [from to].
  split; [lia|]. split; [lia|]. split; [lia|]. split; [lia|].
  split.
  - rewrite (wordAt_wordIn doc _ l);
      [|apply (line_lineAt doc _ l _ Hline); lia].
    replace (Z.to_nat (Z.of_nat start + Text.from l - Text.from l)) with start by lia.
    fold text. rewrite Hs.
    destruct (Nat.eqb_spec start stop); [contradiction|reflexivity].
  - rewrite (wordAt_wordIn doc _ l);
      [|apply (line_lineAt doc _ l _ Hline); lia].
    replace (Z.to_nat (Z.of_nat stop + Text.from l - Text.from l)) with stop by lia.
    fold text. rewrite He.
    destruct (Nat.eqb_spec start stop); [contradiction|reflexivity].
Qed.

Lemma wordAt_defined doc pos :
  doc <> [] -> 0 <= pos <= Text.length doc -> exists r, wordAt doc pos = Some r.
Proof.
  intros Hne Hpos. destruct (lineAt_defined doc pos Hne Hpos) as (l & Hl).
  rewrite (wordAt_wordIn doc pos l Hl).
  destruct (wordIn (Text.text l) (Z.to_nat (pos - Text.from l))) as [start stop].
  destruct (start =? stop)%nat; eauto.
Qed.

(** X13. For two positions of a non-empty document, the word expansion
    never fails; its result starts at or before the first position and ends
    at or after the second one, inside the document; and it is idempotent:
    expanding the result again returns the same range. *)
Theorem getWordPosition_idempotent (doc : Text.Doc) (from0 to0 : Z)
  (Hne : doc <> [])
  (Hfrom : 0 <= from0 <= Text.length doc) (Hto : 0 <= to0 <= Text.length doc) :
  exists r, getWordPosition doc from0 to0 = Some r /\
    from r <= from0 /\ to0 <= to r /\ 0 <= from r /\ to r <= Text.length doc /\
    getWordPosition doc (from r) (to r) = Some r.
Proof.
  destruct (wordAt_defined doc from0 Hne Hfrom) as (fromWord & Hfw).
  destruct (wordAt_defined doc to0 Hne Hto) as (toWord & Htw).
  unfold getWordPosition. rewrite Hfw, Htw.
  eexists. split; [reflexivity|]. cbn [from to].
  assert (HF : (match fromWord with Some w => from w | None => from0 end) <= from0 /\
               0 <= (match fromWord with Some w => from w | None => from0 end) /\
               exists fw', wordAt doc (match fromWord with Some w => from w | None => from0 end)
                           = Some fw' /\
                 (match fw' with Some w => from w | None =>
                    (match fromWord with Some w => from w | None => from0 end) end)
                 = (match fromWord with Some w => from w | None => from0 end)).
  { destruct fromWord as [w|].
    - destruct (wordAt_word doc from0 w Hfw) as (H1 & H2 & _ & _ & H5 & _).
      split; [lia|]. split; [lia|]. exists (Some w). split; [exact H5|reflexivity].
    - split; [lia|]. split; [lia|]. exists None. split; [exact Hfw|reflexivity]. }
  assert (HT : to0 <= (match toWord with Some w => to w | None => to0 end) /\
               (match toWord with Some w => to w | None => to0 end) <= Text.length doc /\
               exists tw', wordAt doc (match toWord with Some w => to w | None => to0 end)
                           = Some tw' /\
                 (match tw' with Some w => to w | None =>
                    (match toWord with Some w => to w | None => to0 end) end)
                 = (match toWord with Some w => to w | None => to0 end)).
  { destruct toWord as [w|].
    - destruct (wordAt_word doc to0 w Htw) as (H1 & _ & H3 & _ & _ & H6).
      split; [lia|]. split; [lia|]. exists (Some w). split; [exact H6|reflexivity].
    - split; [lia|]. split; [lia|]. exists None. split; [exact Htw|reflexivity]. }
  destruct HF as (F1 & F2 & fw' & F3 & F4).
  destruct HT as (T1 & T2 & tw' & T3 & T4).
  split; [exact F1|]. split; [exact T1|]. split; [exact F2|]. split; [exact T2|].
  rewrite F3, T3. now rewrite F4, T4.
Qed.

Lemma getWordPosition_idempotent_witness :
  let doc := ["one two three"] in
  (doc <> [] /\ 0 <= 5 <= Text.length doc /\ 0 <= 9 <= Text.length doc) /\
  exists r, getWordPosition doc 5 9 = Some r /\
    from r <= 5 /\ 9 <= to r /\ 0 <= from r /\ to r <= Text.length doc /\
    getWordPosition doc (from r) (to r) = Some r.
Proof.
  cbn zeta.
  assert (Hne : ["one two three"] <> @nil string) by discriminate.
  assert (H1 : 0 <= 5 <= Text.length ["one two three"])
    by (vm_compute; split; discriminate).
  assert (H2 : 0 <= 9 <= Text.length ["one two three"])
    by (vm_compute; split; discriminate).
  split; [auto|].
  exact (getWordPosition_idempotent ["one two three"] 5 9 Hne H1 H2).
Defined.

Example getWordPosition_example :
  getWordPosition ["one two three"] 5 9 = Some (mkRange 4 13).
Proof. reflexivity. Qed.

End WordFacts.

(** ** The diagnostics the linters create *)

Section LinterDiagnostics.

Open Scope list_scope.
Open Scope string_scope.
Open Scope Z_scope.

Lemma prefix_app a b : prefix a (a ++ b) = true.
Proof.
  induction a as [|c a IH]; [now destruct b|].
  cbn. destruct (ascii_dec c c); [exact IH|congruence].
Qed.

Lemma includes_app tag s : includes tag (tag ++ s) = true.
Proof.
  destruct (tag ++ s) eqn:E; cbn [includes]; rewrite <- E, prefix_app; reflexivity.
Qed.

Lemma includes_self tag : includes tag tag = true.
Proof.
  assert (H : prefix tag tag = true).
  { pose proof (prefix_app tag "") as H. now rewrite append_empty_r in H. }
  destruct tag; cbn [includes]; rewrite H; reflexivity.
Qed.

Lemma matchDiagnostic_provider range m :
  fromProvider "language-tool" (matchDiagnostic range m) = true.
Proof.
  unfold fromProvider, matchDiagnostic. cbn [Lint.source].
  change ("language-tool(" ++ LanguageTool.issueType m ++ ")")
    with ("language-tool" ++ ("(" ++ LanguageTool.issueType m ++ ")")).
  apply includes_app.
Qed.

(** X14. Every diagnostic the grammar checker pushes for a range comes from
    a match of the response that passed the filter; it is as long as the
    match, carries a source the checker's own filter recognises in the next
    pass, and has either no actions (the match has no replacements) or
    between one and ten, named after the first replacements in order. *)
Theorem ltDiagnostics_sound (range : Range) (textNodes : list Range)
  (matches : list LanguageTool.Match) (d : Lint.Diagnostic)
  (Hd : In d (ltDiagnostics range textNodes matches)) :
  exists m, In m matches /\ matchIsValid range textNodes m = true /\
    d = matchDiagnostic range m /\
    Lint.to d - Lint.from d = LanguageTool.length m /\
    fromProvider "language-tool" d = true /\
    match Lint.actions d with
    | None => LanguageTool.replacements m = []
    | Some actions =>
      (1 <= length actions <= 10)%nat /\
      map Lint.name actions = firstn 10 (LanguageTool.replacements m)
    end.
Proof.
  unfold ltDiagnostics in Hd. apply in_map_iff in Hd.
  destruct Hd as (m & <- & Hm). apply removeInvalid_In in Hm.
  destruct Hm as (Hin & Hvalid).
  exists m. split; [assumption|]. split; [assumption|]. split; [reflexivity|].
  split; [unfold matchDiagnostic; cbn [Lint.to Lint.from]; lia|].
  split; [apply matchDiagnostic_provider|].
  unfold matchDiagnostic. cbn [Lint.actions].
  destruct (LanguageTool.replacements m) as [|r rs] eqn:E; [reflexivity|].
  split.
  - rewrite length_map, length_firstn. cbn [length]. lia.
  - rewrite map_map. cbn [Lint.name]. apply map_id.
Qed.

Lemma ltDiagnostics_sound_witness :
  let d := matchDiagnostic (mkRange 0 13) proseMatch in
  In d (ltDiagnostics (mkRange 0 13) boldTextNodes [markupMatch; proseMatch]) /\
  exists m, In m [markupMatch; proseMatch] /\
    matchIsValid (mkRange 0 13) boldTextNodes m = true /\
    d = matchDiagnostic (mkRange 0 13) m /\
    Lint.to d - Lint.from d = LanguageTool.length m /\
    fromProvider "language-tool" d = true /\
    match Lint.actions d with
    | None => LanguageTool.replacements m = []
    | Some actions =>
      (1 <= length actions <= 10)%nat /\
      map Lint.name actions = firstn 10 (LanguageTool.replacements m)
    end.
Proof.
  cbn zeta.
  assert (Hd : In (matchDiagnostic (mkRange 0 13) proseMatch)
                  (ltDiagnostics (mkRange 0 13) boldTextNodes
                                 [markupMatch; proseMatch]))
    by (vm_compute; auto).
  split; [exact Hd|].
  exact (ltDiagnostics_sound (mkRange 0 13) boldTextNodes [markupMatch; proseMatch]
                             _ Hd).
Defined.

Lemma placeToOffset_inside text place :
  placeInside text place = true ->
  exists r, placeToOffset place text = Some r /\
    0 <= from r <= Text.length text /\ 0 <= to r <= Text.length text.
Proof.
  pose proof (length_nonneg text) as Hlen.
  induction place as [|[line column]|start IHs end_ IHe]; intros H.
  - exists (mkRange 0 0). cbn. repeat split; lia.
  - cbn [placeInside placeToOffset Unist.column Unist.line] in *.
    destruct column as [column|]; [|exists (mkRange 0 0); cbn; repeat split; lia].
    destruct line as [line|]; [|exists (mkRange 0 0); cbn; repeat split; lia].
    destruct (Text.line text line) as [l|] eqn:El; [|discriminate].
    apply andb_true_iff in H. destruct H as [H1 H2].
    apply Z.leb_le in H1. apply Z.leb_le in H2.
    apply line_inv in El. destruct El as (_ & _ & H0 & _ & Hto & _).
    eexists. split; [reflexivity|]. cbn [from to]. lia.
  - cbn [placeInside] in H. apply andb_true_iff in H. destruct H as [H1 H2].
    destruct (IHs H1) as (s & Hs & Hs1 & _).
    destruct (IHe H2) as (e & He & _ & He2).
    exists (mkRange (from s) (to e)). cbn [placeToOffset]. rewrite Hs, He.
    split; [reflexivity|]. cbn [from to]. lia.
Qed.

Lemma messageDiagnostic_provider rangeFrom text m d :
  messageDiagnostic rangeFrom text m = Some d ->
  fromProvider "remark-lint" d = true.
Proof.
  unfold messageDiagnostic. destruct (placeToOffset (VFile.place m) text); [|discriminate].
  intros H. inversion H; subst d; clear H.
  unfold fromProvider. cbn [Lint.source].
  destruct (VFile.ruleId m) as [| |ruleId].
  - apply includes_self.
  - apply (includes_app "remark-lint" " ()").
  - apply (includes_app "remark-lint" (" (" ++ ruleId ++ ")")).
Qed.

(** X15. When every message of the style linter's result has a place inside
    the linted slice (or no usable place), the loop over the messages does
    not fail and pushes one diagnostic per message, in order; each lies
    inside the linted range of the document, is an error exactly when the
    message is fatal and a warning otherwise, keeps the message text, has no
    actions, and carries a source the linter's own filter recognises in the
    next pass. *)
Theorem messageDiagnostics_inside (rangeFrom : Z) (text : Text.Doc)
  (messages : list VFile.Message)
  (Hin : Forall (fun m => placeInside text (VFile.place m) = true) messages) :
  exists ds, messageDiagnostics rangeFrom text messages = Some ds /\
    Forall2 (fun m d =>
      rangeFrom <= Lint.from d <= rangeFrom + Text.length text /\
      rangeFrom <= Lint.to d <= rangeFrom + Text.length text /\
      Lint.severity d
      = match VFile.fatal m with Some true => Lint.error | _ => Lint.warning end /\
      Lint.message d = VFile.message m /\
      Lint.actions d = None /\
      fromProvider "remark-lint" d = true) messages ds.
Proof.
  induction Hin as [|m messages Hm Hrest IH].
  - exists []. split; [reflexivity|constructor].
  - destruct IH as (ds & Hds & Hall).
    destruct (placeToOffset_inside text _ Hm) as (r & Hr & Hfrom & Hto).
    pose proof (messageDiagnostic_provider rangeFrom text m) as Hp.
    cbn [messageDiagnostics]. unfold messageDiagnostic in *. rewrite Hr in *.
    rewrite Hds. eexists. split; [reflexivity|].
    constructor; [|exact Hall].
    cbn [Lint.from Lint.to Lint.severity Lint.message Lint.actions].
    split; [lia|]. split; [lia|]. split; [reflexivity|]. split; [reflexivity|].
    split; [reflexivity|]. now apply Hp.
Qed.

Lemma messageDiagnostics_inside_witness :
  let text := ["# Title"; ""; "some *text*"] in
  let messages :=
    [VFile.mkMessage
       (Unist.APosition (Unist.APoint (Unist.mkPoint (Some 3) (Some 6)))
                        (Unist.APoint (Unist.mkPoint (Some 3) (Some 12))))
       None "Emphasis should use _ as a marker" (VFile.RuleName "emphasis-marker");
     VFile.mkMessage Unist.Undefined (Some true) "Cannot process" VFile.RuleNull] in
  Forall (fun m => placeInside text (VFile.place m) = true) messages /\
  exists ds, messageDiagnostics 10 text messages = Some ds /\
    Forall2 (fun m d =>
      10 <= Lint.from d <= 10 + Text.length text /\
      10 <= Lint.to d <= 10 + Text.length text /\
      Lint.severity d
      = match VFile.fatal m with Some true => Lint.error | _ => Lint.warning end /\
      Lint.message d = VFile.message m /\
      Lint.actions d = None /\
      fromProvider "remark-lint" d = true) messages ds.
Proof.
  cbn zeta.
  match goal with
  | |- Forall ?P ?l /\ _ =>
    assert (Hin : Forall P l) by (repeat constructor)
  end.
  split; [exact Hin|].
  exact (messageDiagnostics_inside 10 _ _ Hin).
Defined.

Lemma reconcileFrom_count overlapping tag previous : forall st,
  let result := reconcileFrom overlapping tag st previous in
  (length (fst result) + length (snd result)
   = length (fst st) + length (snd st)
     + length (filter (fun x => fromProvider tag (diagnostic x)) previous))%nat.
Proof.
  induction previous as [|x previous IH]; intros [diagnostics ranges]; cbn zeta.
  - cbn. lia.
  - unfold reconcileFrom in *. cbn [fold_left filter]. cbn zeta in IH. rewrite IH.
    unfold reconcileStep.
    destruct (fromProvider tag (diagnostic x)); [|cbn [fst snd]; lia].
    destruct (overlapping ranges (diagnostic x)); cbn [negb fst snd length];
      rewrite length_app; cbn [length]; lia.
Qed.

(** X16. In a pass of the grammar checker, whatever the overlap test, every
    previous diagnostic of the checker goes to exactly one of two places:
    it is carried over at its tracked position, or its tracked span is added
    to the ranges to check again.  So the carried diagnostics and the ranges
    together are as many as the initial ranges and the checker's previous
    diagnostics, every carried diagnostic is a previous one of the checker,
    and the diagnostics of other providers are left out. *)
Theorem ltLintReconcile_partition
  (rangesOverlap : Range -> list Range -> bool)
  (ranges : list Range) (previous : list Tracked) :
  let result := ltLintReconcile rangesOverlap ranges previous in
  (length (fst result) + length (snd result)
   = length ranges
     + length (filter (fun x => fromProvider "language-tool" (diagnostic x))
                      previous))%nat /\
  (forall x, In x previous ->
     fromProvider "language-tool" (diagnostic x) = true ->
     In (carried x) (fst result) \/ In (trackedSpan x) (snd result)) /\
  (forall c, In c (fst result) ->
     exists x, In x previous /\
       fromProvider "language-tool" (diagnostic x) = true /\ c = carried x).
Proof.
  cbn zeta. unfold ltLintReconcile. split; [|split].
  - rewrite reconcileFrom_count. cbn [fst snd length]. lia.
  - intros x Hx Hp. now apply reconcileFrom_kept_or_pushed.
  - intros c Hc. now apply reconcileFrom_carried in Hc.
Qed.

End LinterDiagnostics.

(** ** The state of the grammar checker *)

Section LanguageToolStateFacts.

Lemma update_provided {A : Type} (getP : LTPartial.t -> option A)
  (getF : LTField.t -> A) :
  (forall value v,
     getF (languageToolState_step value (updateLTState v))
     = orElse (getP v) (getF value)) ->
  forall effects value,
    getF (languageToolState_update value effects)
    = orElse (lastProvided getP effects) (getF value).
Proof.
  intros Hstep. unfold languageToolState_update.
  induction effects as [|e effects IH]; intros value; [reflexivity|].
  cbn [fold_left lastProvided]. rewrite IH.
  destruct (lastProvided getP effects); [reflexivity|].
  destruct e as [v|]; [apply Hstep|reflexivity].
Qed.

Lemma update_lastError effects : forall value,
  LTField.lastError (languageToolState_update value effects)
  = match lastUpdate effects with
    | Some v => LTPartial.lastError v
    | None => LTField.lastError value
    end.
Proof.
  unfold languageToolState_update.
  induction effects as [|e effects IH]; intros value; [reflexivity|].
  cbn [fold_left lastUpdate]. rewrite IH.
  destruct (lastUpdate effects); [reflexivity|].
  now destruct e.
Qed.

(** X17. After a transaction, each of [running], [lastDetectedLanguage],
    [overrideLanguage] and [supportedLanguages] holds the last value an
    [updateLTState] effect of the transaction provides for it, and its old
    value when none does; [lastError] instead holds whatever the last
    [updateLTState] effect carries, so an effect without an error clears the
    error of an earlier one. *)
Theorem languageToolState_update_fields (value : LTField.t)
  (effects : list LTEffect) :
  let value' := languageToolState_update value effects in
  LTField.running value'
  = orElse (lastProvided LTPartial.running effects) (LTField.running value) /\
  LTField.lastDetectedLanguage value'
  = orElse (lastProvided LTPartial.lastDetectedLanguage effects)
           (LTField.lastDetectedLanguage value) /\
  LTField.overrideLanguage value'
  = orElse (lastProvided LTPartial.overrideLanguage effects)
           (LTField.overrideLanguage value) /\
  LTField.supportedLanguages value'
  = orElse (lastProvided LTPartial.supportedLanguages effects)
           (LTField.supportedLanguages value) /\
  LTField.lastError value'
  = match lastUpdate effects with
    | Some v => LTPartial.lastError v
    | None => LTField.lastError value
    end.
Proof.
  cbn zeta. repeat split.
  - now apply (update_provided LTPartial.running LTField.running).
  - now apply (update_provided LTPartial.lastDetectedLanguage
                               LTField.lastDetectedLanguage).
  - now apply (update_provided LTPartial.overrideLanguage LTField.overrideLanguage).
  - now apply (update_provided LTPartial.supportedLanguages
                               LTField.supportedLanguages).
  - apply update_lastError.
Qed.

Lemma orElse_again {A : Type} (a : option A) (b : A) :
  orElse a (orElse a b) = orElse a b.
Proof. now destruct a. Qed.

Lemma LTField_ext (a b : LTField.t) :
  LTField.running a = LTField.running b ->
  LTField.lastDetectedLanguage a = LTField.lastDetectedLanguage b ->
  LTField.lastError a = LTField.lastError b ->
  LTField.overrideLanguage a = LTField.overrideLanguage b ->
  LTField.supportedLanguages a = LTField.supportedLanguages b ->
  a = b.
Proof. destruct a, b; cbn; intros; subst; reflexivity. Qed.

(** X18. Applying the effects of a transaction a second time changes
    nothing: the update of the state is idempotent. *)
Theorem languageToolState_update_idempotent (value : LTField.t)
  (effects : list LTEffect) :
  languageToolState_update (languageToolState_update value effects) effects
  = languageToolState_update value effects.
Proof.
  apply LTField_ext.
  - rewrite !(update_provided LTPartial.running LTField.running) by reflexivity.
    apply orElse_again.
  - rewrite !(update_provided LTPartial.lastDetectedLanguage
                              LTField.lastDetectedLanguage) by reflexivity.
    apply orElse_again.
  - rewrite !update_lastError. now destruct (lastUpdate effects).
  - rewrite !(update_provided LTPartial.overrideLanguage LTField.overrideLanguage)
      by reflexivity.
    apply orElse_again.
  - rewrite !(update_provided LTPartial.supportedLanguages
                              LTField.supportedLanguages) by reflexivity.
    apply orElse_again.
Qed.

End LanguageToolStateFacts.

(** ** The pilcrow toggle *)

Section PilcrowFacts.

Lemma showLinePilcrowField_update_app value pre post :
  showLinePilcrowField_update value (pre ++ post)
  = showLinePilcrowField_update (showLinePilcrowField_update value pre) post.
Proof. unfold showLinePilcrowField_update. apply fold_left_app. Qed.

Lemma showLinePilcrowField_update_none effects : forall value,
  Forall (fun e => pilcrowSet e = None) effects ->
  showLinePilcrowField_update value effects = value.
Proof.
  unfold showLinePilcrowField_update.
  induction effects as [|e effects IH]; intros value H; [reflexivity|].
  inversion H as [|? ? He Hrest]; subst. cbn [fold_left].
  rewrite (IH _ Hrest).
  destruct e as [[b|]|b|]; cbn in He; try discriminate; reflexivity.
Qed.

(** X19. The toggle ends up at the value of the last effect of the
    transaction that sets one (a configuration update that names the
    setting, or the toggle effect), whatever its value was before and
    whatever the earlier effects set. *)
Theorem showLinePilcrowField_update_last (value b : bool)
  (pre post : list PilcrowEffect) (e : PilcrowEffect)
  (He : pilcrowSet e = Some b)
  (Hpost : Forall (fun e' => pilcrowSet e' = None) post) :
  showLinePilcrowField_update value (pre ++ e :: post) = b.
Proof.
  rewrite showLinePilcrowField_update_app.
  change (e :: post) with ([e] ++ post).
  rewrite showLinePilcrowField_update_app.
  rewrite (showLinePilcrowField_update_none post _ Hpost).
  unfold showLinePilcrowField_update. cbn [fold_left].
  destruct e as [[b'|]|b'|]; cbn in He; try discriminate;
    inversion He; reflexivity.
Qed.

Lemma showLinePilcrowField_update_last_witness :
  (pilcrowSet (configUpdateEffect (Some true)) = Some true /\
   Forall (fun e' => pilcrowSet e' = None) [unrelatedEffect; configUpdateEffect None]) /\
  showLinePilcrowField_update showLinePilcrowField_create
    ([showLinePilcrowEffect false]
       ++ configUpdateEffect (Some true) :: [unrelatedEffect; configUpdateEffect None])
  = true.
Proof.
  assert (He : pilcrowSet (configUpdateEffect (Some true)) = Some true)
    by reflexivity.
  assert (Hpost : Forall (fun e' => pilcrowSet e' = None)
                         [unrelatedEffect; configUpdateEffect None])
    by (repeat constructor).
  split; [split; assumption|].
  exact (showLinePilcrowField_update_last showLinePilcrowField_create true
           [showLinePilcrowEffect false] _ _ He Hpost).
Defined.

End PilcrowFacts.

(** ** The statusbar items *)

Section StatusbarFacts.

Open Scope list_scope.
Open Scope string_scope.
Open Scope Z_scope.

(** X20. For every offset of a non-empty document, the cursor item shows a
    line number of the document and a column between 1 and one more than
    the length of that line, and the place translation of the style linter
    maps this line and column back to the offset: the two conversions are
    inverse to each other. *)
Theorem cursorStatus_placeToOffset (doc : Text.Doc) (mainOffset : Z)
  (Hne : doc <> [])
  (Hoffset : 0 <= mainOffset <= Text.length doc) :
  exists line column l,
    cursorStatus doc mainOffset
    = Some (numberToString line ++ ":" ++ numberToString column) /\
    Text.line doc line = Some l /\
    1 <= column <= Text.len (Text.text l) + 1 /\
    placeToOffset (Unist.APoint (Unist.mkPoint (Some line) (Some column))) doc
    = Some (mkRange mainOffset mainOffset).
Proof.
  destruct (lineAt_defined doc mainOffset Hne Hoffset) as (l & Hl).
  pose proof (lineAt_inv _ _ _ Hl) as (Hline & Hpos).
  pose proof (line_to_len _ _ _ Hline) as Hto.
  exists (Text.number l), (mainOffset - Text.from l + 1), l.
  unfold cursorStatus. rewrite Hl.
  split; [reflexivity|]. split; [assumption|]. split; [lia|].
  cbn [placeToOffset Unist.column Unist.line]. rewrite Hline.
  f_equal. f_equal; lia.
Qed.

Lemma cursorStatus_placeToOffset_witness :
  let doc := ["# Title"; ""; "some text"] in
  (doc <> [] /\ 0 <= 12 <= Text.length doc) /\
  exists line column l,
    cursorStatus doc 12
    = Some (numberToString line ++ ":" ++ numberToString column) /\
    Text.line doc line = Some l /\
    1 <= column <= Text.len (Text.text l) + 1 /\
    placeToOffset (Unist.APoint (Unist.mkPoint (Some line) (Some column))) doc
    = Some (mkRange 12 12).
Proof.
  cbn zeta.
  assert (Hne : ["# Title"; ""; "some text"] <> @nil string) by discriminate.
  assert (Hoffset : 0 <= 12 <= Text.length ["# Title"; ""; "some text"])
    by (vm_compute; split; discriminate).
  split; [split; assumption|].
  exact (cursorStatus_placeToOffset _ 12 Hne Hoffset).
Defined.

Variable trans : string -> string -> string.
Variable localiseNumber : Z -> string.

(** X21. Without a selection and with the count field present, the word
    item and the character item are never both hidden; they are both shown
    exactly when the configuration field is absent, and with a
    configuration exactly one of them is shown: the character item when
    [countChars] is set, the word item otherwise. *)
Theorem count_items_shown (state : StatusState) (c : Counts)
  (Hempty : selectionEmpty state = true)
  (Hcounter : counter state = Some c) :
  (wordcountStatus trans localiseNumber state
   = if orElse (countChars state) false then None
     else Some (trans "%s words" (localiseNumber (words c)))) /\
  (charcountStatus trans localiseNumber state
   = if orElse (countChars state) true
     then Some (trans "%s characters" (localiseNumber (chars c)))
     else None) /\
  (wordcountStatus trans localiseNumber state <> None \/
   charcountStatus trans localiseNumber state <> None) /\
  ((wordcountStatus trans localiseNumber state <> None /\
    charcountStatus trans localiseNumber state <> None) <->
   countChars state = None).
Proof.
  unfold wordcountStatus, charcountStatus. rewrite Hempty, Hcounter. cbn [negb].
  destruct (countChars state) as [[|]|]; cbn [orElse].
  - split; [reflexivity|]. split; [reflexivity|]. split; [right; discriminate|].
    split; [intros [H _]; now contradiction H|discriminate].
  - split; [reflexivity|]. split; [reflexivity|]. split; [left; discriminate|].
    split; [intros [_ H]; now contradiction H|discriminate].
  - split; [reflexivity|]. split; [reflexivity|]. split; [left; discriminate|].
    split; [reflexivity|intros _; split; discriminate].
Qed.

End StatusbarFacts.

Lemma count_items_shown_witness :
  let state := mkStatusState true (mkCounts 0 0) (Some (mkCounts 11 3)) None in
  let trans := fun (format argument : string) => append argument (substring 2 20 format) in
  (selectionEmpty state = true /\ counter state = Some (mkCounts 11 3)) /\
  wordcountStatus trans numberToString state = Some "3 words"%string /\
  charcountStatus trans numberToString state = Some "11 characters"%string.
Proof.
  cbn zeta.
  split; [split; reflexivity|].
  pose proof (count_items_shown
                (fun format argument => append argument (substring 2 20 format))
                numberToString
                (mkStatusState true (mkCounts 0 0) (Some (mkCounts 11 3)) None)
                (mkCounts 11 3) eq_refl eq_refl) as (Hw & Hc & _).
  split; [exact Hw|exact Hc].
Defined.

(** ** The creation of the table of contents *)

Section TocCreateFacts.

Open Scope string_scope.
Open Scope list_scope.
Open Scope Z_scope.

Variable headingsOf : string -> list AST.ASTNode.

Lemma lineAt_monotone d p q l l' :
  Text.lineAt d p = Some l -> Text.lineAt d q = Some l' -> p <= q ->
  Text.number l <= Text.number l'.
Proof.
  intros Hl Hl' Hpq.
  apply lineAt_inv in Hl. apply lineAt_inv in Hl'.
  destruct Hl as (Hl & Hp). destruct Hl' as (Hl' & Hq).
  destruct (Z_le_gt_dec (Text.number l) (Text.number l')) as [|Hgt]; [assumption|].
  pose proof (line_increasing d _ _ _ _ Hl' Hl ltac:(lia)). lia.
Qed.

Lemma createEntries_spec doc nodes :
  doc <> [] ->
  Forall (fun node => 0 <= AST.from node <= Text.length doc) nodes ->
  exists entries, createEntries doc nodes = Some entries /\
    Forall2 (entryOf doc) (filter isHeading nodes) entries.
Proof.
  intros Hne Hin. induction Hin as [|node nodes Hnode Hrest IH].
  - exists []. split; [reflexivity|constructor].
  - destruct IH as (entries & He & Hall).
    cbn [createEntries filter]. unfold isHeading at 1.
    destruct (AST.type node =? "Heading")%string.
    + destruct (lineAt_defined doc _ Hne Hnode) as (l & Hl).
      rewrite Hl, He. eexists. split; [reflexivity|].
      constructor; [|exact Hall].
      exists l. cbn. repeat split. exact Hl.
    + exists entries. split; assumption.
Qed.

Lemma generateTocFrom_entryOf doc nodes : forall entries c,
  Forall2 (entryOf doc) nodes entries ->
  Forall2 (entryOf doc) nodes (generateTocFrom c entries).
Proof.
  induction nodes as [|node nodes IH]; intros entries c H;
    inversion H as [|? e ? entries' Hnode Hrest]; subst; [constructor|].
  cbn [generateTocFrom].
  pose proof (tocStep_fields c e) as Hf. cbn zeta in Hf.
  destruct (tocStep c e) as [c' e']. cbn [snd] in Hf.
  destruct Hf as (F1 & F2 & F3 & F4 & F5).
  constructor; [|now apply IH].
  destruct Hnode as (l & Hl & G1 & G2 & G3 & G4 & G5).
  exists l. rewrite F1, F2, F3, F4, F5. repeat split; assumption.
Qed.

Lemma entryOf_sorted doc nodes : forall toc,
  StronglySorted fromOrder nodes ->
  Forall2 (entryOf doc) nodes toc ->
  StronglySorted lineLe toc.
Proof.
  induction nodes as [|node nodes IH]; intros toc Hs H;
    inversion H as [|? e ? toc' Hnode Hrest]; subst; [constructor|].
  inversion Hs as [|? ? Hs' Hall]; subst.
  constructor; [now apply IH|].
  clear IH H Hs Hs'. revert toc' Hrest.
  induction Hall as [|node' nodes Hle Hall IH]; intros toc' Hrest;
    inversion Hrest as [|? e' ? toc'' Hnode' Hrest']; subst; constructor.
  - destruct Hnode as (l & Hl & G1 & _). destruct Hnode' as (l' & Hl' & G1' & _).
    unfold lineLe. rewrite G1, G1'.
    apply (lineAt_monotone doc _ _ _ _ Hl Hl'). exact Hle.
  - now apply IH.
Qed.

(** X22. When the heading nodes the parser returns for a non-empty document
    start inside the document and come in document order, the creation of
    the table of contents does not fail; it has one entry per heading node,
    in order, each with the offset and level of its node, the number and
    text of the line that contains the node's start and the id derived from
    that text; and its entries are in increasing order of line. *)
Theorem tocField_create_sorted (doc : Text.Doc)
  (Hne : doc <> [])
  (Hin : Forall (fun node => 0 <= AST.from node <= Text.length doc)
                (headingsOf (Text.toString doc)))
  (Hsorted : StronglySorted fromOrder (headingsOf (Text.toString doc))) :
  exists toc, tocField_create headingsOf doc = Some toc /\
    Forall2 (entryOf doc) (filter isHeading (headingsOf (Text.toString doc))) toc /\
    StronglySorted lineLe toc.
Proof.
  destruct (createEntries_spec doc _ Hne Hin) as (entries & He & Hall).
  unfold tocField_create. rewrite He. eexists. split; [reflexivity|].
  assert (H : Forall2 (entryOf doc)
                      (filter isHeading (headingsOf (Text.toString doc)))
                      (generateToc entries))
    by (now apply generateTocFrom_entryOf).
  split; [exact H|].
  apply (entryOf_sorted doc (filter isHeading (headingsOf (Text.toString doc))));
    [|exact H].
  clear -Hsorted. induction Hsorted as [|a l Hs IH Hall]; cbn [filter]; [constructor|].
  destruct (isHeading a); [|exact IH].
  constructor; [exact IH|].
  rewrite Forall_forall in *. intros x Hx. apply filter_In in Hx. now apply Hall.
Qed.

End TocCreateFacts.

Lemma tocField_create_sorted_witness :
  let doc := ["# One"; "text"; "# Two"]%string in
  let headingsOf := fun text => hashLines 0 (docOfString text) in
  let nodes := [AST.mkNode "Heading" 0 5 1; AST.mkNode "Heading" 11 16 1] in
  (doc <> [] /\
   Forall (fun node => 0 <= AST.from node <= Text.length doc) nodes /\
   StronglySorted fromOrder nodes) /\
  exists toc, tocField_create headingsOf doc = Some toc /\
    Forall2 (entryOf doc) (filter isHeading (headingsOf (Text.toString doc))) toc /\
    StronglySorted lineLe toc.
Proof.
  cbv zeta.
  assert (Hne : ["# One"; "text"; "# Two"]%string <> @nil string) by discriminate.
  assert (Hin : Forall (fun node => 0 <= AST.from node
                                    <= Text.length ["# One"; "text"; "# Two"]%string)
                       [AST.mkNode "Heading" 0 5 1; AST.mkNode "Heading" 11 16 1])
    by (repeat constructor; vm_compute; discriminate).
  assert (Hsorted : StronglySorted fromOrder
                      [AST.mkNode "Heading" 0 5 1; AST.mkNode "Heading" 11 16 1])
    by (repeat constructor; vm_compute; discriminate).
  split; [repeat split; assumption|].
  exact (tocField_create_sorted
           (fun text => hashLines 0 (docOfString text))
           ["# One"; "text"; "# Two"]%string Hne Hin Hsorted).
Defined.

(** ** The counter and transactions with several changes *)

Section CounterDrift.

Open Scope list_scope.
Open Scope string_scope.
Open Scope Z_scope.

Variable count : string -> Counts.

Lemma processSegment_counts doc a b sign total startWord endWord :
  wordAt doc a = Some startWord -> wordAt doc b = Some endWord ->
  processSegment wordAt count doc a b sign total
  = let start := match startWord with None => a | Some w => from w end in
    let end_ := match endWord with None => b | Some w => to w end in
    let counts := segmentCounts count (Text.sliceString doc start end_) in
    Some (mkCounts (chars total + sign * chars counts)
                   (words total + sign * words counts)).
Proof.
  intros Ha Hb. unfold processSegment, segmentCounts. rewrite Ha, Hb. reflexivity.
Qed.

Lemma wordPrefix_all w :
  allChars isWordChar w = true -> wordPrefix w = String.length w.
Proof.
  intros H. pose proof (wordPrefix_word w "" H) as E.
  rewrite append_empty_r in E. cbn [wordPrefix] in E. lia.
Qed.

(** In a document that is one word, [wordAt] finds the whole word at every
    position. *)
Lemma wordAt_word_doc w pos :
  w <> "" -> allChars isWordChar w = true -> 0 <= pos <= Text.len w ->
  wordAt [w] pos = Some (Some (mkRange 0 (Text.len w))).
Proof.
  intros Hne Hw Hpos. unfold wordAt, Text.lineAt. cbn [Text.length].
  replace ((pos <? 0) || (Text.len w <? pos)) with false
    by (symmetry; apply orb_false_iff; split; apply Z.ltb_ge; lia).
  cbn [Text.lineAtGo]. replace (pos <=? 0 + Text.len w) with true
    by (symmetry; apply Z.leb_le; lia).
  cbn [Text.text Text.from].
  replace (Z.to_nat (pos - 0)) with (Z.to_nat pos) by lia.
  set (i := Z.to_nat pos).
  assert (Hi : (i <= String.length w)%nat) by (unfold Text.len in Hpos; lia).
  destruct (substring_split w i Hi) as (Hsplit & Hlen).
  assert (Hlen' : String.length (substring i (String.length w - i) w)
                  = (String.length w - i)%nat).
  { pose proof (f_equal String.length Hsplit) as HL.
    rewrite append_length, Hlen in HL. lia. }
  rewrite (wordSuffix_all _ (allChars_substring isWordChar w 0 i Hw)), Hlen.
  rewrite (wordPrefix_all _ (allChars_substring isWordChar w i _ Hw)), Hlen'.
  assert (Hpos' : (0 < String.length w)%nat) by (destruct w; [congruence|cbn; lia]).
  destruct (Nat.eqb_spec (i - i) (i + (String.length w - i))) as [E|E]; [lia|].
  unfold Text.len. do 3 f_equal; lia.
Qed.

Lemma sliceString_word w : Text.sliceString [w] 0 (Text.len w) = w.
Proof.
  unfold Text.sliceString, Text.len. cbn [Text.toString].
  replace (Z.to_nat (Z.of_nat (String.length w) - 0)) with (String.length w) by lia.
  apply substring_all.
Qed.

Lemma countChanges_words w w' tr cs : forall total,
  w <> "" -> allChars isWordChar w = true ->
  w' <> "" -> allChars isWordChar w' = true ->
  startDoc tr = [w] -> newDoc tr = [w'] ->
  Forall (insideWords w w') cs ->
  let n := Z.of_nat (length cs) in
  let old := segmentCounts count w in
  let new := segmentCounts count w' in
  countChanges wordAt count tr cs total
  = Some (mkCounts (chars total + n * (chars new - chars old))
                   (words total + n * (words new - words old))).
Proof.
  intros total Hne Hw Hne' Hw' Hstart Hnew Hcs. cbn zeta. revert total.
  induction Hcs as [|c cs Hc Hcs IH]; intros total.
  - cbn [countChanges length]. destruct total. cbn [chars words]. do 2 f_equal; lia.
  - destruct Hc as ((HfA & HtA) & (HfB & HtB)).
    cbn [countChanges]. rewrite Hstart, Hnew.
    rewrite (processSegment_counts [w] _ _ _ _ _ _
               (wordAt_word_doc w _ Hne Hw HfA) (wordAt_word_doc w _ Hne Hw HtA)).
    cbn zeta. cbn [from to]. rewrite sliceString_word.
    rewrite (processSegment_counts [w'] _ _ _ _ _ _
               (wordAt_word_doc w' _ Hne' Hw' HfB) (wordAt_word_doc w' _ Hne' Hw' HtB)).
    cbn zeta. cbn [from to]. rewrite sliceString_word.
    rewrite IH. cbn [chars words length]. do 2 f_equal; lia.
Qed.

Lemma counts_eq (a b : Counts) : a = b <-> chars a = chars b /\ words a = words b.
Proof.
  split; [intros ->; split; reflexivity|].
  destruct a, b. cbn. intros [-> ->]. reflexivity.
Qed.

Lemma some_counts_eq (a b : Counts) :
  Some a = Some b <-> chars a = chars b /\ words a = words b.
Proof.
  rewrite <- counts_eq. split; [intros H; congruence|intros ->; reflexivity].
Qed.

(** C1 (the code departs from the claim).  When a transaction has several
    changes inside one word, every change subtracts the counts of the whole
    old word and adds the counts of the whole new word: with [n] changes the
    difference between the new and the old word is added [n] times instead
    of once.  Replacing both [n] of the buffer [banana] by [nn] in one
    transaction gives, for every analyzer, twice the counts of [bannanna]
    minus the counts of [banana]; this is the full recount of the new buffer
    only if the analyzer counts the two words alike.  With the analyzer of
    the specification the state holds 10 characters, the recount 8.  The two
    examples of the claim hold. *)
Theorem countField_drift (w w' : string) (cs : list Change) (value : Counts)
  (Hw : w <> "" /\ allChars isWordChar w = true)
  (Hw' : w' <> "" /\ allChars isWordChar w' = true)
  (Hcs : Forall (insideWords w w') cs) :
  (let n := Z.of_nat (length cs) in
   let old := segmentCounts count w in
   let new := segmentCounts count w' in
   countField_update wordAt count value (mkTransaction true [w] [w'] cs)
   = Some (mkCounts (chars value + n * (chars new - chars old))
                    (words value + n * (words new - words old)))) /\
  (let tr := dispatch ["banana"] bananaSpecs in
   tr = mkTransaction true ["banana"] ["bannanna"]
                      [mkChange 2 3 2 4; mkChange 4 5 5 7] /\
   countField_update wordAt count (countField_create count (startDoc tr)) tr
   = Some (mkCounts (2 * chars (count "bannanna") - chars (count "banana"))
                    (2 * words (count "bannanna") - words (count "banana"))) /\
   (countField_update wordAt count (countField_create count (startDoc tr)) tr
    = Some (countField_create count (newDoc tr))
    <-> count "bannanna" = count "banana")) /\
  (let tr := dispatch ["banana"] bananaSpecs in
   countField_create countText (startDoc tr) = mkCounts 6 1 /\
   countField_update wordAt countText (countField_create countText (startDoc tr)) tr
   = Some (mkCounts 10 1) /\
   countField_create countText (newDoc tr) = mkCounts 8 1) /\
  (let tr := replaceRange ["one two three"] 4 7 "twotwo" in
   words (countField_create countText (startDoc tr)) = 3 /\
   countField_update wordAt countText (countField_create countText (startDoc tr)) tr
   = Some (countField_create countText (newDoc tr)) /\
   words (countField_create countText (newDoc tr)) = 3).
Proof.
  destruct Hw as (Hne & Hall). destruct Hw' as (Hne' & Hall').
  split; [|split; [|split]].
  - cbn zeta. unfold countField_update. cbn [docChanged negb changes].
    now apply countChanges_words.
  - cbn zeta.
    assert (Htr : dispatch ["banana"] bananaSpecs
                  = mkTransaction true ["banana"] ["bannanna"]
                                  [mkChange 2 3 2 4; mkChange 4 5 5 7])
      by (vm_compute; reflexivity).
    rewrite Htr. split; [reflexivity|].
    assert (Hupdate :
      countField_update wordAt count (count "banana")
        (mkTransaction true ["banana"] ["bannanna"]
                       [mkChange 2 3 2 4; mkChange 4 5 5 7])
      = Some (mkCounts (2 * chars (count "bannanna") - chars (count "banana"))
                       (2 * words (count "bannanna") - words (count "banana")))).
    { unfold countField_update. cbn [docChanged negb changes].
      rewrite (countChanges_words "banana" "bannanna");
        [|discriminate|reflexivity|discriminate|reflexivity|reflexivity|reflexivity|].
      - unfold segmentCounts.
        replace (singleLetterOrNumber (trim "banana")) with false
          by (vm_compute; reflexivity).
        replace (singleLetterOrNumber (trim "bannanna")) with false
          by (vm_compute; reflexivity).
        rewrite !andb_false_r. cbn [length]. do 2 f_equal; lia.
      - repeat constructor; vm_compute; discriminate. }
    unfold countField_create. cbn [startDoc newDoc Text.toString].
    split; [exact Hupdate|].
    rewrite Hupdate, some_counts_eq, counts_eq. cbn [chars words].
    split; intros [Hc Hwd]; split; lia.
  - vm_compute. repeat split.
  - vm_compute. repeat split.
Qed.

End CounterDrift.

Lemma countField_drift_witness :
  let w := "banana"%string in
  let w' := "bannanna"%string in
  let cs := [mkChange 2 3 2 4; mkChange 4 5 5 7] in
  ((w <> ""%string /\ allChars isWordChar w = true) /\
   (w' <> ""%string /\ allChars isWordChar w' = true) /\
   Forall (insideWords w w') cs) /\
  countField_update wordAt countText (countText w) (mkTransaction true [w] [w'] cs)
  = Some (mkCounts 10 1) /\
  countText w' = mkCounts 8 1.
Proof.
  cbn zeta.
  assert (Hw : "banana"%string <> ""%string /\
               allChars isWordChar "banana" = true)
    by (split; [discriminate|reflexivity]).
  assert (Hw' : "bannanna"%string <> ""%string /\
                allChars isWordChar "bannanna" = true)
    by (split; [discriminate|reflexivity]).
  assert (Hcs : Forall (insideWords "banana" "bannanna")
                       [mkChange 2 3 2 4; mkChange 4 5 5 7])
    by (repeat constructor; vm_compute; discriminate).
  split; [repeat split; solve [apply Hw | apply Hw' | exact Hcs]|].
  pose proof (countField_drift countText "banana" "bannanna"
                [mkChange 2 3 2 4; mkChange 4 5 5 7] (countText "banana")
                Hw Hw' Hcs) as (H & _).
  split; [exact H|reflexivity].
Defined.

(** ** Headings without a letter, and attributes after a group in braces *)

Section HeadingIdDivergence.

Open Scope list_scope.
Open Scope string_scope.

Lemma startsAt_chr p : startsAt p (Regex.Chr p).
Proof.
  intros s g k H. cbn [Regex.run]. destruct s as [|c s]; [reflexivity|].
  now rewrite H.
Qed.

Lemma startsAt_seq p a b : startsAt p a -> startsAt p (Regex.Seq a b).
Proof. intros Ha s g k H. cbn [Regex.run]. now apply Ha. Qed.

Lemma startsAt_rep p min max : startsAt p (Regex.Rep p (S min) max).
Proof.
  intros s g k H. cbn [Regex.run]. destruct s as [|c s]; cbn [Regex.rep Nat.leb].
  - reflexivity.
  - now rewrite H.
Qed.

Lemma matchAt_none p r s :
  startsAt p r -> allChars (fun c => negb (p c)) s = true -> Regex.matchAt r s = None.
Proof.
  intros Hr Hs. unfold Regex.matchAt. apply Hr.
  destruct s as [|c s]; [exact I|].
  cbn [allChars] in Hs. apply andb_true_iff in Hs. destruct Hs as [Hc _].
  now apply negb_true_iff in Hc.
Qed.

Lemma allChars_tail p c s : allChars p (String c s) = true -> allChars p s = true.
Proof. cbn [allChars]. intros H. apply andb_true_iff in H. tauto. Qed.

Lemma execFrom_none p r s : forall i,
  startsAt p r -> allChars (fun c => negb (p c)) s = true ->
  Regex.execFrom r s i = None.
Proof.
  induction s as [|c s IH]; intros i Hr Hs.
  - cbn [Regex.execFrom]. now rewrite (matchAt_none p r "" Hr Hs).
  - cbn [Regex.execFrom]. rewrite (matchAt_none p r _ Hr Hs).
    apply IH; [assumption|]. now apply allChars_tail in Hs.
Qed.

Lemma replace_none p r repl s :
  startsAt p r -> allChars (fun c => negb (p c)) s = true ->
  Regex.replace r repl s = s.
Proof.
  intros Hr Hs. unfold Regex.replace, Regex.exec.
  now rewrite (execFrom_none p r s 0 Hr Hs).
Qed.

Lemma replaceAll_none p r repl s :
  startsAt p r -> allChars (fun c => negb (p c)) s = true ->
  Regex.replaceAll r repl s = s.
Proof.
  intros Hr. induction s as [|c s IH]; intros Hs.
  - rewrite replaceAll_step. now rewrite (matchAt_none p r "" Hr Hs).
  - rewrite replaceAll_step, (matchAt_none p r _ Hr Hs).
    f_equal. apply IH. now apply allChars_tail in Hs.
Qed.

(** What a digit, a period or a hyphen is not. *)
Lemma digitPunct_plain c :
  isDigitPunct c = true ->
  charIs "{" c = false /\ charIs "<" c = false /\
  anyOf ["*"%char; "_"%char] c = false /\ charIs "`" c = false /\
  charIs "[" c = false /\ isWhiteSpace c = false /\ isIdChar c = true /\
  charBetween "a" "z" c = false /\ lowerChar c = c /\
  Ascii.eqb c "{" = false.
Proof.
  destruct c as [[] [] [] [] [] [] [] []]; vm_compute; intros H;
    try discriminate; repeat split.
Qed.

Lemma digitPunct_not (p : ascii -> bool) h :
  (forall c, isDigitPunct c = true -> p c = false) ->
  allChars isDigitPunct h = true -> allChars (fun c => negb (p c)) h = true.
Proof.
  intros Hp. apply allChars_impl. intros c Hc. now rewrite (Hp c Hc).
Qed.

Lemma toLowerCase_digitPunct h :
  allChars isDigitPunct h = true -> toLowerCase h = h.
Proof.
  induction h as [|c h IH]; intros H; [reflexivity|].
  cbn [allChars] in H. apply andb_true_iff in H. destruct H as [Hc Hh].
  cbn [toLowerCase]. rewrite (IH Hh).
  destruct (digitPunct_plain c Hc) as (_ & _ & _ & _ & _ & _ & _ & _ & -> & _).
  reflexivity.
Qed.

Lemma pandocId_digitPunct h : allChars isDigitPunct h = true -> pandocId h = None.
Proof.
  intros H. unfold pandocId, Regex.exec.
  rewrite (execFrom_none (charIs "{") pandocAttrsRe h 0); [reflexivity| |].
  - unfold pandocAttrsRe. cbn [Regex.seqs]. apply startsAt_seq, startsAt_chr.
  - apply digitPunct_not; [|assumption]. intros c Hc.
    now destruct (digitPunct_plain c Hc) as (-> & _).
Qed.

Lemma namedAnchorId_digitPunct h :
  allChars isDigitPunct h = true -> namedAnchorId h = None.
Proof.
  intros H. unfold namedAnchorId, Regex.exec.
  rewrite (execFrom_none (charIs "<") namedAnchorRe h 0); [reflexivity| |].
  - unfold namedAnchorRe. cbn [Regex.seqs]. apply startsAt_seq, startsAt_chr.
  - apply digitPunct_not; [|assumption]. intros c Hc.
    now destruct (digitPunct_plain c Hc) as (_ & -> & _).
Qed.

Lemma slugify_digitPunct h : allChars isDigitPunct h = true -> slugify h = h.
Proof.
  intros H. unfold slugify.
  rewrite (replace_none (charIs "<") htmlRe _ h);
    [|unfold htmlRe; cbn [Regex.seqs]; apply startsAt_seq, startsAt_chr
     |apply digitPunct_not; [|assumption]; intros c Hc;
      now destruct (digitPunct_plain c Hc) as (_ & -> & _)].
  rewrite (replaceAll_none (anyOf ["*"%char; "_"%char]) emphasisRe _ h);
    [|unfold emphasisRe; cbn [Regex.seqs]; apply startsAt_seq, startsAt_rep
     |apply digitPunct_not; [|assumption]; intros c Hc;
      now destruct (digitPunct_plain c Hc) as (_ & _ & -> & _)].
  rewrite (replaceAll_none (charIs "`") codeRe _ h);
    [|unfold codeRe; cbn [Regex.seqs]; apply startsAt_seq, startsAt_chr
     |apply digitPunct_not; [|assumption]; intros c Hc;
      now destruct (digitPunct_plain c Hc) as (_ & _ & _ & -> & _)].
  rewrite (replaceAll_none (charIs "[") linkRe _ h);
    [|unfold linkRe; cbn [Regex.seqs]; apply startsAt_seq, startsAt_chr
     |apply digitPunct_not; [|assumption]; intros c Hc;
      now destruct (digitPunct_plain c Hc) as (_ & _ & _ & _ & -> & _)].
  rewrite (replaceAll_none (charIs "[") footnoteRe _ h);
    [|unfold footnoteRe; cbn [Regex.seqs]; apply startsAt_seq, startsAt_chr
     |apply digitPunct_not; [|assumption]; intros c Hc;
      now destruct (digitPunct_plain c Hc) as (_ & _ & _ & _ & -> & _)].
  rewrite (replaceAll_none isWhiteSpace spaceRe _ h);
    [|apply startsAt_chr
     |apply digitPunct_not; [|assumption]; intros c Hc;
      now destruct (digitPunct_plain c Hc) as (_ & _ & _ & _ & _ & -> & _)].
  rewrite (replaceAll_none (fun c => negb (isIdChar c)) nonIdCharRe _ h);
    [|apply startsAt_chr
     |apply digitPunct_not; [|assumption]; intros c Hc;
      destruct (digitPunct_plain c Hc) as (_ & _ & _ & _ & _ & _ & -> & _);
      reflexivity].
  rewrite (toLowerCase_digitPunct h H).
  unfold Regex.exec.
  rewrite (execFrom_none (charBetween "a" "z") letterRe h 0);
    [|apply startsAt_chr
     |apply digitPunct_not; [|assumption]; intros c Hc;
      now destruct (digitPunct_plain c Hc) as (_ & _ & _ & _ & _ & _ & _ & -> & _)].
  rewrite Nat.sub_0_r. apply substring_all.
Qed.

Lemma afterLast_digitPunct h :
  allChars isDigitPunct h = true -> afterLast "{" h = None.
Proof.
  induction h as [|c h IH]; intros H; [reflexivity|].
  cbn [allChars] in H. apply andb_true_iff in H. destruct H as [Hc Hh].
  cbn [afterLast]. rewrite (IH Hh).
  now destruct (digitPunct_plain c Hc) as (_ & _ & _ & _ & _ & _ & _ & _ & _ & ->).
Qed.

Lemma specSlug_digitPunct h :
  allChars isDigitPunct h = true -> specSlug h = "section".
Proof.
  intros H. unfold specSlug.
  assert (H1 : mapChars (fun c => if isWhiteSpace c then "-"%char else c) h = h).
  { induction h as [|c h IH]; [reflexivity|].
    cbn [allChars] in H. apply andb_true_iff in H. destruct H as [Hc Hh].
    cbn [mapChars]. rewrite (IH Hh).
    now destruct (digitPunct_plain c Hc) as (_ & _ & _ & _ & _ & -> & _). }
  assert (H2 : filterChars isIdChar h = h).
  { clear H1. induction h as [|c h IH]; [reflexivity|].
    cbn [allChars] in H. apply andb_true_iff in H. destruct H as [Hc Hh].
    cbn [filterChars]. rewrite (IH Hh).
    now destruct (digitPunct_plain c Hc) as (_ & _ & _ & _ & _ & _ & -> & _). }
  assert (H3 : dropToLetter h = "").
  { clear H1 H2. induction h as [|c h IH]; [reflexivity|].
    cbn [allChars] in H. apply andb_true_iff in H. destruct H as [Hc Hh].
    cbn [dropToLetter]. unfold isLowerLetter.
    destruct (digitPunct_plain c Hc) as (_ & _ & _ & _ & _ & _ & _ & -> & _).
    now apply IH. }
  rewrite H1, H2, (toLowerCase_digitPunct h H), H3. reflexivity.
Qed.

(** C8 (the code departs from the claim).  A heading that is not empty and
    holds only digits, periods and hyphens keeps its whole text as id: no
    leading character is trimmed and the fallback [section] is not used,
    while the specification (and the comment of the code on identifiers that
    may not begin with a number or punctuation mark) gives [section].  And
    the attribute id is not always found: in a heading with a group in
    braces before its attributes the expression takes everything from the
    first opening brace, no attribute starts with the number sign, and the
    named anchor or the slug is used instead.  The examples of the claim
    hold. *)
Theorem headingToID_divergence (h : string)
  (Hne : h <> "")
  (Hchars : allChars isDigitPunct h = true) :
  (headingToID h = h /\ specHeadingToID h = "section" /\
   headingToID h <> specHeadingToID h) /\
  (specAttributeId setsHeading = Some "sets" /\
   specHeadingToID setsHeading = "sets" /\
   pandocId setsHeading = None /\
   namedAnchorId setsHeading = Some "top" /\
   headingToID setsHeading = "top") /\
  (specAttributeId "The set {x} {#sets}" = Some "sets" /\
   headingToID "The set {x} {#sets}" = "the-set-x-sets") /\
  (headingToID "Header {#custom-id}" = "custom-id" /\
   specHeadingToID "Header {#custom-id}" = "custom-id" /\
   headingToID "Hello World!" = "hello-world" /\
   specHeadingToID "Hello World!" = "hello-world" /\
   headingToID "!!!" = "section" /\
   specHeadingToID "!!!" = "section").
Proof.
  assert (Hcode : headingToID h = h).
  { unfold headingToID.
    rewrite (pandocId_digitPunct h Hchars), (namedAnchorId_digitPunct h Hchars),
            (slugify_digitPunct h Hchars).
    destruct h as [|c h']; [congruence|reflexivity]. }
  assert (Hspec : specHeadingToID h = "section").
  { unfold specHeadingToID, specAttributeId.
    rewrite (afterLast_digitPunct h Hchars), (namedAnchorId_digitPunct h Hchars).
    now apply specSlug_digitPunct. }
  split; [|split; [|split]].
  - split; [exact Hcode|]. split; [exact Hspec|].
    rewrite Hcode, Hspec. intros ->. vm_compute in Hchars. discriminate.
  - repeat split; vm_compute; reflexivity.
  - repeat split; vm_compute; reflexivity.
  - repeat split; vm_compute; reflexivity.
Qed.

Lemma headingToID_divergence_witness :
  ("123" <> "" /\ allChars isDigitPunct "123" = true) /\
  headingToID "123" = "123" /\ specHeadingToID "123" = "section".
Proof.
  assert (Hne : "123" <> "") by discriminate.
  assert (Hchars : allChars isDigitPunct "123" = true) by reflexivity.
  split; [split; assumption|].
  destruct (headingToID_divergence "123" Hne Hchars) as ((H1 & H2 & _) & _).
  split; [exact H1|exact H2].
Defined.

End HeadingIdDivergence.
